(** * PDFread.py: segmentation and result aggregation of the PDF assistant

    A shallow embedding of [PDFAssistant._split_text],
    [PDFAssistant.generate_summary] and [PDFAssistant.answer_question]
    together with the watchdog-timer protocol they run each chunk under.

    Conventions.
    - A Python [str] is a list of Unicode code points ([N]); [len] is the
      list length as a Python [int] ([Z]).
    - The confidence returned by [_answer_question_from_context] is a
      float clamped into [0,1] (never NaN: [max(0.0, nan)] is [0.0]); the
      aggregator only compares and prints it, so it is modelled by the
      rational it denotes ([Q]).
    - The inference functions, the sentence tokenizer and the Streamlit
      display are collaborators of the class: they are parameters of the
      model and each of them may raise. *)

From Stdlib Require Import List ZArith QArith Lia Bool Ascii String DecimalString.
Import ListNotations.
Local Open Scope Z_scope.

(** ** Python strings *)

Module PyStr.

Definition char := N.
Definition str := list char.

Definition lit (s : string) : str := map N_of_ascii (list_ascii_of_string s).

Definition len (s : str) : Z := Z.of_nat (List.length s).

(** Truth value of a string: [if s:] holds when [s] is not empty. *)
Definition truthy (s : str) : bool :=
  match s with [] => false | _ :: _ => true end.

(** [ch.isspace()] for one code point: the Unicode white space of CPython. *)
Definition isspace_char (c : char) : bool :=
  ((9 <=? c) && (c <=? 13) || (28 <=? c) && (c <=? 32) || (c =? 133)
   || (c =? 160) || (c =? 5760) || (8192 <=? c) && (c <=? 8202)
   || (c =? 8232) || (c =? 8233) || (c =? 8239) || (c =? 8287)
   || (c =? 12288))%N.

(** [s.isspace()]: at least one character and all of them white space. *)
Definition isspace (s : str) : bool := truthy s && forallb isspace_char s.

Fixpoint lstrip (s : str) : str :=
  match s with
  | [] => []
  | c :: r => if isspace_char c then lstrip r else s
  end.

Definition rstrip (s : str) : str := rev (lstrip (rev s)).

Definition strip (s : str) : str := rstrip (lstrip s).

(** [s[k:]] for an index [k >= 0]. *)
Definition slice_from (k : Z) (s : str) : str := skipn (Z.to_nat k) s.

(** The trailing at most [n] characters of [s]. *)
Definition last_chars (n : Z) (s : str) : str :=
  slice_from (Z.max 0 (len s - n)) s.

(** [s.startswith(p)]. *)
Fixpoint startswith (p s : str) : bool :=
  match p, s with
  | [], _ => true
  | _ :: _, [] => false
  | a :: p', b :: s' => (a =? b)%N && startswith p' s'
  end.

(** [s.split(sep)] for a one-character separator. *)
Fixpoint split (sep : char) (s : str) : list str :=
  match s with
  | [] => [[]]
  | c :: r =>
      if (c =? sep)%N then [] :: split sep r
      else match split sep r with
           | [] => [[c]]
           | h :: t => (c :: h) :: t
           end
  end.

(** [sep.join(l)]. *)
Fixpoint join (sep : str) (l : list str) : str :=
  match l with
  | [] => []
  | [x] => x
  | x :: r => x ++ sep ++ join sep r
  end.

(** [str(n)] for an [int]. *)
Definition str_of_int (z : Z) : str :=
  lit (NilZero.string_of_int (Z.to_int z)).

Definition SP : char := 32%N.
Definition DOT : char := 46%N.

End PyStr.
Import PyStr.

(** ** The chunker: the loop of [_split_text] *)

Section Chunker.

Variables max_length overlap : Z.

(** One iteration of [for sentence in sentences], on the pair
    [(chunks, current_chunk)]. *)
Definition split_step (st : list str * str) (sentence : str) : list str * str :=
  let '(chunks, current_chunk) := st in
  if len current_chunk + len sentence <=? max_length then
    (chunks, current_chunk ++ SP :: sentence)
  else
    let chunks' :=
      if truthy (strip current_chunk) then chunks ++ [strip current_chunk]
      else chunks in
    let overlap_point := Z.max 0 (len current_chunk - overlap) in
    (chunks', slice_from overlap_point current_chunk ++ SP :: sentence).

(** The statements after the loop: the last buffer is added when it is
    not blank. *)
Definition split_finish (st : list str * str) : list str :=
  let '(chunks, current_chunk) := st in
  if truthy (strip current_chunk) then chunks ++ [strip current_chunk]
  else chunks.

Definition chunk_sentences (sentences : list str) : list str :=
  split_finish (fold_left split_step sentences ([], [])).

(** The chunks still to come from a buffer and the remaining sentences:
    the same loop, read front to back. *)
Fixpoint emit (current_chunk : str) (sentences : list str) : list str :=
  match sentences with
  | [] => if truthy (strip current_chunk) then [strip current_chunk] else []
  | sentence :: rest =>
      if len current_chunk + len sentence <=? max_length then
        emit (current_chunk ++ SP :: sentence) rest
      else
        (if truthy (strip current_chunk) then [strip current_chunk] else [])
        ++ emit (last_chars overlap current_chunk ++ SP :: sentence) rest
  end.

End Chunker.

(** ** Exceptions, results and the observable world *)

(** The exceptions the aggregators tell apart: the module's own
    [TimeoutException] and every other subclass of [Exception]. *)
Inductive exn : Type :=
| TimeoutException (msg : str)
| OtherException (msg : str).

(** [str(e)]. *)
Definition str_of_exn (e : exn) : str :=
  match e with TimeoutException m => m | OtherException m => m end.

Definition is_TimeoutException (e : exn) : bool :=
  match e with TimeoutException _ => true | OtherException _ => false end.

Inductive Result (A : Type) : Type :=
| Ok (a : A)
| Raise (e : exn).
Arguments Ok {A} a.
Arguments Raise {A} e.

(** What one call of an inference function does: how long it runs
    (seconds) and how it ends. *)
Record run (A : Type) : Type := mk_run { took : Q; yields : Result A }.
Arguments mk_run {A} took yields.
Arguments took {A} r.
Arguments yields {A} r.

(** Calls on the Streamlit display. *)
Inductive st_call : Type :=
| st_progress (v : Q)
| st_empty
| progress_bar_progress (v : Q)
| progress_bar_empty
| status_text_text (msg : str)
| status_text_empty
| st_warning (msg : str)
| st_error (msg : str).

Inductive event : Type :=
| Display (c : st_call)
| Infer (context : str)
| TimerStart (seconds : Q)
| TimerCancel
| ThreadDied (e : exn).

(** The fields of [PDFAssistant] the aggregators read and write. *)
Record PDFAssistant : Type := mk_assistant { pdf_text : str; summary : str }.

(** [timer] holds the interval of the armed watchdog, if any. *)
Record world : Type := mk_world {
  self : PDFAssistant;
  events : list event;
  timer : option Q
}.

Definition log (e : event) (w : world) : world :=
  mk_world (self w) (events w ++ [e]) (timer w).

Definition set_timer (t : option Q) (w : world) : world :=
  mk_world (self w) (events w) t.

(** ** A state and exception monad for the methods *)

Definition M (A : Type) : Type := world -> Result A * world.

Definition ret {A} (a : A) : M A := fun w => (Ok a, w).

Definition raise {A} (e : exn) : M A := fun w => (Raise e, w).

Definition bind {A B} (m : M A) (k : A -> M B) : M B :=
  fun w => match m w with
           | (Ok a, w') => k a w'
           | (Raise e, w') => (Raise e, w')
           end.

Declare Scope py_scope.
Delimit Scope py_scope with py.
Notation "x <- c1 ;; c2" := (bind c1 (fun x => c2))
  (at level 61, c1 at next level, right associativity) : py_scope.
Notation "' pat <- c1 ;; c2" := (bind c1 (fun x => match x with pat => c2 end))
  (at level 61, pat pattern, c1 at next level, right associativity) : py_scope.
Notation "c1 ;; c2" := (bind c1 (fun _ => c2))
  (at level 61, right associativity) : py_scope.
Local Open Scope py_scope.

(** The outcome of a collaborator that does not touch the world. *)
Definition lift {A} (r : Result A) : M A := fun w => (r, w).

(** [try: body / except <class> as e: handler e], for the exceptions
    selected by [catches]. *)
Definition try_except {A} (catches : exn -> bool) (body : M A)
    (handler : exn -> M A) : M A :=
  fun w => match body w with
           | (Ok a, w') => (Ok a, w')
           | (Raise e, w') => if catches e then handler e w' else (Raise e, w')
           end.

(** [except Exception]: every exception of the model is one. *)
Definition any_Exception (e : exn) : bool := true.

(** [try: body / finally: cleanup]. *)
Definition try_finally {A} (body : M A) (cleanup : M unit) : M A :=
  fun w => match body w with
           | (r, w') => match cleanup w' with
                        | (Ok _, w'') => (r, w'')
                        | (Raise e, w'') => (Raise e, w'')
                        end
           end.

(** [for i, x in enumerate(l)] over the local variables [s]. *)
Fixpoint for_enumerate {A V : Type} (i : nat) (l : list A)
    (body : nat -> A -> V -> M V) (s : V) : M V :=
  match l with
  | [] => ret s
  | x :: r => s' <- body i x s ;; for_enumerate (S i) r body s'
  end.

Definition get_self : M PDFAssistant := fun w => (Ok (self w), w).

(** [self.summary = v]. *)
Definition set_summary (v : str) : M unit :=
  fun w => (Ok tt, mk_world (mk_assistant (pdf_text (self w)) v) (events w) (timer w)).

(** ** The watchdog timer ([threading.Timer]) *)

Definition timeout_handler : M unit :=
  raise (TimeoutException (lit "Operation timed out")).

(** The timer's function runs on the timer's own thread: an exception it
    raises ends that thread and is reported there; it does not reach the
    thread that started the timer. *)
Definition on_timer_thread (f : M unit) (w : world) : world :=
  match f w with
  | (Ok _, w') => w'
  | (Raise e, w') => log (ThreadDied e) w'
  end.

(** [timer = Timer(seconds, timeout_handler); timer.start()]. *)
Definition Timer_start (seconds : Q) : M unit :=
  fun w => (Ok tt, set_timer (Some seconds) (log (TimerStart seconds) w)).

(** [timer.cancel()]. *)
Definition Timer_cancel : M unit :=
  fun w => (Ok tt, set_timer None (log TimerCancel w)).

(** [d] seconds pass on the calling thread: an armed timer whose interval
    has run out fires. *)
Definition elapse (d : Q) (w : world) : world :=
  match timer w with
  | Some seconds =>
      if Qle_bool seconds d
      then on_timer_thread timeout_handler (set_timer None w)
      else w
  | None => w
  end.

(** One call of an inference function on [context]. *)
Definition call {A} (context : str) (r : run A) : M A :=
  fun w => (yields r, elapse (took r) (log (Infer context) w)).

(** ** Formatting *)

Definition Qltb (a b : Q) : bool := negb (Qle_bool b a).

(** The nearest integer, ties to even. *)
Definition round_half_even (q : Q) : Z :=
  let d := Z.pos (Qden q) in
  let f := Qnum q / d in
  let r := Qnum q mod d in
  if 2 * r <? d then f
  else if d <? 2 * r then f + 1
  else if Z.even f then f else f + 1.

(** [f"{q:.2f}"]. *)
Definition format_2f (q : Q) : str :=
  let k := Z.abs (round_half_even (q * 100)) in
  (if Qltb q 0 then lit "-" else [])
  ++ str_of_int (k / 100) ++ [DOT]
  ++ (if k mod 100 <? 10 then lit "0" else []) ++ str_of_int (k mod 100).

(** ** The methods of [PDFAssistant] *)

(** The messages the methods return. *)
Definition MSG_LOAD_FIRST : str := lit "Please load a PDF first.".
Definition MSG_NO_TEXT_SUMMARY : str :=
  lit "Unable to extract meaningful text from the PDF.".
Definition MSG_NO_SUMMARY : str :=
  lit "Could not generate a summary. Try a different document or check document quality.".
Definition MSG_SUMMARY_ERROR : str :=
  lit "An error occurred while generating the summary.".
Definition MSG_VALID_QUESTION : str := lit "Please enter a valid question.".
Definition MSG_NO_TEXT_ANSWER : str :=
  lit "Unable to extract meaningful text from the PDF to answer questions.".
Definition MSG_NO_ANSWER : str :=
  lit "I couldn't find an answer to that question in the document.".
Definition MSG_ANSWER_ERROR : str :=
  lit "An error occurred while processing your question.".

Section Assistant.

(** [nltk.sent_tokenize]. *)
Variable sent_tokenize : str -> Result (list str).
(** [PDFAssistant._summarize_text]. *)
Variable _summarize_text : str -> run str.
(** [PDFAssistant._answer_question_from_context]: question, context. *)
Variable _answer_question_from_context : str -> str -> run (str * Q).
(** The Streamlit display. *)
Variable display : st_call -> Result unit.

Definition st (c : st_call) : M unit :=
  fun w => (display c, log (Display c) w).

(** The sentences [_split_text] chunks: the tokenizer's, or on its
    failure the fragments between periods with the period put back. *)
Definition sentences_of (text : str) : M (list str) :=
  try_except any_Exception (lift (sent_tokenize text))
    (fun e =>
       st (st_error (lit "Error tokenizing text: " ++ str_of_exn e)) ;;
       ret (map (fun s => s ++ [DOT]) (filter truthy (split DOT text)))).

Definition _split_text (text : str) (max_length overlap : Z) : M (list str) :=
  if negb (truthy text) || isspace text then ret []
  else
    sentences <- sentences_of text ;;
    ret (chunk_sentences max_length overlap sentences).

(** The progress fraction [(i + 1) / len(chunks)]. *)
Definition progress_value (i : nat) (n : Z) : Q :=
  inject_Z (Z.of_nat i + 1) / inject_Z n.

Definition chunk_label (i : nat) : str := str_of_int (Z.of_nat i + 1).

(** The notifications of the two loops, for chunk number [i + 1]. *)
Definition summary_timeout_warning (i : nat) : st_call :=
  st_warning (lit "Chunk " ++ chunk_label i
              ++ lit " took too long to summarize. Skipping.").

Definition summary_error (i : nat) (e : exn) : st_call :=
  st_error (lit "Error summarizing chunk " ++ chunk_label i ++ lit ": "
            ++ str_of_exn e).

Definition search_timeout_warning (i : nat) : st_call :=
  st_warning (lit "Chunk " ++ chunk_label i
              ++ lit " took too long to process. Skipping.").

Definition search_error (i : nat) (e : exn) : st_call :=
  st_error (lit "Error processing chunk " ++ chunk_label i ++ lit ": "
            ++ str_of_exn e).

(** The body of the loop of [generate_summary]; [n] is [len(chunks)]. *)
Definition summarize_chunk (n : Z) (i : nat) (chunk : str)
    (summaries : list str) : M (list str) :=
  st (progress_bar_progress (progress_value i n)) ;;
  st (status_text_text
        (lit "Processing chunk " ++ chunk_label i ++ lit "/" ++ str_of_int n
         ++ lit "...")) ;;
  if len chunk <? 100 then ret summaries
  else
    try_except any_Exception
      (Timer_start 60 ;;
       '(summaries', timeout_flag) <-
         try_finally
           (try_except is_TimeoutException
              (chunk_summary <- call chunk (_summarize_text chunk) ;;
               ret (summaries ++ [chunk_summary], false))
              (fun _ => st (summary_timeout_warning i) ;; ret (summaries, true)))
           Timer_cancel ;;
       if (timeout_flag : bool) then ret summaries' else ret summaries')
      (fun e => st (summary_error i e) ;; ret summaries).

(** The statements of [generate_summary] under its outer [try]. *)
Definition generate_summary_body : M str :=
  this <- get_self ;;
  chunks <- _split_text (pdf_text this) 500 50 ;;
  match chunks with
  | [] => ret MSG_NO_TEXT_SUMMARY
  | _ :: _ =>
      st (st_progress 0) ;;
      st st_empty ;;
      summaries <- for_enumerate 0 chunks (summarize_chunk (Z.of_nat (List.length chunks))) [] ;;
      match summaries with
      | [] => ret MSG_NO_SUMMARY
      | _ :: _ =>
          set_summary (join [SP] summaries) ;;
          this' <- get_self ;;
          ret (summary this')
      end
  end.

Definition generate_summary : M str :=
  this <- get_self ;;
  if negb (truthy (pdf_text this)) then ret MSG_LOAD_FIRST
  else
    try_except any_Exception generate_summary_body
      (fun e =>
         st (st_error (lit "Error in summary generation: " ++ str_of_exn e)) ;;
         ret MSG_SUMMARY_ERROR).

(** The comparison of [answer_question] on [(best_answer, highest_score)]. *)
Definition better (best : str * Q) (candidate : str * Q) : str * Q :=
  let '(answer, score) := candidate in
  if Qltb (snd best) score && (0 <? len (strip answer)) then (answer, score)
  else best.

(** The body of the loop of [answer_question]. *)
Definition search_chunk (question : str) (n : Z) (i : nat) (chunk : str)
    (best : str * Q) : M (str * Q) :=
  st (progress_bar_progress (progress_value i n)) ;;
  st (status_text_text
        (lit "Searching chunk " ++ chunk_label i ++ lit "/" ++ str_of_int n
         ++ lit "...")) ;;
  try_except any_Exception
    (Timer_start 30 ;;
     '(best', timeout_flag) <-
       try_finally
         (try_except is_TimeoutException
            (candidate <- call chunk (_answer_question_from_context question chunk) ;;
             ret (better best candidate, false))
            (fun _ => st (search_timeout_warning i) ;; ret (best, true)))
         Timer_cancel ;;
     if (timeout_flag : bool) then ret best' else ret best')
    (fun e => st (search_error i e) ;; ret best).

(** The [return] statements after the loop of [answer_question]. *)
Definition render_answer (best : str * Q) : str :=
  let '(best_answer, highest_score) := best in
  if negb (truthy best_answer)
  then MSG_NO_ANSWER
  else best_answer ++ lit " (Confidence: " ++ format_2f highest_score ++ lit ")".

Definition answer_question_body (question : str) : M str :=
  this <- get_self ;;
  chunks <- _split_text (pdf_text this) 1000 100 ;;
  match chunks with
  | [] => ret MSG_NO_TEXT_ANSWER
  | _ :: _ =>
      st (st_progress 0) ;;
      st st_empty ;;
      best <- for_enumerate 0 chunks
                (search_chunk question (Z.of_nat (List.length chunks))) ([], 0%Q) ;;
      st progress_bar_empty ;;
      st status_text_empty ;;
      ret (render_answer best)
  end.

Definition answer_question (question : str) : M str :=
  this <- get_self ;;
  if negb (truthy (pdf_text this)) then ret MSG_LOAD_FIRST
  else if negb (truthy (strip question)) then ret MSG_VALID_QUESTION
  else
    try_except any_Exception (answer_question_body question)
      (fun e =>
         st (st_error (lit "Error in question answering: " ++ str_of_exn e)) ;;
         ret MSG_ANSWER_ERROR).

End Assistant.

(** ** Vocabulary of the statements *)

(** The length bound of the chunker: a buffer has at most
    [max_length + overlap + 1] characters, unless it was started on a
    sentence of [all] longer than [max_length]; then it has at most
    [overlap + 1] characters more than that sentence. *)
Definition within_bound (max_length overlap : Z) (all : list str) (c : str) : Prop :=
  len c <= max_length + overlap + 1
  \/ exists s, In s all /\ max_length < len s /\ len c <= overlap + 1 + len s.

(** A string with at least one character that is not white space. *)
Definition has_text (s : str) : bool :=
  existsb (fun c => negb (isspace_char c)) s.

(** A non-empty string whose last character is not white space: what
    the tokenizer returns, and what the period fallback builds. *)
Definition ends_in_text (s : str) : bool :=
  match rev s with
  | [] => false
  | c :: _ => negb (isspace_char c)
  end.

(** What a chunk contributes to the summary: nothing when it is shorter
    than 100 characters or when its inference fails. *)
Definition chunk_summaries (_summarize_text : str -> run str) (chunk : str)
    : list str :=
  if len chunk <? 100 then []
  else match yields (_summarize_text chunk) with
       | Ok chunk_summary => [chunk_summary]
       | Raise _ => []
       end.

(** The candidate a chunk contributes to the search: none when its
    inference fails. *)
Definition chunk_candidates (_answer_question_from_context : str -> str -> run (str * Q))
    (question chunk : str) : list (str * Q) :=
  match yields (_answer_question_from_context question chunk) with
  | Ok candidate => [candidate]
  | Raise _ => []
  end.

(** The notification for a chunk whose inference raised [e]. *)
Definition summary_notice (i : nat) (e : exn) : st_call :=
  if is_TimeoutException e then summary_timeout_warning i else summary_error i e.

Definition search_notice (i : nat) (e : exn) : st_call :=
  if is_TimeoutException e then search_timeout_warning i else search_error i e.

(** ** Relations between the world before and after a computation *)

(** [m] keeps the relation [P] between the world it starts in and the
    world it ends in, however it ends. *)
Definition keeps (P : world -> world -> Prop) {A} (m : M A) : Prop :=
  forall w, P w (snd (m w)).

(** The assistant is not written to and no event is lost. *)
Definition extends (w w' : world) : Prop :=
  self w' = self w /\ forall e, In e (events w) -> In e (events w').

(** No watchdog is left armed. *)
Definition disarmed (w w' : world) : Prop := timer w = None -> timer w' = None.

(** The sentences and the chunks of a text as values: what
    [_split_text] returns when the display does not raise. *)
Definition sentences_value (sent_tokenize : str -> Result (list str))
    (text : str) : list str :=
  match sent_tokenize text with
  | Ok sentences => sentences
  | Raise _ => map (fun s => s ++ [DOT]) (filter truthy (split DOT text))
  end.

Definition chunks_value (sent_tokenize : str -> Result (list str))
    (text : str) (max_length overlap : Z) : list str :=
  if negb (truthy text) || isspace text then []
  else chunk_sentences max_length overlap (sentences_value sent_tokenize text).

(** The way through [generate_summary] that ends in
    [self.summary = " ".join(summaries)]: a document is loaded, the
    chunker returns chunks, the loop returns summaries, and their join is
    stored and returned. *)
Definition success_path (sent_tokenize : str -> Result (list str))
    (_summarize_text : str -> run str) (display : st_call -> Result unit)
    (w : world) (result : Result str) (w' : world) : Prop :=
  pdf_text (self w) <> []
  /\ exists chunks w1 summaries w2,
       _split_text sent_tokenize display (pdf_text (self w)) 500 50 w
       = (Ok chunks, w1)
       /\ chunks <> []
       /\ for_enumerate 0 chunks
            (summarize_chunk _summarize_text display (Z.of_nat (List.length chunks)))
            [] (log (Display st_empty) (log (Display (st_progress 0)) w1))
          = (Ok summaries, w2)
       /\ summaries <> []
       /\ generate_summary_body sent_tokenize _summarize_text display w
          = (Ok (join [SP] summaries), w')
       /\ result = Ok (join [SP] summaries)
       /\ summary (self w') = join [SP] summaries.

(** ** Collaborators and documents used as concrete inputs *)

Definition quiet_display : st_call -> Result unit := fun _ => Ok tt.

(** A tokenizer whose model is missing: [_split_text] falls back to the
    period splitting. *)
Definition no_punkt : str -> Result (list str) :=
  fun _ => Raise (OtherException (lit "Resource punkt not found.")).

(** A tokenizer that takes the whole text for one sentence. *)
Definition one_sentence : str -> Result (list str) := fun text => Ok [text].

(** A sentence of 121 characters. *)
Definition long_sentence : str := repeat 97%N 120 ++ [DOT].

Definition world_of (text : str) : world :=
  mk_world (mk_assistant text (lit "old summary")) [] None.

(** A summarizer that needs 61 seconds for every chunk, and then
    returns. *)
Definition slow_summarizer : str -> run str :=
  fun _ => mk_run 61 (Ok (lit "S")).

(** A summarizer that returns "S" for every chunk, within a second. *)
Definition constant_summarizer : str -> run str :=
  fun _ => mk_run 1 (Ok (lit "S")).

Definition failing_summarizer : str -> run str :=
  fun _ => mk_run 1 (Raise (OtherException (lit "CUDA out of memory"))).

(** A question answerer that finds "world" everywhere, with the given
    confidence. *)
Definition constant_answerer (score : Q) : str -> str -> run (str * Q) :=
  fun _ _ => mk_run 1 (Ok (lit "world", score)).

Definition failing_answerer : str -> str -> run (str * Q) :=
  fun _ _ => mk_run 1 (Raise (OtherException (lit "CUDA out of memory"))).

(** ** Further vocabulary for the chunker *)

(** A non-empty string whose first character is not white space. *)
Definition starts_in_text (s : str) : bool :=
  match s with
  | [] => false
  | c :: _ => negb (isspace_char c)
  end.

(** [s] occurs in [c] as a contiguous run of characters ([s in c]). *)
Definition occurs_in (s c : str) : Prop := exists a b, c = a ++ s ++ b.

(** The fallback of [_split_text] when the tokenizer raises:
    [[s + "." for s in text.split(".") if s]]. *)
Definition period_fallback (text : str) : list str :=
  map (fun s => s ++ [DOT]) (filter truthy (split DOT text)).

(** The contexts submitted to an inference function, in the order of the
    calls. *)
Definition inferred (evs : list event) : list str :=
  flat_map (fun e => match e with Infer context => [context] | _ => [] end) evs.

(** ** [read_pdf] *)

Definition bytes := list N.

(** The uploaded file object: what [read()] and [seek(0)] do. *)
Record uploaded_file : Type := mk_file {
  file_read : Result bytes;
  file_seek : Result unit
}.

(** A page of the opened document: what [extract_text()] returns
    ([None] stands for Python's [None]). *)
Record pdf_page : Type := mk_page { extract_text : Result (option str) }.

(** The document [pdfplumber.open] returns: its pages and what closing
    it at the end of the [with] block does. *)
Record pdf_document : Type := mk_pdf {
  pages : list pdf_page;
  pdf_close : Result unit
}.

Definition NL : char := 10%N.

(** [self.pdf_text = v]. *)
Definition set_pdf_text (v : str) : M unit :=
  fun w => (Ok tt, mk_world (mk_assistant v (summary (self w))) (events w) (timer w)).

(** [x or ""] for what [extract_text] returned. *)
Definition or_empty (extracted : option str) : str :=
  match extracted with
  | Some t => if truthy t then t else []
  | None => []
  end.

Section ReadPdf.

(** [pdfplumber.open(io.BytesIO(pdf_bytes))]. *)
Variable pdfplumber_open : bytes -> Result pdf_document.
Variable display : st_call -> Result unit.

(** The body of [for page_num, page in enumerate(pdf.pages)]. *)
Definition read_page (total_pages : Z) (page_num : nat) (page : pdf_page)
    (_ : unit) : M unit :=
  extracted <- lift (extract_text page) ;;
  this <- get_self ;;
  set_pdf_text (pdf_text this ++ or_empty extracted ++ [NL]) ;;
  st display (progress_bar_progress (progress_value page_num total_pages)).

Definition read_pdf (pdf_file : uploaded_file) : M str :=
  try_except any_Exception
    (pdf_bytes <- lift (file_read pdf_file) ;;
     lift (file_seek pdf_file) ;;
     set_pdf_text [] ;;
     pdf <- lift (pdfplumber_open pdf_bytes) ;;
     total_pages <-
       try_finally
         (st display (st_progress 0) ;;
          for_enumerate 0 (pages pdf)
            (read_page (Z.of_nat (List.length (pages pdf)))) tt ;;
          ret (Z.of_nat (List.length (pages pdf))))
         (lift (pdf_close pdf)) ;;
     this <- get_self ;;
     ret (lit "PDF loaded successfully. Contains "
          ++ str_of_int (len (pdf_text this)) ++ lit " characters and "
          ++ str_of_int total_pages ++ lit " pages."))
    (fun e => ret (lit "Error reading PDF: " ++ str_of_exn e)).

End ReadPdf.

(** The line a page adds to the document text, when its extraction
    returns. *)
Definition page_line (page : pdf_page) : str :=
  match extract_text page with
  | Ok extracted => or_empty extracted ++ [NL]
  | Raise _ => []
  end.

Definition page_ok (page : pdf_page) : bool :=
  match extract_text page with Ok _ => true | Raise _ => false end.

(** The stored summary is not written to. *)
Definition same_summary (w w' : world) : Prop :=
  summary (self w') = summary (self w).

(** Documents used as concrete inputs. *)
Definition text_page (t : str) : pdf_page := mk_page (Ok (Some t)).
Definition image_page : pdf_page := mk_page (Ok None).
Definition broken_page : pdf_page :=
  mk_page (Raise (OtherException (lit "bad stream"))).

Definition file_of (content : bytes) : uploaded_file :=
  mk_file (Ok content) (Ok tt).

Definition opens_as (pdf : pdf_document) : bytes -> Result pdf_document :=
  fun _ => Ok pdf.

(** ** [get_download_link] *)

Definition QUOTE : char := 34%N.
Definition PAD : char := 61%N.

(** UTF-8 for one code point; [None] when it is a surrogate
    ([UnicodeEncodeError]). *)
Definition utf8_char (c : char) : option bytes :=
  (if c <? 128 then Some [c]
   else if c <? 2048 then Some [192 + c / 64; 128 + c mod 64]
   else if (55296 <=? c) && (c <=? 57343) then None
   else if c <? 65536 then
     Some [224 + c / 4096; 128 + (c / 64) mod 64; 128 + c mod 64]
   else
     Some [240 + c / 262144; 128 + (c / 4096) mod 64; 128 + (c / 64) mod 64;
           128 + c mod 64])%N.

(** [text.encode()]. *)
Fixpoint encode (text : str) : option bytes :=
  match text with
  | [] => Some []
  | c :: r =>
      match utf8_char c, encode r with
      | Some bs, Some rest => Some (bs ++ rest)
      | _, _ => None
      end
  end.

Definition b64_alphabet : str :=
  lit "ABCDEFGHIJKLMNOPQRSTUVWXYZabcdefghijklmnopqrstuvwxyz0123456789+/".

Definition b64_char (sextet : N) : char := nth (N.to_nat sextet) b64_alphabet PAD.

(** [base64.b64encode]: three bytes give four characters; one or two
    bytes left over are padded with [=]. *)
Fixpoint b64encode (bs : bytes) : list char :=
  (match bs with
   | [] => []
   | [a] => [b64_char (a / 4); b64_char ((a mod 4) * 16); PAD; PAD]
   | [a; b] =>
       [b64_char (a / 4); b64_char ((a mod 4) * 16 + b / 16);
        b64_char ((b mod 16) * 4); PAD]
   | a :: b :: c :: rest =>
       b64_char (a / 4) :: b64_char ((a mod 4) * 16 + b / 16)
       :: b64_char ((b mod 16) * 4 + c / 64) :: b64_char (c mod 64)
       :: b64encode rest
   end)%N.

(** [get_download_link(text, filename, link_text)]; [None] when
    [text.encode()] raises. *)
Definition get_download_link (text filename link_text : str) : option str :=
  match encode text with
  | None => None
  | Some bs =>
      Some (lit "<a href=" ++ [QUOTE] ++ lit "data:file/txt;base64,"
            ++ b64encode bs ++ [QUOTE] ++ lit " download=" ++ [QUOTE]
            ++ filename ++ [QUOTE] ++ lit ">" ++ link_text ++ lit "</a>")
  end.

(** The reader's side of the link: the value of a base64 character and
    the decoding of well-formed base64 (RFC 4648). *)
Definition b64_index (c : char) : N :=
  (if (65 <=? c) && (c <=? 90) then c - 65
   else if (97 <=? c) && (c <=? 122) then c - 71
   else if (48 <=? c) && (c <=? 57) then c + 4
   else if c =? 43 then 62
   else 63)%N.

Fixpoint b64decode (cs : list char) : bytes :=
  (match cs with
   | c0 :: c1 :: c2 :: c3 :: rest =>
       let i0 := b64_index c0 in
       let i1 := b64_index c1 in
       let i2 := b64_index c2 in
       let i3 := b64_index c3 in
       if c2 =? PAD then [i0 * 4 + i1 / 16]
       else if c3 =? PAD then [i0 * 4 + i1 / 16; (i1 mod 16) * 16 + i2 / 4]
       else (i0 * 4 + i1 / 16) :: ((i1 mod 16) * 16 + i2 / 4)
            :: ((i2 mod 4) * 64 + i3) :: b64decode rest
   | _ => []
   end)%N.

Definition is_surrogate (c : char) : bool := ((55296 <=? c) && (c <=? 57343))%N.

(** ** The models of the assistant: [__init__], [_load_models],
    [_summarize_text], [_answer_question_from_context] *)

Module Models.

(** The classes [from_pretrained] is called on. *)
Inductive auto_class : Type :=
| AutoTokenizer
| AutoModelForSeq2SeqLM
| AutoModelForQuestionAnswering.

(** A loaded tokenizer or model, and a sequence of token ids. *)
Definition handle := N.
Definition tokens := list N.

(** The model fields of [PDFAssistant] ([None] is Python's [None]). *)
Record t : Type := mk {
  summarizer_tokenizer : option handle;
  summarizer_model : option handle;
  qa_tokenizer : option handle;
  qa_model : option handle;
  models_loaded : bool
}.

(** Methods that read and write the model fields besides the world: the
    fields keep what was assigned before an exception. *)
Definition MM (A : Type) : Type := t -> world -> Result A * t * world.

Definition ret_mm {A} (a : A) : MM A := fun ms w => (Ok a, ms, w).

Definition bind_mm {A B} (m : MM A) (k : A -> MM B) : MM B :=
  fun ms w => match m ms w with
              | (Ok a, ms', w') => k a ms' w'
              | (Raise e, ms', w') => (Raise e, ms', w')
              end.

Definition try_except_mm {A} (catches : exn -> bool) (body : MM A)
    (handler : exn -> MM A) : MM A :=
  fun ms w => match body ms w with
              | (Ok a, ms', w') => (Ok a, ms', w')
              | (Raise e, ms', w') =>
                  if catches e then handler e ms' w' else (Raise e, ms', w')
              end.

(** A method of the world layer, and the outcome of a collaborator. *)
Definition lift_mm {A} (m : M A) : MM A :=
  fun ms w => let (r, w') := m w in (r, ms, w').

Definition lift_r {A} (r : Result A) : MM A := fun ms w => (r, ms, w).

Definition get_models : MM t := fun ms w => (Ok ms, ms, w).

Definition put_models (ms' : t) : MM unit := fun _ w => (Ok tt, ms', w).

Declare Scope mm_scope.
Delimit Scope mm_scope with mm.
Notation "x <- c1 ;; c2" := (bind_mm c1 (fun x => c2))
  (at level 61, c1 at next level, right associativity) : mm_scope.
Notation "c1 ;; c2" := (bind_mm c1 (fun _ => c2))
  (at level 61, right associativity) : mm_scope.

(** Assignments to the fields. *)
Definition set_summarizer_tokenizer (v : option handle) : MM unit :=
  fun ms w => (Ok tt, mk v (summarizer_model ms) (qa_tokenizer ms) (qa_model ms)
                        (models_loaded ms), w).

Definition set_summarizer_model (v : option handle) : MM unit :=
  fun ms w => (Ok tt, mk (summarizer_tokenizer ms) v (qa_tokenizer ms) (qa_model ms)
                        (models_loaded ms), w).

Definition set_qa_tokenizer (v : option handle) : MM unit :=
  fun ms w => (Ok tt, mk (summarizer_tokenizer ms) (summarizer_model ms) v (qa_model ms)
                        (models_loaded ms), w).

Definition set_qa_model (v : option handle) : MM unit :=
  fun ms w => (Ok tt, mk (summarizer_tokenizer ms) (summarizer_model ms)
                        (qa_tokenizer ms) v (models_loaded ms), w).

Definition set_models_loaded (v : bool) : MM unit :=
  fun ms w => (Ok tt, mk (summarizer_tokenizer ms) (summarizer_model ms)
                        (qa_tokenizer ms) (qa_model ms) v, w).

(** Using a field that may still be [None]: calling it is a
    [TypeError], reading an attribute of it an [AttributeError]. *)
Definition the {A} (field : option handle) (f : handle -> Result A) : Result A :=
  match field with
  | Some h => f h
  | None => Raise (OtherException (lit "'NoneType' object is not callable"))
  end.

Definition the_attribute {A} (field : option handle) (name : str)
    (f : handle -> Result A) : Result A :=
  match field with
  | Some h => f h
  | None => Raise (OtherException (lit "'NoneType' object has no attribute '"
                                   ++ name ++ lit "'"))
  end.

(** [max(a, b)] and [min(a, b)] of Python: the first argument unless the
    second is strictly greater (smaller). *)
Definition py_max (a b : Q) : Q := if Qltb a b then b else a.
Definition py_min (a b : Q) : Q := if Qltb b a then b else a.

(** [torch.max]: the greatest element; [torch.argmax]: the index of its
    first occurrence. Both raise on an empty tensor. *)
Fixpoint maximum (x : Q) (l : list Q) : Q :=
  match l with
  | [] => x
  | y :: r => maximum (if Qltb x y then y else x) r
  end.

Fixpoint argmax_from (best : nat) (x : Q) (i : nat) (l : list Q) : nat :=
  match l with
  | [] => best
  | y :: r => if Qltb x y then argmax_from i y (S i) r
              else argmax_from best x (S i) r
  end.

Definition torch_max (l : list Q) : Result Q :=
  match l with
  | [] => Raise (OtherException (lit "max(): Expected reduction dim to be specified for input.numel() == 0."))
  | x :: r => Ok (maximum x r)
  end.

Definition torch_argmax (l : list Q) : Result nat :=
  match l with
  | [] => Raise (OtherException (lit "argmax(): Expected reduction dim to be specified for input.numel() == 0."))
  | x :: r => Ok (argmax_from 0 x 1 r)
  end.

Local Open Scope mm_scope.

Section Methods.

(** [Class.from_pretrained(name)]. *)
Variable from_pretrained : auto_class -> str -> Result handle.
(** Entering [with st.spinner(message)]. *)
Variable spinner : str -> Result unit.
Variable display : st_call -> Result unit.
(** The summarizer: [tokenizer("summarize: " + text, ...)] gives
    [inputs.input_ids]; [model.generate(...)] gives the sequences;
    [tokenizer.decode(ids, skip_special_tokens=True)]. *)
Variable tokenizer_call : handle -> str -> Result tokens.
Variable generate : handle -> tokens -> Result (list tokens).
Variable decode : handle -> tokens -> Result str.
(** The question answerer: [qa_tokenizer(question, context, ...)] gives
    [inputs.input_ids] (a batch); [qa_model] on these inputs gives the start
    and end logits; [convert_tokens_to_string(convert_ids_to_tokens(ids))]. *)
Variable qa_tokenizer_call : handle -> str -> str -> Result (list tokens).
Variable qa_model_call : handle -> list tokens -> Result (list Q * list Q).
Variable ids_to_string : handle -> tokens -> Result str.
(** Floating-point addition and division, with their rounding. *)
Variables float_add float_div : Q -> Q -> Q.

Definition __init__ : MM unit :=
  lift_r (spinner (lit "Loading AI models...")) ;;
  try_except_mm any_Exception
    (set_summarizer_model None ;;
     set_summarizer_tokenizer None ;;
     set_qa_model None ;;
     set_qa_tokenizer None ;;
     set_models_loaded false)
    (fun e => lift_mm (st display (st_error (lit "Error initializing models: "
                                            ++ str_of_exn e)))) ;;
  lift_mm (set_pdf_text []) ;;
  lift_mm (set_summary []).

Definition _load_models : MM bool :=
  this <- get_models ;;
  failed <-
    (if negb (models_loaded this) then
       try_except_mm any_Exception
         (lift_r (spinner (lit "Loading AI models (first use)...")) ;;
          h <- lift_r (from_pretrained AutoTokenizer (lit "t5-small")) ;;
          set_summarizer_tokenizer (Some h) ;;
          h <- lift_r (from_pretrained AutoModelForSeq2SeqLM (lit "t5-small")) ;;
          set_summarizer_model (Some h) ;;
          h <- lift_r (from_pretrained AutoTokenizer
                         (lit "distilbert-base-cased-distilled-squad")) ;;
          set_qa_tokenizer (Some h) ;;
          h <- lift_r (from_pretrained AutoModelForQuestionAnswering
                         (lit "distilbert-base-cased-distilled-squad")) ;;
          set_qa_model (Some h) ;;
          set_models_loaded true ;;
          ret_mm false)
         (fun e =>
            lift_mm (st display (st_error (lit "Error loading models: "
                                           ++ str_of_exn e))) ;;
            ret_mm true)
     else ret_mm false) ;;
  if (failed : bool) then ret_mm false else ret_mm true.

Definition _summarize_text (text : str) : MM str :=
  loaded <- _load_models ;;
  if negb loaded then ret_mm (lit "Failed to load AI models.")
  else
    this <- get_models ;;
    input_ids <- lift_r (the (summarizer_tokenizer this)
                           (fun h => tokenizer_call h (lit "summarize: " ++ text))) ;;
    summary_ids <- lift_r (the_attribute (summarizer_model this) (lit "generate")
                             (fun h => generate h input_ids)) ;;
    first <- lift_r (match summary_ids with
                     | ids :: _ => Ok ids
                     | [] => Raise (OtherException
                                   (lit "index 0 is out of bounds for dimension 0 with size 0"))
                     end) ;;
    lift_r (the_attribute (summarizer_tokenizer this) (lit "decode")
              (fun h => decode h first)).

Definition _answer_question_from_context (question context : str)
    : MM (str * Q) :=
  loaded <- _load_models ;;
  if negb loaded then ret_mm (lit "Failed to load AI models.", 0%Q)
  else
    this <- get_models ;;
    input_ids <- lift_r (the (qa_tokenizer this)
                           (fun h => qa_tokenizer_call h question context)) ;;
    outputs <- lift_r (the (qa_model this) (fun h => qa_model_call h input_ids)) ;;
    let '(start_logits, end_logits) := outputs in
    answer_start <- lift_r (torch_argmax start_logits) ;;
    end_index <- lift_r (torch_argmax end_logits) ;;
    let answer_end := S end_index in
    row <- lift_r (match input_ids with
                   | ids :: _ => Ok ids
                   | [] => Raise (OtherException
                                   (lit "index 0 is out of bounds for dimension 0 with size 0"))
                   end) ;;
    answer <- lift_r (the_attribute (qa_tokenizer this)
                        (lit "convert_tokens_to_string")
                        (fun h => ids_to_string h
                                    (skipn answer_start (firstn answer_end row)))) ;;
    max_start <- lift_r (torch_max start_logits) ;;
    max_end <- lift_r (torch_max end_logits) ;;
    let confidence := float_div (float_add max_start max_end) 2 in
    let normalized_conf := py_min 1 (py_max 0 (float_div confidence 10)) in
    ret_mm (answer, normalized_conf).

End Methods.

(** All four handles are there. *)
Definition all_present (ms : t) : bool :=
  match summarizer_tokenizer ms, summarizer_model ms, qa_tokenizer ms, qa_model ms with
  | Some _, Some _, Some _, Some _ => true
  | _, _, _, _ => false
  end.

(** What the four calls of [from_pretrained] give, in the order of
    [_load_models], after the spinner. *)
Definition load_outcome (from_pretrained : auto_class -> str -> Result handle)
    (spinner : str -> Result unit) : Result (handle * handle * handle * handle) :=
  match spinner (lit "Loading AI models (first use)...") with
  | Raise e => Raise e
  | Ok _ =>
  match from_pretrained AutoTokenizer (lit "t5-small") with
  | Raise e => Raise e
  | Ok h1 =>
  match from_pretrained AutoModelForSeq2SeqLM (lit "t5-small") with
  | Raise e => Raise e
  | Ok h2 =>
  match from_pretrained AutoTokenizer (lit "distilbert-base-cased-distilled-squad") with
  | Raise e => Raise e
  | Ok h3 =>
  match from_pretrained AutoModelForQuestionAnswering
          (lit "distilbert-base-cased-distilled-squad") with
  | Raise e => Raise e
  | Ok h4 => Ok (h1, h2, h3, h4)
  end end end end end.

(** Collaborators used as concrete inputs. *)
Definition fresh : t := mk None None None None false.

Definition offline : auto_class -> str -> Result handle :=
  fun _ _ => Raise (OtherException (lit "Connection error")).

End Models.

(** ** [main]: asking a question and recording the exchange *)

(** [a == b] on strings. *)
Fixpoint str_eqb (a b : str) : bool :=
  match a, b with
  | [], [] => true
  | x :: a', y :: b' => (x =? y)%N && str_eqb a' b'
  | _, _ => false
  end.

(** The keys of [st.session_state] this part of [main] reads and writes;
    [None] is a key that is not set. *)
Record session : Type := mk_session {
  last_answer : option str;
  last_question : option str;
  conversation : option (list (str * str))
}.

Section QuestionTab.

Variable sent_tokenize : str -> Result (list str).
Variable _answer_question_from_context : str -> str -> run (str * Q).
Variable display : st_call -> Result unit.
(** Entering [with st.spinner("Searching for an answer...")]. *)
Variable spinner : str -> Result unit.
(** The four [st.markdown] calls that show the question and the answer. *)
Variable show_exchange : str -> str -> Result unit.

(** [if ask_button and question: ...]: the answer and the question are
    stored under [last_answer] and [last_question]. *)
Definition main_ask (ask_button : bool) (question : str) (ss : session)
    (w : world) : Result unit * session * world :=
  if ask_button && truthy question then
    match spinner (lit "Searching for an answer...") with
    | Raise e => (Raise e, ss, w)
    | Ok _ =>
        match answer_question sent_tokenize _answer_question_from_context
                display question w with
        | (Raise e, w') => (Raise e, ss, w')
        | (Ok answer, w') =>
            (Ok tt, mk_session (Some answer) (Some question) (conversation ss), w')
        end
    end
  else (Ok tt, ss, w).

(** [if 'last_answer' in st.session_state and 'last_question' in
    st.session_state: ...]: the exchange is shown, and appended to the
    conversation unless the conversation ends with the same question. *)
Definition main_record (ss : session) (w : world)
    : Result unit * session * world :=
  match last_answer ss, last_question ss with
  | Some answer, Some question =>
      match show_exchange question answer with
      | Raise e => (Raise e, ss, w)
      | Ok _ =>
          let history :=
            match conversation ss with None => [] | Some c => c end in
          let history' :=
            if match history with [] => true | _ :: _ => false end
               || negb (str_eqb (fst (last history ([], []))) question)
            then history ++ [(question, answer)]
            else history in
          (Ok tt, mk_session (last_answer ss) (last_question ss) (Some history'), w)
      end
  | _, _ => (Ok tt, ss, w)
  end.

(** The two statements one after the other, as in [main]. *)
Definition main_question_tab (ask_button : bool) (question : str)
    (ss : session) (w : world) : Result unit * session * world :=
  match main_ask ask_button question ss w with
  | (Raise e, ss', w') => (Raise e, ss', w')
  | (Ok _, ss', w') => main_record ss' w'
  end.

End QuestionTab.

(** No two neighbours in the conversation have the same question. *)
Fixpoint no_repeat (history : list (str * str)) : Prop :=
  match history with
  | x :: ((y :: _) as rest) => fst x <> fst y /\ no_repeat rest
  | _ => True
  end.

Definition history_of (ss : session) : list (str * str) :=
  match conversation ss with None => [] | Some c => c end.

(** ** The aggregators' results in the spec's words *)

(** The running best of the search: it starts at [("", 0)], and a
    candidate replaces it when its score is strictly greater and its
    answer has a character that is not white space. *)
Definition spec_better (best candidate : str * Q) : str * Q :=
  match (snd candidate ?= snd best)%Q with
  | Gt => if has_text (fst candidate) then candidate else best
  | _ => best
  end.

Definition spec_best (cands : list (str * Q)) : str * Q :=
  fold_left spec_better cands ([], 0%Q).

(** What is returned for a running best: its answer with the confidence,
    or the "no answer found" message when it has no answer. *)
Definition spec_answer (best : str * Q) : str :=
  if has_text (fst best)
  then fst best ++ lit " (Confidence: " ++ format_2f (snd best) ++ lit ")"
  else lit "I couldn't find an answer to that question in the document.".

(** Summaries joined with a single space: the first one, and every
    further one after a space. *)
Definition spaced (summaries : list str) : str :=
  match summaries with
  | [] => []
  | first :: more => first ++ List.concat (map (fun s => SP :: s) more)
  end.

(** What the display is sent for chunk number [k + 1] when its inference
    raised [e]: a warning for a [TimeoutException], an error with the
    exception's text otherwise. *)
Definition shown_for_summary (k : nat) (e : exn) : st_call :=
  match e with
  | TimeoutException _ =>
      st_warning (lit "Chunk " ++ str_of_int (Z.of_nat k + 1)
                  ++ lit " took too long to summarize. Skipping.")
  | OtherException msg =>
      st_error (lit "Error summarizing chunk " ++ str_of_int (Z.of_nat k + 1)
                ++ lit ": " ++ msg)
  end.

Definition shown_for_search (k : nat) (e : exn) : st_call :=
  match e with
  | TimeoutException _ =>
      st_warning (lit "Chunk " ++ str_of_int (Z.of_nat k + 1)
                  ++ lit " took too long to process. Skipping.")
  | OtherException msg =>
      st_error (lit "Error processing chunk " ++ str_of_int (Z.of_nat k + 1)
                ++ lit ": " ++ msg)
  end.

(** ** Documents of several chunks, and inference by chunk *)

(** A sentence of [n] times the letter [c], and its period. *)
Definition letters (c : char) (n : nat) : str := repeat c n ++ [DOT].

(** The letter before the period a chunk ends with. *)
Definition last_letter (context : str) : char := nth 1 (rev context) 0%N.

(** An inference function that answers a chunk by its last letter. *)
Definition by_last_letter {A} (table : list (char * Result A)) (context : str)
    : run A :=
  mk_run 1 (match find (fun entry => (fst entry =? last_letter context)%N) table with
            | Some (_, outcome) => outcome
            | None => Raise (OtherException (lit "unknown chunk"))
            end).

(** Three sentences of 601 characters: three chunks for both
    aggregators, the second and the third starting with the overlap. *)
Definition abc_document : str :=
  letters 97%N 600 ++ letters 98%N 600 ++ letters 99%N 600.

Definition abc_chunks (overlap : nat) : list str :=
  [letters 97%N 600;
   repeat 97%N (overlap - 1) ++ [DOT; SP] ++ letters 98%N 600;
   repeat 98%N (overlap - 1) ++ [DOT; SP] ++ letters 99%N 600].



(** Inference that raises at the first chunk, reports a timeout at the
    second and returns at the third. *)
Definition two_failures_summarizer : str -> run str :=
  by_last_letter
    [(97%N, Raise (OtherException (lit "CUDA out of memory")));
     (98%N, Raise (TimeoutException (lit "Operation timed out")));
     (99%N, Ok (lit "S3"))].

Definition two_failures_answerer : str -> str -> run (str * Q) :=
  fun _ => by_last_letter
    [(97%N, Raise (OtherException (lit "CUDA out of memory")));
     (98%N, Raise (TimeoutException (lit "Operation timed out")));
     (99%N, Ok (lit "third", 9 # 10))].

(** * Properties *)

(** ** Strings *)

Lemma len_nonneg (s : str) : 0 <= len s.
Proof. unfold len; lia. Qed.

Lemma len_app (a b : str) : len (a ++ b) = len a + len b.
Proof. unfold len; rewrite length_app; lia. Qed.

Lemma len_cons (c : char) (s : str) : len (c :: s) = len s + 1.
Proof. unfold len; simpl List.length; lia. Qed.

Lemma lstrip_length (s : str) : (List.length (lstrip s) <= List.length s)%nat.
Proof.
  induction s as [|c r IH]; simpl; [lia|].
  destruct (isspace_char c); simpl; lia.
Qed.

Lemma strip_len (s : str) : len (strip s) <= len s.
Proof.
  unfold strip, rstrip, len.
  rewrite length_rev.
  pose proof (lstrip_length (rev (lstrip s))) as H1.
  rewrite length_rev in H1.
  pose proof (lstrip_length s); lia.
Qed.

Lemma lstrip_idem (s : str) : lstrip (lstrip s) = lstrip s.
Proof.
  induction s as [|c r IH]; simpl; [reflexivity|].
  destruct (isspace_char c) eqn:E; [assumption|].
  simpl; rewrite E; reflexivity.
Qed.

Lemma lstrip_no_text (s : str) : has_text s = false -> lstrip s = [].
Proof.
  induction s as [|c r IH]; simpl; [reflexivity|].
  destruct (isspace_char c); simpl; [exact IH|discriminate].
Qed.

Lemma lstrip_app_text (s x : str) :
  has_text s = true -> lstrip (s ++ x) = lstrip s ++ x.
Proof.
  induction s as [|c r IH]; simpl; [discriminate|].
  destruct (isspace_char c); simpl; [exact IH|reflexivity].
Qed.

Lemma ends_in_text_inv (s : str) :
  ends_in_text s = true ->
  exists p c, s = p ++ [c] /\ isspace_char c = false.
Proof.
  unfold ends_in_text; intros H.
  destruct (rev s) as [|c q] eqn:E; [discriminate|].
  exists (rev q), c; split.
  - rewrite <- (rev_involutive s), E; reflexivity.
  - destruct (isspace_char c); [discriminate|reflexivity].
Qed.

Lemma ends_in_text_snoc (p : str) (c : char) :
  isspace_char c = false -> ends_in_text (p ++ [c]) = true.
Proof.
  intros H; unfold ends_in_text.
  rewrite rev_app_distr; simpl; rewrite H; reflexivity.
Qed.

Lemma ends_in_text_app (x s : str) :
  ends_in_text s = true -> ends_in_text (x ++ s) = true.
Proof.
  intros H; destruct (ends_in_text_inv s H) as (p & c & -> & Hc).
  rewrite app_assoc; apply ends_in_text_snoc, Hc.
Qed.

Lemma ends_in_text_has_text (s : str) :
  ends_in_text s = true -> has_text s = true.
Proof.
  intros H; destruct (ends_in_text_inv s H) as (p & c & -> & Hc).
  unfold has_text; rewrite existsb_app; simpl.
  rewrite Hc; simpl; apply orb_true_r.
Qed.

Lemma ends_in_text_lstrip (s : str) :
  ends_in_text s = true -> ends_in_text (lstrip s) = true.
Proof.
  induction s as [|c r IH]; simpl; intros H; [assumption|].
  destruct (isspace_char c) eqn:E; [|assumption].
  apply IH.
  destruct (ends_in_text_inv _ H) as (p & d & Hp & Hd).
  destruct p as [|a p]; simpl in Hp; inversion Hp; subst.
  - congruence.
  - apply ends_in_text_snoc, Hd.
Qed.

Lemma rstrip_ends_in_text (s : str) : ends_in_text s = true -> rstrip s = s.
Proof.
  intros H; destruct (ends_in_text_inv s H) as (p & c & -> & Hc).
  unfold rstrip; rewrite rev_app_distr; simpl; rewrite Hc.
  change (c :: rev p) with ([c] ++ rev p).
  rewrite rev_app_distr, rev_involutive; reflexivity.
Qed.

Lemma strip_ends_in_text (s : str) : ends_in_text s = true -> strip s = lstrip s.
Proof.
  intros H; unfold strip; apply rstrip_ends_in_text, ends_in_text_lstrip, H.
Qed.

Lemma truthy_ends_in_text (s : str) : ends_in_text s = true -> truthy s = true.
Proof.
  destruct s; [discriminate|reflexivity].
Qed.

Lemma last_chars_len (n : Z) (s : str) : 0 <= n -> len (last_chars n s) <= n.
Proof.
  intros Hn; unfold last_chars, slice_from, len.
  rewrite length_skipn; unfold len; lia.
Qed.

Lemma last_chars_cons (n : Z) (c : char) (s : str) :
  last_chars n (c :: s) = if len s + 1 - n <=? 0 then c :: s else last_chars n s.
Proof.
  unfold last_chars, slice_from; rewrite len_cons.
  destruct (Z.leb_spec (len s + 1 - n) 0) as [H|H].
  - replace (Z.to_nat (Z.max 0 (len s + 1 - n))) with 0%nat by lia; reflexivity.
  - replace (Z.to_nat (Z.max 0 (len s + 1 - n)))
      with (S (Z.to_nat (Z.max 0 (len s - n)))) by lia.
    reflexivity.
Qed.

Lemma last_chars_short (n : Z) (s : str) : len s <= n -> last_chars n s = s.
Proof.
  intros H; unfold last_chars, slice_from.
  replace (Z.to_nat (Z.max 0 (len s - n))) with 0%nat by lia; reflexivity.
Qed.

(** Trimming on the left commutes with taking the tail of a buffer. *)
Lemma lstrip_last_chars (n : Z) (s : str) :
  lstrip (last_chars n (lstrip s)) = lstrip (last_chars n s).
Proof.
  induction s as [|c r IH]; [reflexivity|].
  simpl lstrip at 2.
  destruct (isspace_char c) eqn:E; [|reflexivity].
  rewrite last_chars_cons.
  destruct (Z.leb_spec (len r + 1 - n) 0) as [H|H].
  - simpl; rewrite E.
    rewrite last_chars_short; [apply lstrip_idem|].
    pose proof (lstrip_length r); unfold len in *; lia.
  - exact IH.
Qed.

Lemma startswith_app (p x : str) : startswith p (p ++ x) = true.
Proof.
  induction p as [|a p IH]; simpl; [reflexivity|].
  rewrite N.eqb_refl; exact IH.
Qed.

(** ** The chunker *)

Section ChunkerFacts.

Variables max_length overlap : Z.

Local Abbreviation emit' := (emit max_length overlap).
Local Abbreviation step := (split_step max_length overlap).

(** The accumulating loop of the source and its front-to-back reading
    produce the same chunks. *)
Lemma fold_split_step_emit (sentences : list str) :
  forall chunks current,
    split_finish (fold_left step sentences (chunks, current))
    = chunks ++ emit' current sentences.
Proof.
  induction sentences as [|s rest IH]; intros chunks current.
  - simpl. destruct (truthy (strip current)); [reflexivity|].
    rewrite app_nil_r; reflexivity.
  - change (fold_left step (s :: rest) (chunks, current))
      with (fold_left step rest (step (chunks, current) s)).
    cbv beta iota delta [split_step]. simpl emit.
    destruct (len current + len s <=? max_length).
    + apply IH.
    + rewrite IH. unfold last_chars.
      destruct (truthy (strip current)); [|reflexivity].
      rewrite <- app_assoc; reflexivity.
Qed.

Lemma chunk_sentences_emit (sentences : list str) :
  chunk_sentences max_length overlap sentences = emit' [] sentences.
Proof. unfold chunk_sentences; rewrite fold_split_step_emit; reflexivity. Qed.

Lemma within_bound_strip (all : list str) (c : str) :
  within_bound max_length overlap all c -> within_bound max_length overlap all (strip c).
Proof.
  pose proof (strip_len c) as L.
  intros [H|(s & Hin & Hs & H)]; [left; lia|right; exists s; repeat split; auto; lia].
Qed.

Lemma emit_len_bound (all sentences : list str) :
  0 <= overlap ->
  (forall s, In s sentences -> In s all) ->
  forall current,
    within_bound max_length overlap all current ->
    forall c, In c (emit' current sentences) -> within_bound max_length overlap all c.
Proof.
  intros Ho.
  induction sentences as [|s rest IH]; intros Hs current Hcur c Hc.
  - simpl in Hc. destruct (truthy (strip current)); [|contradiction].
    destruct Hc as [<-|[]]. apply within_bound_strip, Hcur.
  - simpl in Hc.
    assert (Hrest : forall s', In s' rest -> In s' all)
      by (intros s' Hin; apply Hs; right; exact Hin).
    destruct (Z.leb_spec (len current + len s) max_length) as [Hfit|Hover].
    + apply (IH Hrest (current ++ SP :: s)); [|exact Hc].
      left. rewrite len_app, len_cons. pose proof (len_nonneg s); lia.
    + apply in_app_or in Hc; destruct Hc as [Hc|Hc].
      * destruct (truthy (strip current)); [|contradiction].
        destruct Hc as [<-|[]]. apply within_bound_strip, Hcur.
      * apply (IH Hrest (last_chars overlap current ++ SP :: s)); [|exact Hc].
        pose proof (last_chars_len overlap current Ho) as L.
        destruct (Z.le_gt_cases (len s) max_length) as [Hle|Hgt].
        -- left. rewrite len_app, len_cons. lia.
        -- right. exists s. split; [apply Hs; left; reflexivity|].
           split; [lia|]. rewrite len_app, len_cons. lia.
Qed.

(** The first chunk that comes out of a buffer ending in text starts with
    that buffer, trimmed on the left. *)
Lemma emit_head (sentences : list str) :
  (forall s, In s sentences -> ends_in_text s = true) ->
  forall current,
    ends_in_text current = true ->
    exists x rest, emit' current sentences = (lstrip current ++ x) :: rest.
Proof.
  induction sentences as [|s more IH]; intros Hs current Hcur.
  - simpl. rewrite (strip_ends_in_text _ Hcur).
    rewrite (truthy_ends_in_text _ (ends_in_text_lstrip _ Hcur)).
    exists [], []; rewrite app_nil_r; reflexivity.
  - simpl.
    assert (Hmore : forall s', In s' more -> ends_in_text s' = true)
      by (intros s' Hin; apply Hs; right; exact Hin).
    assert (Hlast : ends_in_text s = true) by (apply Hs; left; reflexivity).
    destruct (len current + len s <=? max_length).
    + destruct (IH Hmore (current ++ SP :: s)) as (x & rest & E).
      { apply ends_in_text_app. change (SP :: s) with ([SP] ++ s).
        apply ends_in_text_app, Hlast. }
      rewrite E, lstrip_app_text by (apply ends_in_text_has_text, Hcur).
      exists (SP :: s ++ x), rest. rewrite <- app_assoc; reflexivity.
    + rewrite (strip_ends_in_text _ Hcur).
      rewrite (truthy_ends_in_text _ (ends_in_text_lstrip _ Hcur)).
      exists [], (emit' (last_chars overlap current ++ SP :: s) more).
      rewrite app_nil_r; reflexivity.
Qed.

(** Adjacent chunks: what the next chunk starts with. *)
Lemma emit_adjacent (sentences : list str) :
  (forall s, In s sentences -> ends_in_text s = true) ->
  forall current,
    current = [] \/ ends_in_text current = true ->
    forall i c c',
      nth_error (emit' current sentences) i = Some c ->
      nth_error (emit' current sentences) (S i) = Some c' ->
      startswith (lstrip (last_chars overlap c)) c' = true.
Proof.
  induction sentences as [|s more IH]; intros Hs current Hcur i c c' Hi HSi.
  - simpl in HSi. destruct (truthy (strip current)); simpl in HSi.
    + destruct i; discriminate.
    + discriminate.
  - assert (Hmore : forall s', In s' more -> ends_in_text s' = true)
      by (intros s' Hin; apply Hs; right; exact Hin).
    assert (Hlast : ends_in_text s = true) by (apply Hs; left; reflexivity).
    assert (Hseed : forall b, ends_in_text (b ++ SP :: s) = true).
    { intros b. apply ends_in_text_app. change (SP :: s) with ([SP] ++ s).
      apply ends_in_text_app, Hlast. }
    simpl in Hi, HSi.
    destruct (len current + len s <=? max_length).
    + apply (IH Hmore (current ++ SP :: s) (or_intror (Hseed _)) i);
        [exact Hi|exact HSi].
    + destruct Hcur as [->|Hcur].
      * simpl in Hi, HSi.
        apply (IH Hmore (last_chars overlap [] ++ SP :: s)
                 (or_intror (Hseed _)) i); [exact Hi|exact HSi].
      * rewrite (strip_ends_in_text _ Hcur) in Hi, HSi.
        rewrite (truthy_ends_in_text _ (ends_in_text_lstrip _ Hcur)) in Hi, HSi.
        simpl in Hi, HSi.
        destruct i as [|i].
        -- injection Hi as <-.
           destruct (emit_head more Hmore _ (Hseed (last_chars overlap current)))
             as (x & rest & E).
           rewrite E in HSi; injection HSi as <-.
           rewrite lstrip_last_chars.
           destruct (has_text (last_chars overlap current)) eqn:T.
           ++ rewrite (lstrip_app_text _ _ T), <- app_assoc.
              apply startswith_app.
           ++ rewrite (lstrip_no_text _ T); reflexivity.
        -- apply (IH Hmore (last_chars overlap current ++ SP :: s)
                    (or_intror (Hseed _)) i); [exact Hi|exact HSi].
Qed.

End ChunkerFacts.

(** Three short sentences fit into one chunk. *)
Example chunk_sentences_ABC :
  chunk_sentences 1000 100 [lit "A."; lit "B."; lit "C."] = [lit "A. B. C."].
Proof. reflexivity. Qed.




(** In particular the bound holds for every chunk when no sentence is
    longer than [max_length]. *)
Corollary chunk_length_bound_short_sentences
    (max_length overlap : Z) (sentences : list str) :
  0 < max_length ->
  0 <= overlap ->
  (forall s, In s sentences -> len s <= max_length) ->
  forall c, In c (chunk_sentences max_length overlap sentences) ->
            len c <= max_length + overlap + 1.
Proof.
  intros Hm Ho Hs c Hc. rewrite chunk_sentences_emit in Hc.
  assert (Hstart : within_bound max_length overlap sentences [])
    by (left; change (len []) with 0; lia).
  destruct (emit_len_bound max_length overlap sentences sentences Ho
              (fun s H => H) [] Hstart c Hc) as [H|(s & Hin & Hlt & _)].
  - exact H.
  - specialize (Hs s Hin); lia.
Qed.

(** C3, as stated, fails: with [max_length = 10] and [overlap = 3] the
    sentences "aaaa bb" and "cccccc" give the chunks "aaaa bb" and
    "bb cccccc"; the trailing 3 characters of the first are " bb", which
    the second does not start with, since every chunk is trimmed. *)
Lemma overlap_prefix_counterexample :
  let chunks := chunk_sentences 10 3 [lit "aaaa bb"; lit "cccccc"] in
  0 < 3 /\ (2 <= List.length chunks)%nat /\
  nth_error chunks 0 = Some (lit "aaaa bb") /\
  nth_error chunks 1 = Some (lit "bb cccccc") /\
  last_chars 3 (lit "aaaa bb") = lit " bb" /\
  startswith (last_chars 3 (lit "aaaa bb")) (lit "bb cccccc") = false.
Proof.
  cbv zeta. split; [lia|]. split; [vm_compute; lia|].
  repeat split; reflexivity.
Qed.

(** The condition on the sentences in the amended C3 is needed: a
    sentence that ends in a space moves the tail of the buffer away from
    the tail of the trimmed chunk. *)
Remark overlap_prefix_needs_text_at_the_end :
  chunk_sentences 10 2 [lit "ab "; lit "cccccccc"] = [lit "ab"; lit "b  cccccccc"]
  /\ startswith (lstrip (last_chars 2 (lit "ab"))) (lit "b  cccccccc") = false.
Proof. split; reflexivity. Qed.

(** C3 (amended): for sentences that are non-empty and do not end in
    white space, and for every adjacent pair of chunks [i] and [i+1], the
    trailing at-most-[overlap] characters of chunk [i], with leading
    white space removed, are a prefix of chunk [i+1]. The seeding step is
    as the claim describes it: the new buffer is the trailing [overlap]
    characters of the closed one (all of it when shorter), a space, and
    the current sentence. *)
Theorem overlap_prefix (max_length overlap : Z) (sentences : list str) :
  (forall s, In s sentences -> ends_in_text s = true) ->
  (forall chunks current sentence,
      max_length < len current + len sentence ->
      snd (split_step max_length overlap (chunks, current) sentence)
      = last_chars overlap current ++ SP :: sentence) /\
  (forall i c c',
      nth_error (chunk_sentences max_length overlap sentences) i = Some c ->
      nth_error (chunk_sentences max_length overlap sentences) (S i) = Some c' ->
      startswith (lstrip (last_chars overlap c)) c' = true).
Proof.
  intros Hs; split.
  - intros chunks current sentence Hlen. unfold split_step.
    destruct (Z.leb_spec (len current + len sentence) max_length); [lia|].
    reflexivity.
  - intros i c c'. rewrite chunk_sentences_emit.
    apply emit_adjacent; [exact Hs|left; reflexivity].
Qed.

Lemma overlap_prefix_witness :
  startswith (lstrip (last_chars 3 (lit "aaaa bb"))) (lit "bb cccccc") = true.
Proof.
  refine (proj2 (overlap_prefix 10 3 [lit "aaaa bb"; lit "cccccc"] _)
            0%nat (lit "aaaa bb") (lit "bb cccccc") _ _).
  - intros s [<-|[<-|[]]]; reflexivity.
  - reflexivity.
  - reflexivity.
Defined.

(** ** The effect layer *)

Lemma on_timer_thread_timeout (w : world) :
  on_timer_thread timeout_handler w
  = log (ThreadDied (TimeoutException (lit "Operation timed out"))) w.
Proof. reflexivity. Qed.

Lemma self_elapse (d : Q) (w : world) : self (elapse d w) = self w.
Proof.
  unfold elapse. destruct (timer w) as [s|]; [|reflexivity].
  destruct (Qle_bool s d); reflexivity.
Qed.

Lemma events_elapse (d : Q) (w : world) (e : event) :
  In e (events w) -> In e (events (elapse d w)).
Proof.
  unfold elapse. destruct (timer w) as [s|]; [|trivial].
  destruct (Qle_bool s d); [|trivial].
  intros H; simpl; apply in_or_app; left; exact H.
Qed.

(** A relation between the world before and after, kept by every step:
    the combinators of the monad keep it too. *)
Section Frame.

Variable P : world -> world -> Prop.
Hypothesis P_refl : forall w, P w w.
Hypothesis P_trans : forall w1 w2 w3, P w1 w2 -> P w2 w3 -> P w1 w3.

Lemma keeps_ret {A} (a : A) : keeps P (ret a).
Proof. intros w; apply P_refl. Qed.

Lemma keeps_raise {A} (e : exn) : keeps P (@raise A e).
Proof. intros w; apply P_refl. Qed.

Lemma keeps_lift {A} (r : Result A) : keeps P (lift r).
Proof. intros w; apply P_refl. Qed.

Lemma keeps_get_self : keeps P get_self.
Proof. intros w; apply P_refl. Qed.

Lemma keeps_bind {A B} (m : M A) (k : A -> M B) :
  keeps P m -> (forall a, keeps P (k a)) -> keeps P (bind m k).
Proof.
  intros Hm Hk w. unfold bind. specialize (Hm w).
  destruct (m w) as [[a|e] w1]; simpl in *; [|exact Hm].
  apply (P_trans _ w1); [exact Hm|apply Hk].
Qed.

Lemma keeps_try_except {A} (catches : exn -> bool) (body : M A)
    (handler : exn -> M A) :
  keeps P body -> (forall e, keeps P (handler e)) ->
  keeps P (try_except catches body handler).
Proof.
  intros Hb Hh w. unfold try_except. specialize (Hb w).
  destruct (body w) as [[a|e] w1]; simpl in *; [exact Hb|].
  destruct (catches e); simpl; [|exact Hb].
  apply (P_trans _ w1); [exact Hb|apply Hh].
Qed.

Lemma keeps_try_finally {A} (body : M A) (cleanup : M unit) :
  keeps P body -> keeps P cleanup -> keeps P (try_finally body cleanup).
Proof.
  intros Hb Hc w. unfold try_finally. specialize (Hb w).
  destruct (body w) as [r w1]; simpl in *. specialize (Hc w1).
  destruct (cleanup w1) as [[u|e] w2]; simpl in *;
    apply (P_trans _ w1); assumption.
Qed.

Lemma keeps_for_enumerate {A V} (body : nat -> A -> V -> M V) (l : list A) :
  (forall i x s, keeps P (body i x s)) ->
  forall i s, keeps P (for_enumerate i l body s).
Proof.
  intros Hb. induction l as [|x r IH]; intros i s; simpl.
  - apply keeps_ret.
  - apply keeps_bind; [apply Hb|intros s'; apply IH].
Qed.

Lemma keeps_if {A} (b : bool) (m1 m2 : M A) :
  keeps P m1 -> keeps P m2 -> keeps P (if b then m1 else m2).
Proof. destruct b; trivial. Qed.

End Frame.

Lemma extends_refl (w : world) : extends w w.
Proof. split; [reflexivity|trivial]. Qed.

Lemma extends_trans (w1 w2 w3 : world) :
  extends w1 w2 -> extends w2 w3 -> extends w1 w3.
Proof.
  intros [S1 E1] [S2 E2]; split; [congruence|].
  intros e H; apply E2, E1, H.
Qed.

Lemma extends_log (e : event) (w : world) : extends w (log e w).
Proof.
  split; [reflexivity|]. intros e' H; simpl; apply in_or_app; left; exact H.
Qed.

Lemma extends_st (display : st_call -> Result unit) (c : st_call) :
  keeps extends (st display c).
Proof. intros w; apply extends_log. Qed.

Lemma extends_Timer_start (seconds : Q) : keeps extends (Timer_start seconds).
Proof.
  intros w; split; [reflexivity|].
  intros e H; simpl; apply in_or_app; left; exact H.
Qed.

Lemma extends_Timer_cancel : keeps extends Timer_cancel.
Proof.
  intros w; split; [reflexivity|].
  intros e H; simpl; apply in_or_app; left; exact H.
Qed.

Lemma extends_call {A} (context : str) (r : run A) : keeps extends (call context r).
Proof.
  intros w; unfold call; simpl; split.
  - rewrite self_elapse; reflexivity.
  - intros e H; apply events_elapse; simpl; apply in_or_app; left; exact H.
Qed.

Lemma disarmed_refl (w : world) : disarmed w w.
Proof. intros H; exact H. Qed.

Lemma disarmed_trans (w1 w2 w3 : world) :
  disarmed w1 w2 -> disarmed w2 w3 -> disarmed w1 w3.
Proof. unfold disarmed; auto. Qed.

Lemma disarmed_st (display : st_call -> Result unit) (c : st_call) :
  keeps disarmed (st display c).
Proof. intros w H; exact H. Qed.

(** [timer.cancel()] in the [finally] clause runs on every way out of
    the guarded statements. *)
Lemma try_finally_cancel {A} (body : M A) (w : world) :
  timer (snd (try_finally body Timer_cancel w)) = None.
Proof.
  unfold try_finally. destruct (body w) as [r w1]; reflexivity.
Qed.

Lemma disarmed_guarded {A B} (seconds : Q) (body : M A) (k : A -> M B) :
  (forall a, keeps disarmed (k a)) ->
  keeps disarmed (Timer_start seconds ;; r <- try_finally body Timer_cancel ;; k r).
Proof.
  intros Hk w _. unfold bind at 1. simpl.
  set (w1 := set_timer (Some seconds) (log (TimerStart seconds) w)).
  unfold bind. pose proof (try_finally_cancel body w1) as Hc.
  destruct (try_finally body Timer_cancel w1) as [[a|e] w2]; simpl in *.
  - apply Hk, Hc.
  - exact Hc.
Qed.

Ltac frame_step :=
  match goal with
  | |- forall w1 w2 w3 : world, _ => first [exact extends_trans | exact disarmed_trans]
  | |- forall _, _ => intro
  | |- extends ?w ?w => apply extends_refl
  | |- disarmed ?w ?w => apply disarmed_refl
  | |- keeps disarmed (bind (Timer_start _) _) => apply disarmed_guarded
  | |- keeps _ (ret _) => apply keeps_ret
  | |- keeps _ (raise _) => apply keeps_raise
  | |- keeps _ (lift _) => apply keeps_lift
  | |- keeps _ get_self => apply keeps_get_self
  | |- keeps _ (bind _ _) => apply keeps_bind
  | |- keeps _ (try_except _ _ _) => apply keeps_try_except
  | |- keeps _ (try_finally _ _) => apply keeps_try_finally
  | |- keeps _ (for_enumerate _ _ _ _) => apply keeps_for_enumerate
  | |- keeps extends (st _ _) => apply extends_st
  | |- keeps disarmed (st _ _) => apply disarmed_st
  | |- keeps extends (Timer_start _) => apply extends_Timer_start
  | |- keeps extends Timer_cancel => apply extends_Timer_cancel
  | |- keeps extends (call _ _) => apply extends_call
  | |- keeps _ (if _ then _ else _) => apply keeps_if
  | |- keeps _ (match ?x with _ => _ end) => destruct x
  end.

Ltac frame := repeat frame_step.

(** ** The methods, for arbitrary collaborators *)

Section AnyCollaborators.

Variable sent_tokenize : str -> Result (list str).
Variable _summarize_text : str -> run str.
Variable _answer_question_from_context : str -> str -> run (str * Q).
Variable display : st_call -> Result unit.

Lemma split_text_extends (text : str) (max_length overlap : Z) :
  keeps extends (_split_text sent_tokenize display text max_length overlap).
Proof. unfold _split_text, sentences_of. frame. Qed.

Lemma split_text_disarmed (text : str) (max_length overlap : Z) :
  keeps disarmed (_split_text sent_tokenize display text max_length overlap).
Proof. unfold _split_text, sentences_of. frame. Qed.

Lemma summarize_chunk_extends n i chunk summaries :
  keeps extends (summarize_chunk _summarize_text display n i chunk summaries).
Proof. unfold summarize_chunk. frame. Qed.

Lemma summarize_chunk_disarmed n i chunk summaries :
  keeps disarmed (summarize_chunk _summarize_text display n i chunk summaries).
Proof. unfold summarize_chunk. frame. Qed.

Lemma search_chunk_extends question n i chunk best :
  keeps extends
    (search_chunk _answer_question_from_context display question n i chunk best).
Proof. unfold search_chunk. frame. Qed.

Lemma search_chunk_disarmed question n i chunk best :
  keeps disarmed
    (search_chunk _answer_question_from_context display question n i chunk best).
Proof. unfold search_chunk. frame. Qed.

Lemma answer_question_extends question :
  keeps extends
    (answer_question sent_tokenize _answer_question_from_context display question).
Proof.
  unfold answer_question, answer_question_body. frame.
  - apply split_text_extends.
  - apply search_chunk_extends.
Qed.

End AnyCollaborators.

Lemma in_log_new (e : event) (w : world) : In e (events (log e w)).
Proof. simpl; apply in_or_app; right; left; reflexivity. Qed.

Lemma in_log_old (e e' : event) (w : world) :
  In e (events w) -> In e (events (log e' w)).
Proof. intros H; simpl; apply in_or_app; left; exact H. Qed.

Lemma in_set_timer (e : event) (t : option Q) (w : world) :
  In e (events w) -> In e (events (set_timer t w)).
Proof. trivial. Qed.

Ltac in_events :=
  repeat match goal with
         | |- In ?e (events (log ?e _)) => apply in_log_new
         | |- In _ (events (log _ _)) => apply in_log_old
         | |- In _ (events (set_timer _ _)) => apply in_set_timer
         | |- In _ (events (elapse _ _)) => apply events_elapse
         end.

(** ** The methods over a display that does not raise *)

Section QuietDisplay.

Variable sent_tokenize : str -> Result (list str).
Variable _summarize_text : str -> run str.
Variable _answer_question_from_context : str -> str -> run (str * Q).
Variable display : st_call -> Result unit.
Hypothesis display_ok : forall c, display c = Ok tt.

Lemma st_ok (c : st_call) (w : world) :
  st display c w = (Ok tt, log (Display c) w).
Proof. unfold st; rewrite display_ok; reflexivity. Qed.

(** The guarded statements of both loops: the timer is started, the
    inference runs, the timer is cancelled; an exception of the inference
    is notified and the local variables keep their value. *)
Lemma guarded_run {A V} (seconds : Q) (context : str) (work : run A)
    (update : A -> V) (v : V) (warning : st_call) (error : exn -> st_call)
    (w : world) :
  exists w',
    try_except any_Exception
      (Timer_start seconds ;;
       '(v', timeout_flag) <-
         try_finally
           (try_except is_TimeoutException
              (x <- call context work ;; ret (update x, false))
              (fun _ => st display warning ;; ret (v, true)))
           Timer_cancel ;;
       if (timeout_flag : bool) then ret v' else ret v')
      (fun e => st display (error e) ;; ret v) w
    = (Ok (match yields work with Ok x => update x | Raise _ => v end), w')
    /\ In (Infer context) (events w')
    /\ forall e, yields work = Raise e ->
         In (Display (if is_TimeoutException e then warning else error e))
            (events w').
Proof.
  unfold try_except, try_finally, bind, call, Timer_start, Timer_cancel, ret.
  destruct (yields work) as [x|[m|m]]; cbn [is_TimeoutException any_Exception];
    rewrite ?st_ok; eexists; (split; [reflexivity|]); split;
    try (intros e [= <-]; cbn [is_TimeoutException]); try discriminate;
    in_events.
Qed.

Lemma split_text_run (text : str) (max_length overlap : Z) (w : world) :
  fst (_split_text sent_tokenize display text max_length overlap w)
  = Ok (chunks_value sent_tokenize text max_length overlap).
Proof.
  unfold _split_text, chunks_value, sentences_value, sentences_of.
  destruct (negb (truthy text) || isspace text); [reflexivity|].
  unfold bind, try_except, lift.
  destruct (sent_tokenize text) as [l|e]; cbn [any_Exception];
    rewrite ?st_ok; reflexivity.
Qed.

Lemma summarize_chunk_run n i chunk summaries w :
  exists w',
    summarize_chunk _summarize_text display n i chunk summaries w
    = (Ok (summaries ++ chunk_summaries _summarize_text chunk), w')
    /\ (100 <= len chunk ->
        In (Infer chunk) (events w')
        /\ forall e, yields (_summarize_text chunk) = Raise e ->
             In (Display (summary_notice i e)) (events w')).
Proof.
  unfold summarize_chunk, chunk_summaries, summary_notice.
  unfold bind at 1; rewrite st_ok. unfold bind at 1; rewrite st_ok.
  destruct (Z.ltb_spec (len chunk) 100) as [Hshort|Hlong].
  - eexists; split; [rewrite app_nil_r; reflexivity|lia].
  - match goal with |- context [try_except _ _ _ ?w0] =>
      destruct (guarded_run 60 chunk (_summarize_text chunk)
                  (fun x => summaries ++ [x]) summaries
                  (summary_timeout_warning i) (summary_error i) w0)
        as (w' & E & Hin & Hnote)
    end.
    exists w'; split; [|intros _; split; assumption].
    rewrite E. destruct (yields (_summarize_text chunk));
      [reflexivity|rewrite app_nil_r; reflexivity].
Qed.

Lemma search_chunk_run question n i chunk best w :
  exists w',
    search_chunk _answer_question_from_context display question n i chunk best w
    = (Ok (fold_left better
             (chunk_candidates _answer_question_from_context question chunk) best),
       w')
    /\ In (Infer chunk) (events w')
    /\ forall e, yields (_answer_question_from_context question chunk) = Raise e ->
         In (Display (search_notice i e)) (events w').
Proof.
  unfold search_chunk, chunk_candidates, search_notice.
  unfold bind at 1; rewrite st_ok. unfold bind at 1; rewrite st_ok.
  match goal with |- context [try_except _ _ _ ?w0] =>
    destruct (guarded_run 30 chunk (_answer_question_from_context question chunk)
                (fun x => better best x) best
                (search_timeout_warning i) (search_error i) w0)
      as (w' & E & Hin & Hnote)
  end.
  exists w'; split; [|split; assumption].
  rewrite E. destruct (yields (_answer_question_from_context question chunk));
    reflexivity.
Qed.

(** The loop of [generate_summary]: every chunk is visited, whatever
    happened at the chunks before it. *)
Lemma summarize_loop_run n (chunks : list str) :
  forall i summaries w,
  exists w',
    for_enumerate i chunks (summarize_chunk _summarize_text display n) summaries w
    = (Ok (summaries ++ flat_map (chunk_summaries _summarize_text) chunks), w')
    /\ extends w w'
    /\ forall k chunk,
         nth_error chunks k = Some chunk -> 100 <= len chunk ->
         In (Infer chunk) (events w')
         /\ forall e, yields (_summarize_text chunk) = Raise e ->
              In (Display (summary_notice (i + k) e)) (events w').
Proof.
  induction chunks as [|c rest IH]; intros i summaries w.
  - exists w; split; [simpl; rewrite app_nil_r; reflexivity|].
    split; [apply extends_refl|]. intros [|k] chunk H; discriminate.
  - destruct (summarize_chunk_run n i c summaries w) as (w1 & E1 & H1).
    destruct (IH (S i) (summaries ++ chunk_summaries _summarize_text c) w1)
      as (w2 & E2 & X2 & H2).
    pose proof (summarize_chunk_extends _summarize_text display n i c summaries w) as X1.
    rewrite E1 in X1; simpl in X1.
    exists w2; split; [|split].
    + simpl for_enumerate. unfold bind. rewrite E1, E2.
      simpl flat_map. rewrite app_assoc; reflexivity.
    + apply (extends_trans _ w1); assumption.
    + intros [|k] chunk Hk Hlong.
      * injection Hk as ->. destruct (H1 Hlong) as [Hin Hnote].
        rewrite Nat.add_0_r. split; [apply X2, Hin|].
        intros e He; apply X2, Hnote, He.
      * replace (i + S k)%nat with (S i + k)%nat by lia.
        apply H2; assumption.
Qed.

(** The loop of [answer_question]. *)
Lemma search_loop_run question n (chunks : list str) :
  forall i best w,
  exists w',
    for_enumerate i chunks
      (search_chunk _answer_question_from_context display question n) best w
    = (Ok (fold_left better
             (flat_map (chunk_candidates _answer_question_from_context question) chunks)
             best), w')
    /\ extends w w'
    /\ forall k chunk,
         nth_error chunks k = Some chunk ->
         In (Infer chunk) (events w')
         /\ forall e,
              yields (_answer_question_from_context question chunk) = Raise e ->
              In (Display (search_notice (i + k) e)) (events w').
Proof.
  induction chunks as [|c rest IH]; intros i best w.
  - exists w; split; [reflexivity|].
    split; [apply extends_refl|]. intros [|k] chunk H; discriminate.
  - destruct (search_chunk_run question n i c best w) as (w1 & E1 & Hin & Hnote).
    destruct (IH (S i) (fold_left better
                (chunk_candidates _answer_question_from_context question c) best) w1)
      as (w2 & E2 & X2 & H2).
    pose proof (search_chunk_extends _answer_question_from_context display
                  question n i c best w) as X1.
    rewrite E1 in X1; simpl in X1.
    exists w2; split; [|split].
    + simpl for_enumerate. unfold bind. rewrite E1, E2.
      simpl flat_map. rewrite fold_left_app; reflexivity.
    + apply (extends_trans _ w1); assumption.
    + intros [|k] chunk Hk.
      * injection Hk as ->. rewrite Nat.add_0_r. split; [apply X2, Hin|].
        intros e He; apply X2, Hnote, He.
      * replace (i + S k)%nat with (S i + k)%nat by lia.
        apply H2; assumption.
Qed.

End QuietDisplay.

(** ** The running best of [answer_question] *)

Lemma truthy_true (s : str) : s <> [] -> truthy s = true.
Proof. destruct s; [congruence|reflexivity]. Qed.

Lemma truthy_false (s : str) : truthy s = false -> s = [].
Proof. destruct s; [reflexivity|discriminate]. Qed.

Lemma positive_len (s : str) : (0 <? len s) = true <-> s <> [].
Proof.
  destruct s as [|c r]; split; intros H.
  - discriminate H.
  - congruence.
  - discriminate.
  - apply Z.ltb_lt; rewrite len_cons; pose proof (len_nonneg r); lia.
Qed.

Lemma Qltb_true (a b : Q) : Qltb a b = true <-> (a < b)%Q.
Proof.
  unfold Qltb; rewrite negb_true_iff; split; intros H.
  - apply Qnot_le_lt; intros L; apply Qle_bool_iff in L; congruence.
  - destruct (Qle_bool b a) eqn:E; [|reflexivity].
    apply Qle_bool_iff in E; exfalso; exact (Qlt_not_le _ _ H E).
Qed.

Lemma strip_nil_of_nil (s : str) : strip s <> [] -> s <> [].
Proof. intros H ->; apply H; reflexivity. Qed.

Lemma better_take (best : str * Q) (a : str) (s : Q) :
  (snd best < s)%Q -> strip a <> [] -> better best (a, s) = (a, s).
Proof.
  intros Hs Ha; unfold better.
  rewrite (proj2 (Qltb_true _ _) Hs), (proj2 (positive_len _) Ha); reflexivity.
Qed.

Lemma better_cases (best : str * Q) (a : str) (s : Q) :
  (better best (a, s) = (a, s) /\ (snd best < s)%Q /\ strip a <> [])
  \/ (better best (a, s) = best /\ (strip a <> [] -> (s <= snd best)%Q)).
Proof.
  unfold better.
  destruct (Qltb (snd best) s) eqn:E1; simpl.
  - destruct (0 <? len (strip a)) eqn:E2.
    + left; split; [reflexivity|]; split;
        [apply Qltb_true, E1|apply positive_len, E2].
    + right; split; [reflexivity|].
      intros Ha; apply positive_len in Ha; congruence.
  - right; split; [reflexivity|]. intros _.
    apply Qnot_lt_le; intros L; apply Qltb_true in L; congruence.
Qed.

(** Either the best is never replaced, and then no candidate with a
    non-blank answer scores above it; or the result is a candidate with a
    non-blank answer that scores above the start, at least as high as
    every such candidate and strictly higher than the earlier ones. *)
Lemma fold_better_spec (cands : list (str * Q)) :
  forall best,
    (fold_left better cands best = best
     /\ forall a s, In (a, s) cands -> strip a <> [] -> (s <= snd best)%Q)
    \/ (exists i a s,
          nth_error cands i = Some (a, s)
          /\ fold_left better cands best = (a, s)
          /\ strip a <> [] /\ (snd best < s)%Q
          /\ forall j a' s',
               nth_error cands j = Some (a', s') -> strip a' <> [] ->
               (s' <= s)%Q /\ ((j < i)%nat -> (s' < s)%Q)).
Proof.
  induction cands as [|[a0 s0] rest IH]; intros best.
  - left; split; [reflexivity|intros a s []].
  - change (fold_left better ((a0, s0) :: rest) best)
      with (fold_left better rest (better best (a0, s0))).
    destruct (better_cases best a0 s0) as [(E & Hlt & Ha)|(E & Hle)]; rewrite E.
    + destruct (IH (a0, s0)) as [(F & Hall)|(i & a & s & Hi & F & Hna & Hs & Hall)].
      * right; exists 0%nat, a0, s0; rewrite F.
        split; [reflexivity|]. split; [reflexivity|].
        split; [exact Ha|]. split; [exact Hlt|].
        intros j a' s' Hj Hna'. split; [|lia].
        destruct j as [|j]; simpl in Hj.
        -- injection Hj as <- <-; apply Qle_refl.
        -- apply (Hall a' s'); [eapply nth_error_In; eassumption|assumption].
      * right; exists (S i), a, s; simpl in Hs.
        split; [exact Hi|]. split; [exact F|]. split; [exact Hna|].
        split; [apply (Qlt_trans _ s0); assumption|].
        intros j a' s' Hj Hna'.
        destruct j as [|j]; simpl in Hj.
        -- injection Hj as <- <-. split; [apply Qlt_le_weak, Hs|intros _; exact Hs].
        -- destruct (Hall j a' s' Hj Hna') as [Hle Hlt'].
           split; [exact Hle|intros L; apply Hlt'; lia].
    + destruct (IH best) as [(F & Hall)|(i & a & s & Hi & F & Hna & Hs & Hall)].
      * left; split; [exact F|].
        intros a s [[= <- <-]|Hin] Hna; [apply Hle, Hna|].
        apply (Hall a s); assumption.
      * right; exists (S i), a, s.
        split; [exact Hi|]. split; [exact F|]. split; [exact Hna|].
        split; [exact Hs|].
        intros j a' s' Hj Hna'.
        destruct j as [|j]; simpl in Hj.
        -- injection Hj as <- <-.
           assert (L : (s0 < s)%Q)
             by (apply (Qle_lt_trans _ (snd best)); [apply Hle, Hna'|exact Hs]).
           split; [apply Qlt_le_weak, L|intros _; exact L].
        -- destruct (Hall j a' s' Hj Hna') as [Hle' Hlt'].
           split; [exact Hle'|intros L; apply Hlt'; lia].
Qed.

(** The candidate that wins, when there is one. *)
Lemma fold_better_selects (cands : list (str * Q)) (i : nat) (a : str) (s : Q) :
  nth_error cands i = Some (a, s) ->
  strip a <> [] -> (0 < s)%Q ->
  (forall j a' s',
      nth_error cands j = Some (a', s') -> strip a' <> [] ->
      (s' <= s)%Q /\ ((j < i)%nat -> (s' < s)%Q)) ->
  fold_left better cands ([], 0%Q) = (a, s).
Proof.
  intros Hi Ha Hs Hmax.
  destruct (fold_better_spec cands ([], 0%Q))
    as [(F & Hall)|(i' & a' & s' & Hi' & F & Ha' & Hs' & Hmax')].
  - exfalso. apply (Qlt_not_le _ _ Hs).
    apply (Hall a s); [eapply nth_error_In; eassumption|assumption].
  - rewrite F.
    destruct (Nat.lt_trichotomy i i') as [L|[->|L]].
    + exfalso. destruct (Hmax' i a s Hi Ha) as [_ Hlt].
      destruct (Hmax i' a' s' Hi' Ha') as [Hle _].
      exact (Qlt_not_le _ _ (Hlt L) Hle).
    + congruence.
    + exfalso. destruct (Hmax i' a' s' Hi' Ha') as [_ Hlt].
      destruct (Hmax' i a s Hi Ha) as [Hle _].
      exact (Qlt_not_le _ _ (Hlt L) Hle).
Qed.

(** No candidate with a non-blank answer and a positive score: the best
    stays as it started. *)
Lemma fold_better_none (cands : list (str * Q)) :
  (forall a s, In (a, s) cands -> strip a <> [] -> ~ (0 < s)%Q) ->
  fold_left better cands ([], 0%Q) = ([], 0%Q).
Proof.
  intros Hnone.
  destruct (fold_better_spec cands ([], 0%Q))
    as [(F & _)|(i & a & s & Hi & _ & Ha & Hs & _)]; [exact F|].
  exfalso. apply (Hnone a s); [eapply nth_error_In; eassumption|assumption|exact Hs].
Qed.

Lemma render_answer_nonblank (a : str) (s : Q) :
  strip a <> [] ->
  render_answer (a, s) = a ++ lit " (Confidence: " ++ format_2f s ++ lit ")".
Proof.
  intros Ha; unfold render_answer.
  rewrite (truthy_true a (strip_nil_of_nil a Ha)); reflexivity.
Qed.

(** ** The two aggregators as a whole *)

Section Aggregators.

Variable sent_tokenize : str -> Result (list str).
Variable _summarize_text : str -> run str.
Variable _answer_question_from_context : str -> str -> run (str * Q).
Variable display : st_call -> Result unit.
Hypothesis display_ok : forall c, display c = Ok tt.

Lemma split_text_pair (text : str) (max_length overlap : Z) (w : world) :
  exists w',
    _split_text sent_tokenize display text max_length overlap w
    = (Ok (chunks_value sent_tokenize text max_length overlap), w')
    /\ extends w w'.
Proof.
  pose proof (split_text_run sent_tokenize display display_ok text max_length overlap w) as R.
  pose proof (split_text_extends sent_tokenize display text max_length overlap w) as X.
  destruct (_split_text sent_tokenize display text max_length overlap w) as [r w'].
  simpl in R, X; subst r. exists w'; split; [reflexivity|exact X].
Qed.

Lemma generate_summary_run (w : world) :
  pdf_text (self w) <> [] ->
  exists w',
    generate_summary sent_tokenize _summarize_text display w
    = (Ok (match chunks_value sent_tokenize (pdf_text (self w)) 500 50 with
           | [] => MSG_NO_TEXT_SUMMARY
           | chunks =>
               match flat_map (chunk_summaries _summarize_text) chunks with
               | [] => MSG_NO_SUMMARY
               | summaries => join [SP] summaries
               end
           end), w')
    /\ pdf_text (self w') = pdf_text (self w)
    /\ summary (self w')
       = match flat_map (chunk_summaries _summarize_text)
                 (chunks_value sent_tokenize (pdf_text (self w)) 500 50) with
         | [] => summary (self w)
         | summaries => join [SP] summaries
         end
    /\ forall k chunk,
         nth_error (chunks_value sent_tokenize (pdf_text (self w)) 500 50) k
         = Some chunk ->
         100 <= len chunk ->
         In (Infer chunk) (events w')
         /\ forall e, yields (_summarize_text chunk) = Raise e ->
              In (Display (summary_notice k e)) (events w').
Proof.
  intros Hdoc.
  unfold generate_summary. unfold bind at 1, get_self at 1.
  rewrite (truthy_true _ Hdoc). cbn [negb].
  unfold try_except, generate_summary_body. unfold bind at 1, get_self at 1.
  unfold bind at 1.
  destruct (split_text_pair (pdf_text (self w)) 500 50 w) as (w1 & E1 & [S1 X1]).
  rewrite E1.
  destruct (chunks_value sent_tokenize (pdf_text (self w)) 500 50) as [|c rest] eqn:EC.
  - exists w1. cbn [ret flat_map]. rewrite S1.
    split; [reflexivity|]. split; [reflexivity|]. split; [reflexivity|].
    intros [|k] chunk H; discriminate.
  - unfold bind at 1; rewrite (st_ok display display_ok).
    unfold bind at 1; rewrite (st_ok display display_ok).
    unfold bind at 1.
    match goal with |- context [for_enumerate 0 ?l ?b ?s ?w0] =>
      destruct (summarize_loop_run _summarize_text display display_ok
                  (Z.of_nat (List.length l)) l 0 s w0) as (w2 & E2 & [S2 X2] & H2)
    end.
    rewrite E2. cbn [app].
    destruct (flat_map (chunk_summaries _summarize_text) (c :: rest)) as [|s0 more].
    + exists w2. cbn [ret]. rewrite S2; cbn [self log]. rewrite S1.
      split; [reflexivity|]. split; [reflexivity|]. split; [reflexivity|].
      exact H2.
    + unfold bind, set_summary, get_self, ret. cbn [self summary pdf_text events].
      eexists; split; [reflexivity|]. cbn [self summary pdf_text events].
      rewrite S2; cbn [self log]; rewrite S1.
      split; [reflexivity|]. split; [reflexivity|]. exact H2.
Qed.

Lemma answer_question_run (question : str) (w : world) :
  pdf_text (self w) <> [] -> strip question <> [] ->
  exists w',
    answer_question sent_tokenize _answer_question_from_context display question w
    = (Ok (match chunks_value sent_tokenize (pdf_text (self w)) 1000 100 with
           | [] => MSG_NO_TEXT_ANSWER
           | chunks =>
               render_answer
                 (fold_left better
                    (flat_map (chunk_candidates _answer_question_from_context question)
                       chunks) ([], 0%Q))
           end), w')
    /\ self w' = self w
    /\ forall k chunk,
         nth_error (chunks_value sent_tokenize (pdf_text (self w)) 1000 100) k
         = Some chunk ->
         In (Infer chunk) (events w')
         /\ forall e,
              yields (_answer_question_from_context question chunk) = Raise e ->
              In (Display (search_notice k e)) (events w').
Proof.
  intros Hdoc Hq.
  unfold answer_question. unfold bind at 1, get_self at 1.
  rewrite (truthy_true _ Hdoc), (truthy_true _ Hq). cbn [negb].
  unfold try_except, answer_question_body. unfold bind at 1, get_self at 1.
  unfold bind at 1.
  destruct (split_text_pair (pdf_text (self w)) 1000 100 w) as (w1 & E1 & [S1 X1]).
  rewrite E1.
  destruct (chunks_value sent_tokenize (pdf_text (self w)) 1000 100) as [|c rest] eqn:EC.
  - exists w1. cbn [ret]. split; [reflexivity|]. split; [exact S1|].
    intros [|k] chunk H; discriminate.
  - unfold bind at 1; rewrite (st_ok display display_ok).
    unfold bind at 1; rewrite (st_ok display display_ok).
    unfold bind at 1.
    match goal with |- context [for_enumerate 0 ?l ?b ?s ?w0] =>
      destruct (search_loop_run _answer_question_from_context display display_ok
                  question (Z.of_nat (List.length l)) l 0 s w0)
        as (w2 & E2 & [S2 X2] & H2)
    end.
    rewrite E2.
    unfold bind at 1; rewrite (st_ok display display_ok).
    unfold bind at 1; rewrite (st_ok display display_ok).
    eexists; split; [reflexivity|].
    split; [cbn [self log]; rewrite S2; cbn [self log]; exact S1|].
    intros k chunk Hk. destruct (H2 k chunk Hk) as [Hin Hnote].
    split; [in_events; exact Hin|].
    intros e He. in_events. apply Hnote, He.
Qed.

End Aggregators.

(** ** Blank strings *)

Lemma lstrip_all_space (s : str) : forallb isspace_char s = true -> lstrip s = [].
Proof.
  induction s as [|c r IH]; simpl; [reflexivity|].
  destruct (isspace_char c); simpl; [exact IH|discriminate].
Qed.

Lemma strip_blank (s : str) : s = [] \/ isspace s = true -> strip s = [].
Proof.
  intros [->|H]; [reflexivity|].
  unfold isspace in H; apply andb_true_iff in H; destruct H as [_ H].
  unfold strip; rewrite (lstrip_all_space s H); reflexivity.
Qed.

Lemma isspace_truthy (s : str) : isspace s = true -> s <> [].
Proof. destruct s; [discriminate|congruence]. Qed.

Lemma split_text_blank (sent_tokenize : str -> Result (list str))
    (display : st_call -> Result unit) (text : str) (max_length overlap : Z)
    (w : world) :
  text = [] \/ isspace text = true ->
  _split_text sent_tokenize display text max_length overlap w = (Ok [], w).
Proof.
  intros H; unfold _split_text.
  replace (negb (truthy text) || isspace text) with true; [reflexivity|].
  destruct H as [-> | ->]; [reflexivity|rewrite orb_true_r; reflexivity].
Qed.

(** ** Short-circuits of the aggregators (C7, C8) *)

Section Guards.

Variable sent_tokenize : str -> Result (list str).
Variable _answer_question_from_context : str -> str -> run (str * Q).
Variable display : st_call -> Result unit.

Lemma answer_question_no_document (question : str) (w : world) :
  pdf_text (self w) = [] ->
  answer_question sent_tokenize _answer_question_from_context display question w
  = (Ok MSG_LOAD_FIRST, w).
Proof.
  intros H. unfold answer_question, bind, get_self. rewrite H. reflexivity.
Qed.

Lemma answer_question_blank_question (question : str) (w : world) :
  pdf_text (self w) <> [] -> strip question = [] ->
  answer_question sent_tokenize _answer_question_from_context display question w
  = (Ok MSG_VALID_QUESTION, w).
Proof.
  intros Hdoc Hq. unfold answer_question, bind, get_self.
  rewrite (truthy_true _ Hdoc), Hq. reflexivity.
Qed.

End Guards.

(** C7: [answer_question] checks the document and then the question
    before any chunking: with no document loaded it returns
    "Please load a PDF first."; with a document and an empty or
    whitespace-only question it returns "Please enter a valid question.".
    In both cases the result is a returned value, and the world is the
    one before the call: nothing is displayed, no chunk is submitted to
    the inference function, no timer is started. *)
Theorem answer_question_preconditions
    (sent_tokenize : str -> Result (list str))
    (_answer_question_from_context : str -> str -> run (str * Q))
    (display : st_call -> Result unit) (question : str) (w : world) :
  (pdf_text (self w) = [] ->
   answer_question sent_tokenize _answer_question_from_context display question w
   = (Ok (lit "Please load a PDF first."), w))
  /\ (pdf_text (self w) <> [] ->
      question = [] \/ isspace question = true ->
      answer_question sent_tokenize _answer_question_from_context display question w
      = (Ok (lit "Please enter a valid question."), w)).
Proof.
  split.
  - apply answer_question_no_document.
  - intros Hdoc Hq.
    apply answer_question_blank_question; [exact Hdoc|apply strip_blank, Hq].
Qed.

Lemma answer_question_preconditions_witness :
  answer_question no_punkt failing_answerer quiet_display (lit "what?")
    (world_of [])
  = (Ok (lit "Please load a PDF first."), world_of [])
  /\ answer_question no_punkt failing_answerer quiet_display (lit "   ")
       (world_of (lit "Hello world. Bye."))
     = (Ok (lit "Please enter a valid question."),
        world_of (lit "Hello world. Bye.")).
Proof.
  split.
  - apply (answer_question_preconditions no_punkt failing_answerer quiet_display
             (lit "what?") (world_of [])). reflexivity.
  - apply (answer_question_preconditions no_punkt failing_answerer quiet_display
             (lit "   ") (world_of (lit "Hello world. Bye."))).
    + discriminate.
    + right; reflexivity.
Defined.

(** C8, as stated, fails for a whitespace-only document: the text of one
    blank character is a loaded document for both aggregators, which go
    on to the chunker and return their "Unable to extract meaningful
    text" message, not the "Please load a PDF first." one. *)
Lemma blank_document_counterexample :
  isspace (lit " ") = true
  /\ fst (generate_summary no_punkt constant_summarizer quiet_display (world_of (lit " ")))
     = Ok (lit "Unable to extract meaningful text from the PDF.")
  /\ fst (generate_summary no_punkt constant_summarizer quiet_display (world_of (lit " ")))
     <> Ok (lit "Please load a PDF first.")
  /\ fst (answer_question no_punkt (constant_answerer 1) quiet_display (lit "what?")
            (world_of (lit " ")))
     <> Ok (lit "Please load a PDF first.").
Proof.
  split; [reflexivity|]. split; [reflexivity|].
  split; vm_compute; discriminate.
Qed.

(** C8 (amended): for every empty or whitespace-only text the chunker
    returns the empty chunk sequence, and both aggregators short-circuit
    without processing a chunk: on the empty text with
    "Please load a PDF first.", on a whitespace-only text with their
    "Unable to extract meaningful text from the PDF" message
    ([answer_question]: when the question is not blank). *)
Theorem blank_document_short_circuits
    (sent_tokenize : str -> Result (list str))
    (_summarize_text : str -> run str)
    (_answer_question_from_context : str -> str -> run (str * Q))
    (display : st_call -> Result unit) (w : world) :
  (forall text max_length overlap,
      text = [] \/ isspace text = true ->
      _split_text sent_tokenize display text max_length overlap w = (Ok [], w))
  /\ (pdf_text (self w) = [] ->
      generate_summary sent_tokenize _summarize_text display w
      = (Ok (lit "Please load a PDF first."), w)
      /\ forall question,
           answer_question sent_tokenize _answer_question_from_context display
             question w
           = (Ok (lit "Please load a PDF first."), w))
  /\ (isspace (pdf_text (self w)) = true ->
      generate_summary sent_tokenize _summarize_text display w
      = (Ok (lit "Unable to extract meaningful text from the PDF."), w)
      /\ forall question,
           strip question <> [] ->
           answer_question sent_tokenize _answer_question_from_context display
             question w
           = (Ok (lit "Unable to extract meaningful text from the PDF to answer questions."),
              w)).
Proof.
  split; [|split].
  - intros text max_length overlap H; apply split_text_blank, H.
  - intros H; split.
    + unfold generate_summary, bind, get_self. rewrite H. reflexivity.
    + intros question. apply answer_question_no_document, H.
  - intros H. pose proof (isspace_truthy _ H) as Hdoc. split.
    + unfold generate_summary. unfold bind at 1, get_self at 1.
      rewrite (truthy_true _ Hdoc). cbn [negb].
      unfold try_except, generate_summary_body. unfold bind at 1, get_self at 1.
      unfold bind at 1. rewrite split_text_blank by (right; exact H).
      reflexivity.
    + intros question Hq.
      unfold answer_question. unfold bind at 1, get_self at 1.
      rewrite (truthy_true _ Hdoc), (truthy_true _ Hq). cbn [negb].
      unfold try_except, answer_question_body. unfold bind at 1, get_self at 1.
      unfold bind at 1. rewrite split_text_blank by (right; exact H).
      reflexivity.
Qed.

Lemma blank_document_short_circuits_witness :
  _split_text no_punkt quiet_display (lit "  ") 1000 100 (world_of (lit " "))
  = (Ok [], world_of (lit " "))
  /\ generate_summary no_punkt constant_summarizer quiet_display (world_of (lit " "))
     = (Ok (lit "Unable to extract meaningful text from the PDF."),
        world_of (lit " ")).
Proof.
  pose proof (blank_document_short_circuits no_punkt constant_summarizer
                (constant_answerer 1) quiet_display (world_of (lit " ")))
    as (Hsplit & _ & Hblank).
  split.
  - apply Hsplit. right; reflexivity.
  - apply Hblank. reflexivity.
Defined.

(** ** The aggregators over a loaded document (C1, C4, C6, C9) *)

Lemma split_text_chunks (sent_tokenize : str -> Result (list str))
    (display : st_call -> Result unit) (text : str) (max_length overlap : Z)
    (w : world) (chunks : list str) :
  (forall c, display c = Ok tt) ->
  fst (_split_text sent_tokenize display text max_length overlap w) = Ok chunks ->
  chunks_value sent_tokenize text max_length overlap = chunks.
Proof.
  intros Hd H. rewrite (split_text_run sent_tokenize display Hd) in H.
  injection H as H; exact H.
Qed.


Lemma join_spaced (summaries : list str) : join [SP] summaries = spaced summaries.
Proof.
  destruct summaries as [|first more]; [reflexivity|].
  revert first. induction more as [|s rest IH]; intros first.
  - simpl. rewrite app_nil_r. reflexivity.
  - change (join [SP] (first :: s :: rest)) with (first ++ [SP] ++ join [SP] (s :: rest)).
    rewrite IH. reflexivity.
Qed.



(** ** Non-blank answers and the running best in the spec's words *)

Lemma has_text_lstrip (s : str) : has_text (lstrip s) = has_text s.
Proof.
  induction s as [|c r IH]; [reflexivity|].
  simpl lstrip. destruct (isspace_char c) eqn:C; [|reflexivity].
  rewrite IH. unfold has_text; simpl. rewrite C. reflexivity.
Qed.

Lemma lstrip_nil_iff (s : str) : lstrip s = [] <-> has_text s = false.
Proof.
  induction s as [|c r IH]; [split; reflexivity|].
  unfold has_text; simpl. destruct (isspace_char c); simpl.
  - exact IH.
  - split; discriminate.
Qed.

Lemma has_text_rev (s : str) : has_text (rev s) = has_text s.
Proof.
  unfold has_text. induction s as [|c r IH]; [reflexivity|].
  simpl. rewrite existsb_app, IH. simpl. rewrite orb_false_r. apply orb_comm.
Qed.

(** An answer is non-empty after trimming exactly when it has a
    character that is not white space. *)
Lemma strip_nil_iff (s : str) : strip s = [] <-> has_text s = false.
Proof.
  unfold strip, rstrip. split.
  - intros H. apply (f_equal (@rev char)) in H. rewrite rev_involutive in H.
    simpl in H. apply lstrip_nil_iff in H.
    rewrite has_text_rev, has_text_lstrip in H. exact H.
  - intros H. rewrite <- has_text_lstrip, <- has_text_rev in H.
    apply lstrip_nil_iff in H. rewrite H. reflexivity.
Qed.

Lemma has_text_iff_strip (s : str) : has_text s = true <-> strip s <> [].
Proof.
  pose proof (strip_nil_iff s) as H. destruct (has_text s); split; intros E.
  - intros N. apply H in N. discriminate.
  - reflexivity.
  - discriminate.
  - elim E. apply H. reflexivity.
Qed.

Lemma positive_len_has_text (s : str) : (0 <? len (strip s)) = has_text s.
Proof.
  destruct (has_text s) eqn:E.
  - apply positive_len, has_text_iff_strip, E.
  - apply strip_nil_iff in E. rewrite E. reflexivity.
Qed.

Lemma Qltb_compare (a b : Q) :
  Qltb a b = match (b ?= a)%Q with Gt => true | _ => false end.
Proof.
  destruct (Qltb a b) eqn:E.
  - apply Qltb_true in E. apply Qgt_alt in E. rewrite E. reflexivity.
  - destruct (b ?= a)%Q eqn:C; try reflexivity.
    apply Qgt_alt in C. apply Qltb_true in C. congruence.
Qed.

(** The comparison of the code is the spec's. *)
Lemma better_spec_better (best candidate : str * Q) :
  better best candidate = spec_better best candidate.
Proof.
  destruct candidate as [a s]. unfold better, spec_better. cbn [fst snd].
  rewrite Qltb_compare, positive_len_has_text.
  destruct (s ?= snd best)%Q; reflexivity.
Qed.

Lemma fold_better_spec_best (cands : list (str * Q)) :
  fold_left better cands ([], 0%Q) = spec_best cands.
Proof.
  unfold spec_best. generalize (@nil char, 0%Q).
  induction cands as [|c rest IH]; intros best; [reflexivity|].
  simpl. rewrite better_spec_better. apply IH.
Qed.

Lemma render_answer_spec (cands : list (str * Q)) :
  render_answer (fold_left better cands ([], 0%Q)) = spec_answer (spec_best cands).
Proof.
  rewrite <- fold_better_spec_best.
  destruct (fold_better_spec cands ([], 0%Q))
    as [(F & _)|(i & a & s & _ & F & Ha & _)]; rewrite F.
  - reflexivity.
  - rewrite (render_answer_nonblank a s Ha). unfold spec_answer. cbn [fst snd].
    rewrite (proj2 (has_text_iff_strip a) Ha). reflexivity.
Qed.

(** C1: over a loaded document that yields at least one chunk and for a
    question that is not blank, [answer_question] returns what the spec
    gives for the running best of the candidates in chunk order: the best
    starts at [("", 0)] and is replaced by a candidate only when its
    score is strictly greater and its answer has a character that is not
    white space. So the answer returned is that of the candidate with a
    non-blank answer and a positive score that no such candidate beats
    and no earlier one equals; with confidences 0.3, 0.9, 0.5 and
    non-blank answers it is the one tied to 0.9; with only blank answers
    it is the "no answer found" message, whatever the scores. *)
Theorem answer_question_returns_best
    (sent_tokenize : str -> Result (list str))
    (_answer_question_from_context : str -> str -> run (str * Q))
    (display : st_call -> Result unit)
    (question : str) (w : world) (chunks : list str) :
  (forall c, display c = Ok tt) ->
  pdf_text (self w) <> [] ->
  has_text question = true ->
  fst (_split_text sent_tokenize display (pdf_text (self w)) 1000 100 w) = Ok chunks ->
  chunks <> [] ->
  let cands :=
    flat_map (chunk_candidates _answer_question_from_context question) chunks in
  let result :=
    fst (answer_question sent_tokenize _answer_question_from_context display
           question w) in
  result = Ok (spec_answer (spec_best cands))
  /\ (forall i a s,
         nth_error cands i = Some (a, s) ->
         has_text a = true -> (0 < s)%Q ->
         (forall j a' s',
             nth_error cands j = Some (a', s') -> has_text a' = true ->
             (s' <= s)%Q /\ ((j < i)%nat -> (s' < s)%Q)) ->
         result = Ok (a ++ lit " (Confidence: " ++ format_2f s ++ lit ")"))
  /\ (forall a1 a2 a3,
         cands = [(a1, 3 # 10); (a2, 9 # 10); (a3, 5 # 10)] ->
         has_text a1 = true -> has_text a2 = true -> has_text a3 = true ->
         result = Ok (a2 ++ lit " (Confidence: 0.90)"))
  /\ ((forall a s, In (a, s) cands -> has_text a = false) ->
      result = Ok (lit "I couldn't find an answer to that question in the document.")).
Proof.
  intros Hd Hdoc Hq Hsplit Hne cands result.
  apply has_text_iff_strip in Hq.
  assert (R : result = Ok (render_answer (fold_left better cands ([], 0%Q)))).
  { unfold result.
    destruct (answer_question_run sent_tokenize _answer_question_from_context
                display Hd question w Hdoc Hq) as (w' & E & _).
    rewrite E, (split_text_chunks _ _ _ _ _ _ _ Hd Hsplit).
    destruct chunks; [congruence|reflexivity]. }
  assert (Sel : forall i a s,
             nth_error cands i = Some (a, s) ->
             has_text a = true -> (0 < s)%Q ->
             (forall j a' s',
                 nth_error cands j = Some (a', s') -> has_text a' = true ->
                 (s' <= s)%Q /\ ((j < i)%nat -> (s' < s)%Q)) ->
             result = Ok (a ++ lit " (Confidence: " ++ format_2f s ++ lit ")")).
  { intros i a s Hi Ha Hs Hmax. apply has_text_iff_strip in Ha.
    rewrite R, (fold_better_selects cands i a s Hi Ha Hs).
    - rewrite (render_answer_nonblank a s Ha); reflexivity.
    - intros j a' s' Hj Ha'. apply (Hmax j a' s' Hj).
      apply has_text_iff_strip, Ha'. }
  split; [rewrite R, render_answer_spec; reflexivity|].
  split; [exact Sel|]. split.
  - intros a1 a2 a3 Hc H1 H2 H3.
    rewrite (Sel 1%nat a2 (9 # 10)%Q); [reflexivity| |exact H2|reflexivity|].
    + rewrite Hc; reflexivity.
    + rewrite Hc. intros [|[|[|j]]] a' s' Hj _; simpl in Hj.
      * injection Hj as <- <-. split; [discriminate|intros _; reflexivity].
      * injection Hj as <- <-. split; [apply Qle_refl|lia].
      * injection Hj as <- <-. split; [discriminate|lia].
      * destruct j; discriminate.
  - intros Hblank. rewrite R, fold_better_none; [reflexivity|].
    intros a s Hin Ha. elim Ha. apply strip_nil_iff. apply (Hblank a s Hin).
Qed.

Lemma answer_question_returns_best_witness :
  fst (answer_question no_punkt
         (fun _ => by_last_letter
            [(97%N, Ok (lit "first", 3 # 10)); (98%N, Ok (lit "second", 9 # 10));
             (99%N, Ok (lit "third", 5 # 10))])
         quiet_display (lit "what?") (world_of abc_document))
  = Ok (lit "second (Confidence: 0.90)")
  /\ fst (answer_question no_punkt
            (fun _ => by_last_letter
               [(97%N, Ok (lit " ", 1%Q)); (98%N, Ok (lit "second", 1 # 2));
                (99%N, Ok (lit "third", 1 # 2))])
            quiet_display (lit "what?") (world_of abc_document))
     = Ok (lit "second (Confidence: 0.50)")
  /\ fst (answer_question no_punkt
            (fun _ => by_last_letter
               [(97%N, Ok (lit " ", 1%Q)); (98%N, Ok ([], 9 # 10));
                (99%N, Ok ([9%N; 32%N], 1 # 2))])
            quiet_display (lit "what?") (world_of abc_document))
     = Ok (lit "I couldn't find an answer to that question in the document.").
Proof.
  split; [|split].
  - refine (proj1 (proj2 (proj2 (answer_question_returns_best no_punkt
              (fun _ => by_last_letter
                 [(97%N, Ok (lit "first", 3 # 10)); (98%N, Ok (lit "second", 9 # 10));
                  (99%N, Ok (lit "third", 5 # 10))])
              quiet_display (lit "what?") (world_of abc_document) (abc_chunks 100)
              _ _ _ _ _)))
              (lit "first") (lit "second") (lit "third") _ _ _ _).
    + intros c; reflexivity.
    + discriminate.
    + reflexivity.
    + vm_compute; reflexivity.
    + discriminate.
    + vm_compute; reflexivity.
    + reflexivity.
    + reflexivity.
    + reflexivity.
  - refine (proj1 (proj2 (answer_question_returns_best no_punkt
              (fun _ => by_last_letter
                 [(97%N, Ok (lit " ", 1%Q)); (98%N, Ok (lit "second", 1 # 2));
                  (99%N, Ok (lit "third", 1 # 2))])
              quiet_display (lit "what?") (world_of abc_document) (abc_chunks 100)
              _ _ _ _ _))
              1%nat (lit "second") (1 # 2)%Q _ _ _ _).
    + intros c; reflexivity.
    + discriminate.
    + reflexivity.
    + vm_compute; reflexivity.
    + discriminate.
    + vm_compute; reflexivity.
    + reflexivity.
    + reflexivity.
    + intros j a' s' Hj Ha'.
      assert (Hc : nth_error
                     [(lit " ", 1%Q); (lit "second", (1 # 2)%Q);
                      (lit "third", (1 # 2)%Q)] j = Some (a', s'))
        by (rewrite <- Hj; vm_compute; reflexivity).
      clear Hj. destruct j as [|[|[|j]]]; simpl in Hc.
      * injection Hc as <- <-. discriminate Ha'.
      * injection Hc as <- <-. split; [apply Qle_refl|lia].
      * injection Hc as <- <-. split; [apply Qle_refl|lia].
      * destruct j; discriminate.
  - refine (proj2 (proj2 (proj2 (answer_question_returns_best no_punkt
              (fun _ => by_last_letter
                 [(97%N, Ok (lit " ", 1%Q)); (98%N, Ok ([], 9 # 10));
                  (99%N, Ok ([9%N; 32%N], 1 # 2))])
              quiet_display (lit "what?") (world_of abc_document) (abc_chunks 100)
              _ _ _ _ _))) _).
    + intros c; reflexivity.
    + discriminate.
    + reflexivity.
    + vm_compute; reflexivity.
    + discriminate.
    + intros a s Hin.
      assert (Hc : In (a, s) [(lit " ", 1%Q); ([], (9 # 10)%Q);
                              ([9%N; 32%N], (1 # 2)%Q)])
        by (revert Hin; vm_compute; exact (fun H => H)).
      clear Hin. destruct Hc as [[= <- <-]|[[= <- <-]|[[= <- <-]|[]]]]; reflexivity.
Defined.

(** C9: over a loaded document that yields at least one chunk and for a
    non-blank question, when every chunk whose inference returns has a
    confidence of exactly 0, [answer_question] returns the "no answer
    found" message, also when answers are not blank: a score of 0 is
    never strictly greater than the initial best score 0. *)
Theorem zero_confidence_never_wins
    (sent_tokenize : str -> Result (list str))
    (_answer_question_from_context : str -> str -> run (str * Q))
    (display : st_call -> Result unit)
    (question : str) (w : world) (chunks : list str) :
  (forall c, display c = Ok tt) ->
  pdf_text (self w) <> [] ->
  strip question <> [] ->
  fst (_split_text sent_tokenize display (pdf_text (self w)) 1000 100 w) = Ok chunks ->
  chunks <> [] ->
  (forall chunk a s,
      In chunk chunks ->
      yields (_answer_question_from_context question chunk) = Ok (a, s) ->
      (s == 0)%Q) ->
  fst (answer_question sent_tokenize _answer_question_from_context display
         question w)
  = Ok (lit "I couldn't find an answer to that question in the document.").
Proof.
  intros Hd Hdoc Hq Hsplit Hne Hzero.
  destruct (answer_question_run sent_tokenize _answer_question_from_context
              display Hd question w Hdoc Hq) as (w' & E & _).
  rewrite E, (split_text_chunks _ _ _ _ _ _ _ Hd Hsplit).
  destruct chunks as [|c rest]; [congruence|].
  cbn [fst]. rewrite fold_better_none; [reflexivity|].
  intros a s Hin _ Hpos.
  apply in_flat_map in Hin; destruct Hin as (chunk & Hchunk & Hin).
  unfold chunk_candidates in Hin.
  destruct (yields (_answer_question_from_context question chunk))
    as [[a' s']|e] eqn:Y; [|contradiction].
  destruct Hin as [[= -> ->]|[]].
  pose proof (Hzero chunk a s Hchunk Y) as Z0.
  rewrite Z0 in Hpos; exact (Qlt_irrefl _ Hpos).
Qed.

Lemma zero_confidence_never_wins_witness :
  fst (answer_question no_punkt (constant_answerer 0) quiet_display
         (lit "what?") (world_of (lit "Hello world. Bye.")))
  = Ok (lit "I couldn't find an answer to that question in the document.").
Proof.
  apply (zero_confidence_never_wins no_punkt (constant_answerer 0) quiet_display
           (lit "what?") (world_of (lit "Hello world. Bye."))
           [lit "Hello world.  Bye."]).
  - intros c; reflexivity.
  - discriminate.
  - discriminate.
  - reflexivity.
  - discriminate.
  - intros chunk a s _ [= _ <-]. reflexivity.
Defined.

Lemma summary_notice_shown (k : nat) (e : exn) :
  summary_notice k e = shown_for_summary k e.
Proof. destruct e; reflexivity. Qed.

Lemma search_notice_shown (k : nat) (e : exn) :
  search_notice k e = shown_for_search k e.
Proof. destruct e; reflexivity. Qed.

(** C4: over a display that does not raise, an exception raised by the
    inference function at a chunk does not leave either aggregator. Both
    return a value; every chunk (for the summary: every chunk of at least
    100 characters) is submitted to the inference function, also after a
    chunk that failed; a chunk whose inference raised contributes nothing
    to the result and the display is sent its notification: the warning
    "Chunk k took too long to ... Skipping." for a [TimeoutException],
    the error "Error summarizing chunk k: ..." or "Error processing
    chunk k: ..." with the exception's text otherwise. *)
Theorem chunk_failures_are_contained
    (sent_tokenize : str -> Result (list str))
    (_summarize_text : str -> run str)
    (_answer_question_from_context : str -> str -> run (str * Q))
    (display : st_call -> Result unit) (question : str) (w : world) :
  (forall c, display c = Ok tt) ->
  pdf_text (self w) <> [] ->
  has_text question = true ->
  (exists out w',
      generate_summary sent_tokenize _summarize_text display w = (Ok out, w')
      /\ forall chunks,
           fst (_split_text sent_tokenize display (pdf_text (self w)) 500 50 w)
           = Ok chunks ->
           out = match chunks with
                 | [] => lit "Unable to extract meaningful text from the PDF."
                 | _ :: _ =>
                     match flat_map (chunk_summaries _summarize_text) chunks with
                     | [] => lit "Could not generate a summary. Try a different document or check document quality."
                     | summaries => spaced summaries
                     end
                 end
           /\ forall k chunk,
                nth_error chunks k = Some chunk -> 100 <= len chunk ->
                In (Infer chunk) (events w')
                /\ forall e,
                     yields (_summarize_text chunk) = Raise e ->
                     chunk_summaries _summarize_text chunk = []
                     /\ In (Display (shown_for_summary k e)) (events w'))
  /\ (exists out w',
         answer_question sent_tokenize _answer_question_from_context display
           question w = (Ok out, w')
         /\ forall chunks,
              fst (_split_text sent_tokenize display (pdf_text (self w)) 1000 100 w)
              = Ok chunks ->
              out = match chunks with
                    | [] => lit "Unable to extract meaningful text from the PDF to answer questions."
                    | _ :: _ =>
                        spec_answer
                          (spec_best
                             (flat_map
                                (chunk_candidates _answer_question_from_context question)
                                chunks))
                    end
              /\ forall k chunk,
                   nth_error chunks k = Some chunk ->
                   In (Infer chunk) (events w')
                   /\ forall e,
                        yields (_answer_question_from_context question chunk)
                        = Raise e ->
                        chunk_candidates _answer_question_from_context question chunk
                        = []
                        /\ In (Display (shown_for_search k e)) (events w')).
Proof.
  intros Hd Hdoc Hq. apply has_text_iff_strip in Hq. split.
  - destruct (generate_summary_run sent_tokenize _summarize_text display Hd w Hdoc)
      as (w' & E & _ & _ & Hev).
    eexists; exists w'; split; [exact E|].
    intros chunks Hsplit.
    rewrite (split_text_chunks _ _ _ _ _ _ _ Hd Hsplit) in Hev |- *.
    split.
    { destruct chunks; [reflexivity|].
      destruct (flat_map _ _); [reflexivity|apply join_spaced]. }
    intros k chunk Hk Hlong. destruct (Hev k chunk Hk Hlong) as [Hin Hnote].
    split; [exact Hin|]. intros e He.
    split; [|rewrite <- summary_notice_shown; apply Hnote, He].
    unfold chunk_summaries. rewrite He.
    destruct (len chunk <? 100); reflexivity.
  - destruct (answer_question_run sent_tokenize _answer_question_from_context
                display Hd question w Hdoc Hq) as (w' & E & _ & Hev).
    eexists; exists w'; split; [exact E|].
    intros chunks Hsplit.
    rewrite (split_text_chunks _ _ _ _ _ _ _ Hd Hsplit) in Hev |- *.
    split; [destruct chunks; [reflexivity|apply render_answer_spec]|].
    intros k chunk Hk. destruct (Hev k chunk Hk) as [Hin Hnote].
    split; [exact Hin|]. intros e He.
    split; [|rewrite <- search_notice_shown; apply Hnote, He].
    unfold chunk_candidates. rewrite He. reflexivity.
Qed.

Lemma chunk_failures_are_contained_witness :
  (fst (generate_summary no_punkt two_failures_summarizer quiet_display
          (world_of abc_document)) = Ok (lit "S3")
   /\ In (Display (st_error (lit "Error summarizing chunk 1: CUDA out of memory")))
         (events (snd (generate_summary no_punkt two_failures_summarizer
                         quiet_display (world_of abc_document))))
   /\ In (Display (st_warning (lit "Chunk 2 took too long to summarize. Skipping.")))
         (events (snd (generate_summary no_punkt two_failures_summarizer
                         quiet_display (world_of abc_document))))
   /\ In (Infer (repeat 98%N 49 ++ [DOT; SP] ++ letters 99%N 600))
         (events (snd (generate_summary no_punkt two_failures_summarizer
                         quiet_display (world_of abc_document)))))
  /\ (fst (answer_question no_punkt two_failures_answerer quiet_display
             (lit "what?") (world_of abc_document))
      = Ok (lit "third (Confidence: 0.90)")
      /\ In (Display (st_error (lit "Error processing chunk 1: CUDA out of memory")))
            (events (snd (answer_question no_punkt two_failures_answerer
                            quiet_display (lit "what?") (world_of abc_document))))
      /\ In (Display (st_warning (lit "Chunk 2 took too long to process. Skipping.")))
            (events (snd (answer_question no_punkt two_failures_answerer
                            quiet_display (lit "what?") (world_of abc_document))))
      /\ In (Infer (repeat 98%N 99 ++ [DOT; SP] ++ letters 99%N 600))
            (events (snd (answer_question no_punkt two_failures_answerer
                            quiet_display (lit "what?") (world_of abc_document))))).
Proof.
  destruct (chunk_failures_are_contained no_punkt two_failures_summarizer
              two_failures_answerer quiet_display (lit "what?")
              (world_of abc_document))
    as [(out1 & w1 & E1 & H1) (out2 & w2 & E2 & H2)].
  - intros c; reflexivity.
  - discriminate.
  - reflexivity.
  - rewrite E1, E2. cbn [fst snd].
    destruct (H1 (abc_chunks 50)) as [O1 N1]; [vm_compute; reflexivity|].
    destruct (H2 (abc_chunks 100)) as [O2 N2]; [vm_compute; reflexivity|].
    split; [split; [|split; [|split]]|split; [|split; [|split]]].
    + rewrite O1. vm_compute. reflexivity.
    + refine (proj2 (proj2 (N1 0%nat _ _ _) (OtherException (lit "CUDA out of memory")) _));
        [reflexivity|vm_compute; discriminate|vm_compute; reflexivity].
    + refine (proj2 (proj2 (N1 1%nat _ _ _) (TimeoutException (lit "Operation timed out")) _));
        [reflexivity|vm_compute; discriminate|vm_compute; reflexivity].
    + refine (proj1 (N1 2%nat _ _ _)); [reflexivity|vm_compute; discriminate].
    + rewrite O2. vm_compute. reflexivity.
    + refine (proj2 (proj2 (N2 0%nat _ _) (OtherException (lit "CUDA out of memory")) _));
        [reflexivity|vm_compute; reflexivity].
    + refine (proj2 (proj2 (N2 1%nat _ _) (TimeoutException (lit "Operation timed out")) _));
        [reflexivity|vm_compute; reflexivity].
    + refine (proj1 (N2 2%nat _ _)); reflexivity.
Defined.

(** ** The stored summary (C10) *)

Section StoredSummary.

Variable sent_tokenize : str -> Result (list str).
Variable _summarize_text : str -> run str.
Variable display : st_call -> Result unit.

Lemma handler_keeps_self (msg out : str) (w : world) :
  self (snd ((st display (st_error msg) ;; ret out) w)) = self w.
Proof.
  unfold bind, st, ret. destruct (display (st_error msg)); reflexivity.
Qed.

Lemma generate_summary_body_cases (w : world) :
  forall r w',
    generate_summary_body sent_tokenize _summarize_text display w = (r, w') ->
    self w' = self w
    \/ (pdf_text (self w') = pdf_text (self w)
        /\ (pdf_text (self w) <> [] ->
            success_path sent_tokenize _summarize_text display w r w')).
Proof.
  intros r w' E. pose proof E as E0. revert E.
  unfold generate_summary_body. unfold bind at 1, get_self at 1.
  unfold bind at 1.
  pose proof (split_text_extends sent_tokenize display (pdf_text (self w)) 500 50 w)
    as [S1 _].
  destruct (_split_text sent_tokenize display (pdf_text (self w)) 500 50 w)
    as [[chunks|e] w1] eqn:E1; simpl in S1.
  2:{ intros [= <- <-]; left; exact S1. }
  destruct chunks as [|c rest].
  { intros [= <- <-]; left; exact S1. }
  unfold bind at 1, st at 1.
  destruct (display (st_progress 0)) as [u|e].
  2:{ intros [= <- <-]; left; exact S1. }
  unfold bind at 1, st at 1.
  destruct (display st_empty) as [u0|e].
  2:{ intros [= <- <-]; left; exact S1. }
  unfold bind at 1.
  match goal with |- context [for_enumerate 0 ?l ?b ?s ?w0] =>
    pose proof (keeps_for_enumerate extends extends_refl extends_trans b l
                  (fun j x acc => summarize_chunk_extends _summarize_text display
                                    (Z.of_nat (List.length l)) j x acc) 0%nat s w0)
      as [S2 _];
    destruct (for_enumerate 0 l b s w0) as [[summaries|e] w2] eqn:E2
  end; simpl in S2.
  2:{ intros [= <- <-]; left; rewrite S2; exact S1. }
  destruct summaries as [|s0 more].
  { intros [= <- <-]; left; rewrite S2; exact S1. }
  unfold bind, set_summary, get_self, ret. cbn [self summary].
  intros E; injection E as Er Ew. right. split.
  - rewrite <- Ew; cbn [self pdf_text]. rewrite S2; cbn [self log].
    rewrite S1; reflexivity.
  - intros Hdoc. split; [exact Hdoc|].
    exists (c :: rest), w1, (s0 :: more), w2.
    split; [exact E1|]. split; [discriminate|]. split; [exact E2|].
    split; [discriminate|]. split; [rewrite E0, <- Er; reflexivity|].
    split; [rewrite <- Er; reflexivity|rewrite <- Ew; reflexivity].
Qed.

End StoredSummary.

(** C10: [generate_summary] never changes [self.pdf_text], and it leaves
    [self.summary] as it was unless it went all the way to the
    assignment: a document was loaded, the chunker returned at least one
    chunk, the loop ended with at least one summary, and the join of
    these summaries is both stored and returned. On every other way out
    (no document, no chunk, no summary collected, an exception caught by
    the outer handler) the stored summary is the one from before the
    call. The collaborators, display included, are arbitrary. *)
Theorem summary_written_only_on_success
    (sent_tokenize : str -> Result (list str))
    (_summarize_text : str -> run str)
    (display : st_call -> Result unit) (w : world) :
  let '(result, w') := generate_summary sent_tokenize _summarize_text display w in
  pdf_text (self w') = pdf_text (self w)
  /\ (summary (self w') = summary (self w)
      \/ success_path sent_tokenize _summarize_text display w result w')
  /\ (pdf_text (self w) = [] -> summary (self w') = summary (self w))
  /\ (fst (_split_text sent_tokenize display (pdf_text (self w)) 500 50 w) = Ok [] ->
      summary (self w') = summary (self w))
  /\ (forall chunks w1 w2,
         _split_text sent_tokenize display (pdf_text (self w)) 500 50 w
         = (Ok chunks, w1) ->
         for_enumerate 0 chunks
           (summarize_chunk _summarize_text display (Z.of_nat (List.length chunks)))
           [] (log (Display st_empty) (log (Display (st_progress 0)) w1))
         = (Ok [], w2) ->
         summary (self w') = summary (self w))
  /\ (forall e,
         fst (generate_summary_body sent_tokenize _summarize_text display w) = Raise e ->
         summary (self w') = summary (self w)).
Proof.
  assert (Main :
    let '(result, w') := generate_summary sent_tokenize _summarize_text display w in
    self w' = self w
    \/ (pdf_text (self w') = pdf_text (self w)
        /\ success_path sent_tokenize _summarize_text display w result w'
        /\ exists out,
             generate_summary_body sent_tokenize _summarize_text display w
             = (Ok out, w'))).
  { unfold generate_summary. unfold bind at 1, get_self at 1.
    destruct (truthy (pdf_text (self w))) eqn:T; cbn [negb].
    - unfold try_except.
      destruct (generate_summary_body sent_tokenize _summarize_text display w)
        as [[out|e] w1] eqn:E.
      + destruct (generate_summary_body_cases _ _ _ w _ _ E) as [S|[P Hs]].
        * left; exact S.
        * right. split; [exact P|]. split; [|exists out; reflexivity].
          apply Hs. intros H; rewrite H in T; discriminate.
      + cbn [any_Exception].
        match goal with |- context [bind ?m ?k w1] =>
          pose proof (handler_keeps_self display
                        (lit "Error in summary generation: " ++ str_of_exn e)
                        MSG_SUMMARY_ERROR w1) as K;
          destruct (bind m k w1) as [r2 w2]
        end.
        cbn [snd] in K. left. rewrite K.
        destruct (generate_summary_body_cases _ _ _ w _ _ E) as [S|[_ Hs]];
          [exact S|].
        assert (Hdoc : pdf_text (self w) <> [])
          by (intros H; rewrite H in T; discriminate).
        destruct (Hs Hdoc) as (_ & ? & ? & ? & ? & _ & _ & _ & _ & _ & R & _).
        discriminate R.
    - left; reflexivity. }
  destruct (generate_summary sent_tokenize _summarize_text display w)
    as [result w'].
  split; [destruct Main as [->|[P _]]; [reflexivity|exact P]|].
  split; [destruct Main as [->|(_ & S & _)]; [left; reflexivity|right; exact S]|].
  split; [|split; [|split]].
  - intros Hempty. destruct Main as [->|(_ & [Hdoc _] & _)]; [reflexivity|].
    contradiction.
  - intros Hnone.
    destruct Main as [->|(_ & (_ & chunks & w1 & ? & ? & E1 & Hne & _) & _)];
      [reflexivity|].
    rewrite E1 in Hnone. injection Hnone as ->. contradiction.
  - intros chunks w1 w2 E1 E2.
    destruct Main
      as [->|(_ & (_ & chunks' & w1' & l & w2' & E1' & _ & E2' & Hl & _) & _)];
      [reflexivity|].
    rewrite E1 in E1'. injection E1' as <- <-.
    rewrite E2 in E2'. injection E2' as <- _. contradiction.
  - intros e He.
    destruct Main as [->|(_ & _ & out & E)]; [reflexivity|].
    rewrite E in He. discriminate He.
Qed.

(** ** The watchdog (C5) *)

Lemma disarmed_set_summary (v : str) : keeps disarmed (set_summary v).
Proof. intros w H; exact H. Qed.

(** What holds of the watchdog: after either aggregator no timer is left
    armed, whatever the collaborators do. *)
Lemma generate_summary_disarmed
    (sent_tokenize : str -> Result (list str)) (_summarize_text : str -> run str)
    (display : st_call -> Result unit) :
  keeps disarmed (generate_summary sent_tokenize _summarize_text display).
Proof.
  unfold generate_summary, generate_summary_body. frame.
  - apply split_text_disarmed.
  - apply summarize_chunk_disarmed.
  - apply disarmed_set_summary.
Qed.

Lemma answer_question_disarmed
    (sent_tokenize : str -> Result (list str))
    (_answer_question_from_context : str -> str -> run (str * Q))
    (display : st_call -> Result unit) (question : str) :
  keeps disarmed
    (answer_question sent_tokenize _answer_question_from_context display question).
Proof.
  unfold answer_question, answer_question_body. frame.
  - apply split_text_disarmed.
  - apply search_chunk_disarmed.
Qed.

(** C5, at the failing input: the inference of the single chunk takes 61
    seconds, one more than the watchdog's interval, and returns "S".
    [timeout_handler] raises on the timer's thread, where the exception
    is lost; the aggregator receives the value, appends it and returns
    it, and no "took too long" warning is displayed. In general the
    guarded call yields what the inference yields, whatever the interval
    and the time taken, and leaves the timer cancelled. *)
Theorem watchdog_does_not_interrupt :
  (forall (A : Type) (seconds : Q) (context : str) (work : run A) (w : world),
      fst ((Timer_start seconds ;; try_finally (call context work) Timer_cancel) w)
      = yields work
      /\ timer (snd ((Timer_start seconds ;;
                      try_finally (call context work) Timer_cancel) w)) = None)
  /\ (60 < took (slow_summarizer long_sentence))%Q
  /\ yields (slow_summarizer long_sentence) = Ok (lit "S")
  /\ fst (generate_summary one_sentence slow_summarizer quiet_display
            (world_of long_sentence)) = Ok (lit "S")
  /\ summary (self (snd (generate_summary one_sentence slow_summarizer
                           quiet_display (world_of long_sentence)))) = lit "S"
  /\ events (snd (generate_summary one_sentence slow_summarizer quiet_display
                    (world_of long_sentence)))
     = [ Display (st_progress 0); Display st_empty;
         Display (progress_bar_progress 1);
         Display (status_text_text (lit "Processing chunk 1/1..."));
         TimerStart 60; Infer long_sentence;
         ThreadDied (TimeoutException (lit "Operation timed out"));
         TimerCancel ]
  /\ ~ In (Display (summary_timeout_warning 0))
         (events (snd (generate_summary one_sentence slow_summarizer
                         quiet_display (world_of long_sentence)))).
Proof.
  split.
  { intros A seconds context work w. split; reflexivity. }
  split; [reflexivity|]. split; [reflexivity|].
  split; [vm_compute; reflexivity|]. split; [vm_compute; reflexivity|].
  assert (E : events (snd (generate_summary one_sentence slow_summarizer
                             quiet_display (world_of long_sentence)))
              = [ Display (st_progress 0); Display st_empty;
                  Display (progress_bar_progress 1);
                  Display (status_text_text (lit "Processing chunk 1/1..."));
                  TimerStart 60; Infer long_sentence;
                  ThreadDied (TimeoutException (lit "Operation timed out"));
                  TimerCancel ])
    by (vm_compute; reflexivity).
  split; [exact E|]. rewrite E.
  intros [H|[H|[H|[H|[H|[H|[H|[H|[]]]]]]]]]; discriminate H.
Qed.

(** * Further properties of the code *)

(** ** White space at the two ends *)

Lemma lstrip_spec (s : str) :
  exists t, s = t ++ lstrip s /\ forallb isspace_char t = true
            /\ (lstrip s = [] \/ starts_in_text (lstrip s) = true).
Proof.
  induction s as [|c r (t & E & Ht & Hs)].
  - exists []; repeat split; left; reflexivity.
  - simpl lstrip. destruct (isspace_char c) eqn:C.
    + exists (c :: t); split; [simpl; rewrite <- E; reflexivity|].
      split; [simpl; rewrite C, Ht; reflexivity|exact Hs].
    + exists []; split; [reflexivity|]. split; [reflexivity|].
      right; simpl; rewrite C; reflexivity.
Qed.

Lemma starts_in_text_lstrip (s : str) : starts_in_text s = true -> lstrip s = s.
Proof.
  destruct s as [|c r]; simpl; [discriminate|].
  destruct (isspace_char c); [discriminate|reflexivity].
Qed.

Lemma ends_in_text_rev (s : str) : ends_in_text s = starts_in_text (rev s).
Proof. unfold ends_in_text, starts_in_text; reflexivity. Qed.

Lemma rstrip_spec (s : str) :
  exists t, s = rstrip s ++ t /\ forallb isspace_char t = true
            /\ (rstrip s = [] \/ ends_in_text (rstrip s) = true).
Proof.
  destruct (lstrip_spec (rev s)) as (t & E & Ht & Hs).
  exists (rev t); unfold rstrip; split; [|split].
  - rewrite <- rev_app_distr, <- E, rev_involutive; reflexivity.
  - rewrite forallb_forall in *. intros x Hx; apply Ht, in_rev, Hx.
  - destruct Hs as [->|Hs]; [left; reflexivity|right].
    rewrite ends_in_text_rev, rev_involutive; exact Hs.
Qed.

Lemma all_space_no_text (t : str) :
  forallb isspace_char t = true -> has_text t = false.
Proof.
  induction t as [|c r IH]; simpl; [reflexivity|].
  destruct (isspace_char c); simpl; [exact IH|discriminate].
Qed.

(** A trimmed string is empty, or starts and ends in text. *)
Lemma strip_spec (s : str) :
  strip s = []
  \/ (starts_in_text (strip s) = true /\ ends_in_text (strip s) = true).
Proof.
  unfold strip.
  destruct (lstrip_spec s) as (t1 & _ & _ & [H|H]).
  - left; rewrite H; reflexivity.
  - destruct (rstrip_spec (lstrip s)) as (t2 & E & Ht & [H2|H2]);
      [left; exact H2|right].
    split; [|exact H2].
    destruct (rstrip (lstrip s)) as [|c r]; [discriminate H2|].
    rewrite E in H; simpl in H |- *; exact H.
Qed.

Lemma strip_fixed (s : str) :
  starts_in_text s = true -> ends_in_text s = true -> strip s = s.
Proof.
  intros H1 H2; unfold strip.
  rewrite (starts_in_text_lstrip s H1); apply rstrip_ends_in_text, H2.
Qed.

Lemma strip_idem (s : str) : strip (strip s) = strip s.
Proof.
  destruct (strip_spec s) as [->|[H1 H2]]; [reflexivity|].
  apply strip_fixed; assumption.
Qed.

(** Text in the middle of a buffer survives the trimming. *)
Lemma occurs_in_lstrip (s c : str) :
  starts_in_text s = true -> occurs_in s c -> occurs_in s (lstrip c).
Proof.
  intros Hs (a & b & ->).
  destruct (has_text a) eqn:T.
  - rewrite (lstrip_app_text a (s ++ b) T). exists (lstrip a), b; reflexivity.
  - assert (L : lstrip (a ++ s ++ b) = s ++ b).
    { clear -T Hs. induction a as [|x a IH]; simpl.
      - destruct s as [|y s]; [discriminate|]. simpl in *.
        destruct (isspace_char y); [discriminate|reflexivity].
      - simpl in T. destruct (isspace_char x); simpl in T; [|discriminate].
        apply IH, T. }
    rewrite L. exists [], b; reflexivity.
Qed.

Lemma occurs_in_rev (s c : str) : occurs_in s c -> occurs_in (rev s) (rev c).
Proof.
  intros (a & b & ->). exists (rev b), (rev a).
  rewrite !rev_app_distr, <- app_assoc; reflexivity.
Qed.

Lemma occurs_in_rstrip (s c : str) :
  ends_in_text s = true -> occurs_in s c -> occurs_in s (rstrip c).
Proof.
  intros Hs H. unfold rstrip.
  rewrite <- (rev_involutive s). apply occurs_in_rev, occurs_in_lstrip.
  - rewrite <- ends_in_text_rev; exact Hs.
  - apply occurs_in_rev, H.
Qed.

Lemma occurs_in_strip (s c : str) :
  starts_in_text s = true -> ends_in_text s = true ->
  occurs_in s c -> occurs_in s (strip c).
Proof.
  intros H1 H2 H. unfold strip.
  apply occurs_in_rstrip, occurs_in_lstrip; assumption.
Qed.

Lemma occurs_in_has_text (s c : str) :
  starts_in_text s = true -> occurs_in s c -> has_text c = true.
Proof.
  intros Hs (a & b & ->). unfold has_text. rewrite !existsb_app.
  destruct s as [|y s]; [discriminate|]. simpl in *.
  rewrite Hs; simpl. apply orb_true_r.
Qed.

Lemma has_text_strip (c : str) : has_text c = true -> truthy (strip c) = true.
Proof.
  intros H. destruct (strip c) as [|x r] eqn:E; [|reflexivity].
  exfalso. unfold strip in E.
  destruct (lstrip_spec c) as (t1 & E1 & Ht1 & _).
  destruct (rstrip_spec (lstrip c)) as (t2 & E2 & Ht2 & _).
  rewrite E in E2; simpl in E2. rewrite E2 in E1. rewrite E1 in H.
  unfold has_text in H; rewrite existsb_app in H.
  fold (has_text t1) in H; fold (has_text t2) in H.
  rewrite (all_space_no_text _ Ht1), (all_space_no_text _ Ht2) in H.
  discriminate.
Qed.

(** ** More on the chunker *)

Section ChunkerMore.

Variables max_length overlap : Z.

Local Abbreviation emit' := (emit max_length overlap).

Lemma emit_trimmed (sentences : list str) :
  forall current c,
    In c (emit' current sentences) -> c <> [] /\ strip c = c.
Proof.
  assert (One : forall b c,
             In c (if truthy (strip b) then [strip b] else []) ->
             c <> [] /\ strip c = c).
  { intros b c H. destruct (truthy (strip b)) eqn:T; [|contradiction].
    destruct H as [<-|[]]. split; [|apply strip_idem].
    intros E; rewrite E in T; discriminate. }
  induction sentences as [|s rest IH]; intros current c Hc; simpl in Hc.
  - apply (One current), Hc.
  - destruct (len current + len s <=? max_length); [apply (IH _ _ Hc)|].
    apply in_app_or in Hc; destruct Hc as [Hc|Hc];
      [apply (One current), Hc|apply (IH _ _ Hc)].
Qed.

Lemma emit_count (sentences : list str) :
  forall current,
    (List.length (emit' current sentences)
     <= List.length sentences + (if truthy (strip current) then 1 else 0))%nat.
Proof.
  induction sentences as [|s rest IH]; intros current; simpl emit.
  - destruct (truthy (strip current)); simpl; lia.
  - destruct (len current + len s <=? max_length).
    + specialize (IH (current ++ SP :: s)).
      destruct (truthy (strip (current ++ SP :: s))),
               (truthy (strip current)); simpl List.length; lia.
    + specialize (IH (last_chars overlap current ++ SP :: s)).
      rewrite length_app.
      destruct (truthy (strip (last_chars overlap current ++ SP :: s))),
               (truthy (strip current)); simpl List.length in *; lia.
Qed.

Lemma join_cons (x : str) (l : list str) :
  l <> [] -> join [SP] (x :: l) = x ++ SP :: join [SP] l.
Proof. destruct l; [congruence|reflexivity]. Qed.

(** While everything fits, the loop only appends. *)
Lemma emit_all_fit (sentences : list str) :
  forall current,
    sentences <> [] ->
    len current + len (join [SP] sentences) <= max_length ->
    emit' current sentences
    = (if truthy (strip (current ++ SP :: join [SP] sentences))
       then [strip (current ++ SP :: join [SP] sentences)] else []).
Proof.
  induction sentences as [|s rest IH]; intros current Hne Hfit; [congruence|].
  destruct rest as [|s' rest'].
  - simpl join in *. simpl emit.
    destruct (Z.leb_spec (len current + len s) max_length); [reflexivity|lia].
  - rewrite join_cons in * by discriminate.
    rewrite len_app, len_cons in Hfit.
    pose proof (len_nonneg (join [SP] (s' :: rest'))).
    change (emit' current (s :: s' :: rest'))
      with (if len current + len s <=? max_length
            then emit' (current ++ SP :: s) (s' :: rest')
            else (if truthy (strip current) then [strip current] else [])
                 ++ emit' (last_chars overlap current ++ SP :: s) (s' :: rest')).
    destruct (Z.leb_spec (len current + len s) max_length); [|lia].
    rewrite IH; [|discriminate|rewrite len_app, len_cons; lia].
    rewrite <- app_assoc. reflexivity.
Qed.

(** A sentence that starts and ends in text and is in the buffer, or
    still to come, is found whole in one of the chunks. *)
Lemma emit_keeps_sentences (sentences : list str) :
  forall current s,
    starts_in_text s = true -> ends_in_text s = true ->
    occurs_in s current \/ In s sentences ->
    exists c, In c (emit' current sentences) /\ occurs_in s c.
Proof.
  assert (Now : forall b s,
             starts_in_text s = true -> ends_in_text s = true ->
             occurs_in s b ->
             In (strip b) (if truthy (strip b) then [strip b] else [])
             /\ occurs_in s (strip b)).
  { intros b s H1 H2 Hb.
    rewrite (has_text_strip b (occurs_in_has_text s b H1 Hb)).
    split; [left; reflexivity|apply occurs_in_strip; assumption]. }
  induction sentences as [|x rest IH]; intros current s H1 H2 Hwhere.
  - destruct Hwhere as [Hb|[]]. exists (strip current). simpl.
    apply Now; assumption.
  - assert (Grow : forall b, occurs_in s current -> occurs_in s (current ++ b)).
    { intros b (a & b' & ->). exists a, (b' ++ b).
      rewrite <- !app_assoc; reflexivity. }
    assert (Seed : forall b, occurs_in x (b ++ SP :: x)).
    { intros b. exists (b ++ [SP]), []. rewrite app_nil_r, <- app_assoc.
      reflexivity. }
    simpl emit.
    destruct (len current + len x <=? max_length).
    + apply (IH (current ++ SP :: x) s H1 H2).
      destruct Hwhere as [Hb|[->|Hin]];
        [left; apply Grow, Hb|left; apply Seed|right; exact Hin].
    + destruct Hwhere as [Hb|[->|Hin]].
      * exists (strip current). split; [|apply occurs_in_strip; assumption].
        apply in_or_app; left. apply (Now current s H1 H2 Hb).
      * destruct (IH (last_chars overlap current ++ SP :: s) s H1 H2
                    (or_introl (Seed _))) as (c & Hc & Ho).
        exists c; split; [apply in_or_app; right; exact Hc|exact Ho].
      * destruct (IH (last_chars overlap current ++ SP :: x) s H1 H2
                    (or_intror Hin)) as (c & Hc & Ho).
        exists c; split; [apply in_or_app; right; exact Hc|exact Ho].
Qed.

End ChunkerMore.

(** X1: every chunk the chunker produces is non-empty and carries no
    white space at either end. *)
Theorem chunks_are_trimmed (max_length overlap : Z) (sentences : list str) (c : str) :
  In c (chunk_sentences max_length overlap sentences) ->
  c <> [] /\ strip c = c
  /\ starts_in_text c = true /\ ends_in_text c = true.
Proof.
  intros Hc. rewrite chunk_sentences_emit in Hc.
  destruct (emit_trimmed max_length overlap sentences [] c Hc) as [Hne Hs].
  split; [exact Hne|]. split; [exact Hs|].
  destruct (strip_spec c) as [E|E]; rewrite Hs in E; [contradiction|exact E].
Qed.

Lemma chunks_are_trimmed_witness :
  lit "bb cccccc" <> [] /\ strip (lit "bb cccccc") = lit "bb cccccc"
  /\ starts_in_text (lit "bb cccccc") = true
  /\ ends_in_text (lit "bb cccccc") = true.
Proof.
  apply (chunks_are_trimmed 10 3 [lit "aaaa bb"; lit "cccccc"]).
  right; left; reflexivity.
Defined.

(** X2: the chunker never produces more chunks than it is given
    sentences; in particular no sentence, no chunk. *)
Theorem chunks_no_more_than_sentences
    (max_length overlap : Z) (sentences : list str) :
  (List.length (chunk_sentences max_length overlap sentences)
   <= List.length sentences)%nat.
Proof.
  rewrite chunk_sentences_emit.
  pose proof (emit_count max_length overlap sentences []) as H.
  simpl in H. lia.
Qed.

(** X3: when the sentences joined by single spaces fit into
    [max_length], the chunker returns exactly one chunk, their join
    (trimmed), whatever the overlap; for sentences that are all blank it
    returns none. *)
Theorem short_text_is_one_chunk
    (max_length overlap : Z) (sentences : list str) :
  sentences <> [] ->
  len (join [SP] sentences) <= max_length ->
  chunk_sentences max_length overlap sentences
  = (if truthy (strip (join [SP] sentences))
     then [strip (join [SP] sentences)] else []).
Proof.
  intros Hne Hfit. rewrite chunk_sentences_emit.
  rewrite (emit_all_fit max_length overlap sentences [] Hne)
    by (change (len []) with 0; lia).
  reflexivity.
Qed.

Lemma short_text_is_one_chunk_witness :
  chunk_sentences 1000 100 [lit "A."; lit "B."; lit "C."]
  = (if truthy (strip (join [SP] [lit "A."; lit "B."; lit "C."]))
     then [strip (join [SP] [lit "A."; lit "B."; lit "C."])] else []).
Proof.
  apply short_text_is_one_chunk.
  - discriminate.
  - vm_compute; discriminate.
Defined.

(** X4: no sentence is dropped or cut: every sentence that starts and
    ends in text occurs whole in at least one chunk. *)
Theorem every_sentence_is_in_a_chunk
    (max_length overlap : Z) (sentences : list str) (s : str) :
  starts_in_text s = true -> ends_in_text s = true ->
  In s sentences ->
  exists c, In c (chunk_sentences max_length overlap sentences) /\ occurs_in s c.
Proof.
  intros H1 H2 Hin. rewrite chunk_sentences_emit.
  apply (emit_keeps_sentences max_length overlap sentences [] s H1 H2).
  right; exact Hin.
Qed.

Lemma every_sentence_is_in_a_chunk_witness :
  exists c, In c (chunk_sentences 10 3 [lit "aaaa bb"; lit "cccccc"])
            /\ occurs_in (lit "cccccc") c.
Proof.
  apply every_sentence_is_in_a_chunk.
  - reflexivity.
  - reflexivity.
  - right; left; reflexivity.
Defined.

(** ** The period fallback of [_split_text] *)

Lemma split_not_nil (sep : char) (s : str) : split sep s <> [].
Proof.
  induction s as [|c r IH]; simpl; [discriminate|].
  destruct (c =? sep)%N; [discriminate|].
  destruct (split sep r); discriminate.
Qed.

Lemma concat_filter_truthy (h : str) (t : list str) :
  List.concat (filter truthy (h :: t)) = h ++ List.concat (filter truthy t).
Proof. destruct h; reflexivity. Qed.

Lemma split_content (s : str) :
  List.concat (filter truthy (split DOT s))
  = filter (fun c => negb (c =? DOT)%N) s.
Proof.
  induction s as [|c r IH]; [reflexivity|].
  simpl split. simpl filter at 2.
  destruct (c =? DOT)%N; simpl negb.
  - rewrite concat_filter_truthy. exact IH.
  - pose proof (split_not_nil DOT r) as Hne.
    destruct (split DOT r) as [|h t]; [congruence|].
    rewrite concat_filter_truthy in IH.
    change (List.concat (filter truthy ((c :: h) :: t)))
      with (c :: h ++ List.concat (filter truthy t)).
    rewrite IH. reflexivity.
Qed.

Lemma removelast_snoc (s : str) (c : char) : removelast (s ++ [c]) = s.
Proof. apply removelast_last. Qed.

Lemma period_fallback_ends_in_text (text s : str) :
  In s (period_fallback text) -> ends_in_text s = true.
Proof.
  unfold period_fallback. intros Hs.
  apply in_map_iff in Hs; destruct Hs as (f & <- & _).
  apply ends_in_text_snoc; reflexivity.
Qed.

(** X5: the fallback sentences are the non-empty fragments between
    periods, each with a period put at its end: every one of them has at
    least two characters and ends in a period (so it ends in text), and
    taking these periods away again and concatenating gives the text
    without its periods: no other character is lost or added. *)
Theorem period_fallback_sentences (text : str) :
  (forall s, In s (period_fallback text) ->
             exists fragment,
               s = fragment ++ [DOT] /\ fragment <> []
               /\ ends_in_text s = true)
  /\ List.concat (map (@removelast char) (period_fallback text))
     = filter (fun c => negb (c =? DOT)%N) text.
Proof.
  unfold period_fallback; split.
  - intros s Hs. apply in_map_iff in Hs; destruct Hs as (f & <- & Hf).
    apply filter_In in Hf; destruct Hf as [_ Hf].
    exists f; split; [reflexivity|]. split.
    + intros E; rewrite E in Hf; discriminate.
    + apply ends_in_text_snoc; reflexivity.
  - rewrite map_map.
    rewrite (map_ext _ (fun x => x)) by (intros a; apply removelast_snoc).
    rewrite map_id. apply split_content.
Qed.

(** X6: when the tokenizer raises (and the display does not),
    [_split_text] chunks the fallback sentences, and for these the
    overlap holds between every two adjacent chunks without a further
    condition: the trailing at-most-[overlap] characters of a chunk, with
    leading white space removed, are a prefix of the next chunk. *)
Theorem fallback_chunks_overlap
    (sent_tokenize : str -> Result (list str))
    (display : st_call -> Result unit)
    (text : str) (max_length overlap : Z) (w : world) (e : exn) :
  (forall c, display c = Ok tt) ->
  sent_tokenize text = Raise e ->
  has_text text = true ->
  fst (_split_text sent_tokenize display text max_length overlap w)
  = Ok (chunk_sentences max_length overlap (period_fallback text))
  /\ forall i c c',
       nth_error (chunk_sentences max_length overlap (period_fallback text)) i
       = Some c ->
       nth_error (chunk_sentences max_length overlap (period_fallback text)) (S i)
       = Some c' ->
       startswith (lstrip (last_chars overlap c)) c' = true.
Proof.
  intros Hd He Ht. split.
  - rewrite (split_text_run sent_tokenize display Hd).
    unfold chunks_value, sentences_value. rewrite He.
    replace (negb (truthy text) || isspace text) with false; [reflexivity|].
    symmetry. apply orb_false_iff; split.
    + destruct text; [discriminate Ht|reflexivity].
    + unfold isspace. apply andb_false_iff; right.
      destruct (forallb isspace_char text) eqn:F; [|reflexivity].
      rewrite (all_space_no_text _ F) in Ht; discriminate.
  - intros i c c'. rewrite chunk_sentences_emit.
    apply emit_adjacent; [|left; reflexivity].
    intros s Hs. apply (period_fallback_ends_in_text text s Hs).
Qed.

Lemma fallback_chunks_overlap_witness :
  fst (_split_text no_punkt quiet_display (lit "Hello world. Bye.") 10 3
         (world_of []))
  = Ok (chunk_sentences 10 3 (period_fallback (lit "Hello world. Bye."))).
Proof.
  refine (proj1 (fallback_chunks_overlap no_punkt quiet_display
                   (lit "Hello world. Bye.") 10 3 (world_of [])
                   (OtherException (lit "Resource punkt not found.")) _ _ _)).
  - intros c; reflexivity.
  - reflexivity.
  - reflexivity.
Defined.

(** ** More on the aggregators *)


(** X8: when no watchdog is armed before the call, none is armed after
    [generate_summary] or [answer_question], whatever the collaborators
    do and however the call ends: every timer that was started has been
    cancelled or has run out. *)
Theorem no_watchdog_left_armed
    (sent_tokenize : str -> Result (list str))
    (_summarize_text : str -> run str)
    (_answer_question_from_context : str -> str -> run (str * Q))
    (display : st_call -> Result unit) (question : str) (w : world) :
  timer w = None ->
  timer (snd (generate_summary sent_tokenize _summarize_text display w)) = None
  /\ timer (snd (answer_question sent_tokenize _answer_question_from_context
                   display question w)) = None.
Proof.
  intros H; split.
  - apply (generate_summary_disarmed sent_tokenize _summarize_text display w H).
  - apply (answer_question_disarmed sent_tokenize _answer_question_from_context
             display question w H).
Qed.

Lemma no_watchdog_left_armed_witness :
  timer (snd (generate_summary no_punkt slow_summarizer quiet_display
                (world_of long_sentence))) = None
  /\ timer (snd (answer_question no_punkt failing_answerer quiet_display
                   (lit "what?") (world_of long_sentence))) = None.
Proof.
  apply no_watchdog_left_armed. reflexivity.
Defined.

Lemma chunk_summaries_same_outcomes (first_run second_run : str -> run str)
    (chunks : list str) :
  (forall chunk, 100 <= len chunk ->
                 yields (second_run chunk) = yields (first_run chunk)) ->
  flat_map (chunk_summaries second_run) chunks
  = flat_map (chunk_summaries first_run) chunks.
Proof.
  intros Hsame. induction chunks as [|c rest IH]; [reflexivity|].
  simpl. rewrite IH. f_equal. unfold chunk_summaries.
  destruct (Z.ltb_spec (len c) 100) as [H|H]; [reflexivity|].
  rewrite (Hsame c H). reflexivity.
Qed.

(** X9: over a display that does not raise, and with a summarizer that
    in the second run ends as in the first for every chunk of at least
    100 characters (it may take another time), running
    [generate_summary] again on the document it has just summarized
    returns the same string and leaves the same summary stored: nothing
    of the first run, neither the summary it stored nor what it
    displayed, enters the second. *)
Theorem generate_summary_again
    (sent_tokenize : str -> Result (list str))
    (first_run second_run : str -> run str)
    (display : st_call -> Result unit) (w : world) :
  (forall c, display c = Ok tt) ->
  (forall chunk, 100 <= len chunk ->
                 yields (second_run chunk) = yields (first_run chunk)) ->
  let w1 := snd (generate_summary sent_tokenize first_run display w) in
  fst (generate_summary sent_tokenize second_run display w1)
  = fst (generate_summary sent_tokenize first_run display w)
  /\ summary (self (snd (generate_summary sent_tokenize second_run display w1)))
     = summary (self w1).
Proof.
  intros Hd Hsame w1.
  destruct (pdf_text (self w)) as [|c r] eqn:Hdoc.
  - assert (E : forall run, generate_summary sent_tokenize run display w
                            = (Ok MSG_LOAD_FIRST, w))
      by (intros run; unfold generate_summary, bind, get_self; rewrite Hdoc;
          reflexivity).
    unfold w1. rewrite (E first_run). simpl snd. rewrite (E second_run).
    split; reflexivity.
  - assert (Hne : pdf_text (self w) <> []) by (rewrite Hdoc; discriminate).
    destruct (generate_summary_run sent_tokenize first_run display Hd w Hne)
      as (w' & E & P & S & _).
    assert (Ew : w1 = w') by (unfold w1; rewrite E; reflexivity).
    rewrite Ew.
    assert (Hne' : pdf_text (self w') <> []) by (rewrite P; exact Hne).
    destruct (generate_summary_run sent_tokenize second_run display Hd w' Hne')
      as (w'' & E' & _ & S' & _).
    rewrite E', E, P. simpl snd. rewrite S', P, S.
    rewrite (chunk_summaries_same_outcomes first_run second_run _ Hsame).
    destruct (chunks_value sent_tokenize (pdf_text (self w)) 500 50) as [|c0 rest];
      [split; reflexivity|].
    rewrite (chunk_summaries_same_outcomes first_run second_run (c0 :: rest) Hsame).
    destruct (flat_map (chunk_summaries first_run) (c0 :: rest));
      split; reflexivity.
Qed.

Lemma generate_summary_again_witness :
  fst (generate_summary no_punkt slow_summarizer quiet_display
         (snd (generate_summary no_punkt constant_summarizer quiet_display
                 (world_of long_sentence))))
  = Ok (lit "S")
  /\ summary (self (snd (generate_summary no_punkt slow_summarizer quiet_display
                           (snd (generate_summary no_punkt constant_summarizer
                                   quiet_display (world_of long_sentence))))))
     = lit "S".
Proof.
  destruct (generate_summary_again no_punkt constant_summarizer slow_summarizer
              quiet_display (world_of long_sentence)) as [R S].
  - intros c; reflexivity.
  - intros chunk _; reflexivity.
  - split; [rewrite R; reflexivity|rewrite S; reflexivity].
Defined.


(** *** Which chunks are submitted, and in which order *)

Lemma inferred_app (a b : list event) : inferred (a ++ b) = inferred a ++ inferred b.
Proof. apply flat_map_app. Qed.

Lemma inferred_elapse (d : Q) (w : world) :
  inferred (events (elapse d w)) = inferred (events w).
Proof.
  unfold elapse. destruct (timer w) as [s|]; [|reflexivity].
  destruct (Qle_bool s d); [|reflexivity].
  simpl. rewrite inferred_app, app_nil_r. reflexivity.
Qed.

Section Submitted.

Variable sent_tokenize : str -> Result (list str).
Variable _summarize_text : str -> run str.
Variable _answer_question_from_context : str -> str -> run (str * Q).
Variable display : st_call -> Result unit.
Hypothesis display_ok : forall c, display c = Ok tt.

Lemma guarded_inferred {A V} (seconds : Q) (context : str) (work : run A)
    (update : A -> V) (v : V) (warning : st_call) (error : exn -> st_call)
    (w : world) :
  inferred (events (snd (
    try_except any_Exception
      (Timer_start seconds ;;
       '(v', timeout_flag) <-
         try_finally
           (try_except is_TimeoutException
              (x <- call context work ;; ret (update x, false))
              (fun _ => st display warning ;; ret (v, true)))
           Timer_cancel ;;
       if (timeout_flag : bool) then ret v' else ret v')
      (fun e => st display (error e) ;; ret v) w)))
  = inferred (events w) ++ [context].
Proof.
  unfold try_except, try_finally, bind, call, Timer_start, Timer_cancel, ret.
  destruct (yields work) as [x|[m|m]]; cbn [is_TimeoutException any_Exception];
    rewrite ?(st_ok display display_ok); cbn [snd events log set_timer];
    rewrite ?inferred_app, ?inferred_elapse; cbn [events log set_timer];
    rewrite ?inferred_app; simpl; rewrite ?app_nil_r; reflexivity.
Qed.

Lemma split_text_inferred (text : str) (max_length overlap : Z) (w : world) :
  inferred (events (snd (_split_text sent_tokenize display text max_length
                           overlap w)))
  = inferred (events w).
Proof.
  unfold _split_text, sentences_of.
  destruct (negb (truthy text) || isspace text); [reflexivity|].
  unfold bind, try_except, lift.
  destruct (sent_tokenize text) as [l|e]; cbn [any_Exception];
    rewrite ?(st_ok display display_ok); [reflexivity|].
  simpl. rewrite inferred_app, app_nil_r. reflexivity.
Qed.

Lemma summarize_chunk_inferred n i chunk summaries w :
  inferred (events (snd (summarize_chunk _summarize_text display n i chunk
                           summaries w)))
  = inferred (events w) ++ (if 100 <=? len chunk then [chunk] else []).
Proof.
  unfold summarize_chunk.
  unfold bind at 1; rewrite (st_ok display display_ok).
  unfold bind at 1; rewrite (st_ok display display_ok).
  destruct (Z.ltb_spec (len chunk) 100) as [Hs|Hl].
  - destruct (Z.leb_spec 100 (len chunk)); [lia|].
    simpl. rewrite !inferred_app, !app_nil_r. reflexivity.
  - destruct (Z.leb_spec 100 (len chunk)); [|lia].
    rewrite guarded_inferred. simpl. rewrite !inferred_app, !app_nil_r.
    reflexivity.
Qed.

Lemma search_chunk_inferred question n i chunk best w :
  inferred (events (snd (search_chunk _answer_question_from_context display
                           question n i chunk best w)))
  = inferred (events w) ++ [chunk].
Proof.
  unfold search_chunk.
  unfold bind at 1; rewrite (st_ok display display_ok).
  unfold bind at 1; rewrite (st_ok display display_ok).
  rewrite guarded_inferred. simpl. rewrite !inferred_app, !app_nil_r.
  reflexivity.
Qed.

Lemma summarize_loop_inferred n (chunks : list str) :
  forall i summaries w,
    inferred (events (snd (for_enumerate i chunks
                             (summarize_chunk _summarize_text display n)
                             summaries w)))
    = inferred (events w) ++ filter (fun chunk => 100 <=? len chunk) chunks.
Proof.
  induction chunks as [|c rest IH]; intros i summaries w.
  - simpl. rewrite app_nil_r. reflexivity.
  - destruct (summarize_chunk_run _summarize_text display display_ok n i c
                summaries w) as (w1 & E1 & _).
    pose proof (summarize_chunk_inferred n i c summaries w) as H1.
    rewrite E1 in H1; simpl snd in H1.
    simpl for_enumerate. unfold bind. rewrite E1, IH, H1.
    simpl filter. destruct (100 <=? len c); rewrite <- app_assoc; reflexivity.
Qed.

Lemma search_loop_inferred question n (chunks : list str) :
  forall i best w,
    inferred (events (snd (for_enumerate i chunks
                             (search_chunk _answer_question_from_context
                                display question n) best w)))
    = inferred (events w) ++ chunks.
Proof.
  induction chunks as [|c rest IH]; intros i best w.
  - simpl. rewrite app_nil_r. reflexivity.
  - destruct (search_chunk_run _answer_question_from_context display display_ok
                question n i c best w) as (w1 & E1 & _).
    pose proof (search_chunk_inferred question n i c best w) as H1.
    rewrite E1 in H1; simpl snd in H1.
    simpl for_enumerate. unfold bind. rewrite E1, IH, H1.
    rewrite <- app_assoc; reflexivity.
Qed.

End Submitted.

(** X10: over a display that does not raise, [generate_summary] submits
    to the summarizer exactly the chunks of at least 100 characters, each
    once and in chunk order, and [answer_question] (non-blank question)
    submits every chunk once and in chunk order, whatever the inference
    returns or raises at any of them. *)
Theorem chunks_submitted_once_in_order
    (sent_tokenize : str -> Result (list str))
    (_summarize_text : str -> run str)
    (_answer_question_from_context : str -> str -> run (str * Q))
    (display : st_call -> Result unit) (question : str) (w : world) :
  (forall c, display c = Ok tt) ->
  pdf_text (self w) <> [] ->
  strip question <> [] ->
  (forall chunks,
      fst (_split_text sent_tokenize display (pdf_text (self w)) 500 50 w)
      = Ok chunks ->
      inferred (events (snd (generate_summary sent_tokenize _summarize_text
                               display w)))
      = inferred (events w) ++ filter (fun chunk => 100 <=? len chunk) chunks)
  /\ (forall chunks,
         fst (_split_text sent_tokenize display (pdf_text (self w)) 1000 100 w)
         = Ok chunks ->
         inferred (events (snd (answer_question sent_tokenize
                                  _answer_question_from_context display
                                  question w)))
         = inferred (events w) ++ chunks).
Proof.
  intros Hd Hdoc Hq. split; intros chunks Hsplit;
    rewrite <- (split_text_chunks _ _ _ _ _ _ _ Hd Hsplit); clear chunks Hsplit.
  - unfold generate_summary. unfold bind at 1, get_self at 1.
    rewrite (truthy_true _ Hdoc). cbn [negb].
    unfold try_except, generate_summary_body. unfold bind at 1, get_self at 1.
    unfold bind at 1.
    pose proof (split_text_inferred sent_tokenize display Hd
                  (pdf_text (self w)) 500 50 w) as I1.
    destruct (split_text_pair sent_tokenize display Hd (pdf_text (self w))
                500 50 w) as (w1 & E1 & _).
    rewrite E1 in I1 |- *. simpl snd in I1.
    destruct (chunks_value sent_tokenize (pdf_text (self w)) 500 50)
      as [|c rest].
    + simpl. rewrite I1, app_nil_r. reflexivity.
    + unfold bind at 1; rewrite (st_ok display Hd).
      unfold bind at 1; rewrite (st_ok display Hd).
      unfold bind at 1.
      match goal with |- context [for_enumerate 0 ?l ?b ?s ?w0] =>
        pose proof (summarize_loop_inferred _summarize_text display Hd
                      (Z.of_nat (List.length l)) l 0 s w0) as I2;
        destruct (summarize_loop_run _summarize_text display Hd
                    (Z.of_nat (List.length l)) l 0 s w0) as (w2 & E2 & _)
      end.
      rewrite E2 in I2 |- *. simpl snd in I2.
      assert (I0 : inferred (events (log (Display st_empty)
                                       (log (Display (st_progress 0)) w1)))
                   = inferred (events w))
        by (simpl; rewrite !inferred_app, !app_nil_r; exact I1).
      rewrite I0 in I2.
      destruct ([] ++ flat_map (chunk_summaries _summarize_text) (c :: rest));
        exact I2.
  - unfold answer_question. unfold bind at 1, get_self at 1.
    rewrite (truthy_true _ Hdoc), (truthy_true _ Hq). cbn [negb].
    unfold try_except, answer_question_body. unfold bind at 1, get_self at 1.
    unfold bind at 1.
    pose proof (split_text_inferred sent_tokenize display Hd
                  (pdf_text (self w)) 1000 100 w) as I1.
    destruct (split_text_pair sent_tokenize display Hd (pdf_text (self w))
                1000 100 w) as (w1 & E1 & _).
    rewrite E1 in I1 |- *. simpl snd in I1.
    destruct (chunks_value sent_tokenize (pdf_text (self w)) 1000 100)
      as [|c rest].
    + simpl. rewrite I1, app_nil_r. reflexivity.
    + unfold bind at 1; rewrite (st_ok display Hd).
      unfold bind at 1; rewrite (st_ok display Hd).
      unfold bind at 1.
      match goal with |- context [for_enumerate 0 ?l ?b ?s ?w0] =>
        pose proof (search_loop_inferred _answer_question_from_context display
                      Hd question (Z.of_nat (List.length l)) l 0 s w0) as I2;
        destruct (search_loop_run _answer_question_from_context display Hd
                    question (Z.of_nat (List.length l)) l 0 s w0)
          as (w2 & E2 & _)
      end.
      rewrite E2 in I2 |- *. simpl snd in I2.
      assert (I0 : inferred (events (log (Display st_empty)
                                       (log (Display (st_progress 0)) w1)))
                   = inferred (events w))
        by (simpl; rewrite !inferred_app, !app_nil_r; exact I1).
      rewrite I0 in I2.
      unfold bind at 1; rewrite (st_ok display Hd).
      unfold bind at 1; rewrite (st_ok display Hd).
      simpl. rewrite !inferred_app, !app_nil_r. exact I2.
Qed.

Lemma chunks_submitted_once_in_order_witness :
  inferred (events (snd (generate_summary no_punkt failing_summarizer
                           quiet_display
                           (world_of (long_sentence ++ lit " Bye.")))))
  = [long_sentence ++ lit "  Bye."].
Proof.
  refine (proj1 (chunks_submitted_once_in_order no_punkt failing_summarizer
                   failing_answerer quiet_display (lit "what?")
                   (world_of (long_sentence ++ lit " Bye.")) _ _ _)
            [long_sentence ++ lit "  Bye."] _).
  - intros c; reflexivity.
  - discriminate.
  - discriminate.
  - reflexivity.
Defined.

(** ** [read_pdf] *)

(** One step of showing that a computation keeps a relation, given that
    the relation is reflexive and transitive. *)
Ltac keep_step refl trans :=
  match goal with
  | |- forall _, _ => intro
  | |- keeps _ (ret _) => apply (keeps_ret _ refl)
  | |- keeps _ (lift _) => apply (keeps_lift _ refl)
  | |- keeps _ get_self => apply (keeps_get_self _ refl)
  | |- keeps _ (bind _ _) => apply (keeps_bind _ trans)
  | |- keeps _ (try_except _ _ _) => apply (keeps_try_except _ trans)
  | |- keeps _ (try_finally _ _) => apply (keeps_try_finally _ trans)
  | |- keeps _ (for_enumerate _ _ _ _) => apply (keeps_for_enumerate _ refl trans)
  end.

Lemma same_summary_refl (w : world) : same_summary w w.
Proof. reflexivity. Qed.

Lemma same_summary_trans (w1 w2 w3 : world) :
  same_summary w1 w2 -> same_summary w2 w3 -> same_summary w1 w3.
Proof. unfold same_summary; congruence. Qed.

Lemma same_summary_st (display : st_call -> Result unit) (c : st_call) :
  keeps same_summary (st display c).
Proof. intros w; reflexivity. Qed.

Lemma same_summary_set_pdf_text (v : str) : keeps same_summary (set_pdf_text v).
Proof. intros w; reflexivity. Qed.

Section ReadPdfFacts.

Variable pdfplumber_open : bytes -> Result pdf_document.
Variable display : st_call -> Result unit.

Lemma read_pdf_same_summary (pdf_file : uploaded_file) :
  keeps same_summary (read_pdf pdfplumber_open display pdf_file).
Proof.
  unfold read_pdf, read_page.
  repeat first [ keep_step same_summary_refl same_summary_trans
               | apply same_summary_st | apply same_summary_set_pdf_text ].
Qed.

(** The loop over the pages, as far as the extraction returns. *)
Lemma read_pages_run (Hd : forall c, display c = Ok tt) total_pages
    (good : list pdf_page) :
  forallb page_ok good = true ->
  forall i rest w,
    exists w',
      for_enumerate i (good ++ rest) (read_page display total_pages) tt w
      = for_enumerate (i + List.length good) rest
          (read_page display total_pages) tt w'
      /\ pdf_text (self w')
         = pdf_text (self w) ++ List.concat (map page_line good)
      /\ summary (self w') = summary (self w).
Proof.
  induction good as [|p good IH]; intros Hok i rest w.
  - exists w. rewrite Nat.add_0_r, app_nil_r. repeat split.
  - simpl in Hok. apply andb_true_iff in Hok; destruct Hok as [Hp Hok].
    unfold page_ok in Hp.
    destruct (extract_text p) as [x|e] eqn:Ex; [|discriminate].
    set (w1 := log (Display (progress_bar_progress (progress_value i total_pages)))
                 (mk_world (mk_assistant (pdf_text (self w) ++ or_empty x ++ [NL])
                              (summary (self w))) (events w) (timer w))).
    assert (E1 : read_page display total_pages i p tt w = (Ok tt, w1)).
    { unfold read_page, bind, lift, get_self, set_pdf_text.
      rewrite Ex. rewrite (st_ok display Hd). reflexivity. }
    destruct (IH Hok (S i) rest w1) as (w' & E & P & Sm).
    exists w'. split; [|split].
    + change ((p :: good) ++ rest) with (p :: (good ++ rest)).
      change (for_enumerate i (p :: (good ++ rest))
                (read_page display total_pages) tt w)
        with (bind (read_page display total_pages i p tt)
                (fun s' => for_enumerate (S i) (good ++ rest)
                             (read_page display total_pages) s') w).
      unfold bind at 1. rewrite E1, E.
      replace (i + List.length (p :: good))%nat
        with (S i + List.length good)%nat by (simpl; lia).
      reflexivity.
    + rewrite P. simpl map. simpl List.concat. unfold page_line at 2.
      rewrite Ex. unfold w1; simpl. rewrite <- !app_assoc. reflexivity.
    + rewrite Sm. reflexivity.
Qed.

(** The body of [read_pdf] once the file is read and the document is
    opened: the pages before the first failing one are in the text. *)
Lemma read_pdf_opened (Hd : forall c, display c = Ok tt)
    (pdf_file : uploaded_file) (content : bytes) (pdf : pdf_document)
    (good rest : list pdf_page) (w : world) :
  file_read pdf_file = Ok content ->
  file_seek pdf_file = Ok tt ->
  pdfplumber_open content = Ok pdf ->
  pages pdf = good ++ rest ->
  forallb page_ok good = true ->
  match rest with [] => True | p :: _ => page_ok p = false end ->
  pdf_close pdf = Ok tt ->
  let '(result, w') := read_pdf pdfplumber_open display pdf_file w in
  pdf_text (self w') = List.concat (map page_line good)
  /\ result
     = match rest with
       | [] =>
           Ok (lit "PDF loaded successfully. Contains "
               ++ str_of_int (len (pdf_text (self w')))
               ++ lit " characters and "
               ++ str_of_int (Z.of_nat (List.length (pages pdf)))
               ++ lit " pages.")
       | p :: _ =>
           match extract_text p with
           | Raise e => Ok (lit "Error reading PDF: " ++ str_of_exn e)
           | Ok _ => Ok []
           end
       end.
Proof.
  intros Hr Hs Ho Hp Hgood Hrest Hc.
  unfold read_pdf, try_except.
  unfold bind at 1, lift at 1. rewrite Hr.
  unfold bind at 1, lift at 1. rewrite Hs.
  unfold bind at 1, set_pdf_text at 1.
  unfold bind at 1, lift at 1. rewrite Ho.
  unfold bind at 1, try_finally.
  unfold bind at 1. rewrite (st_ok display Hd).
  unfold bind at 1. rewrite Hp.
  match goal with |- context [for_enumerate 0 (good ++ rest) ?b tt ?w0] =>
    destruct (read_pages_run Hd (Z.of_nat (List.length (good ++ rest)))
                good Hgood 0 rest w0) as (w1 & E & P & _)
  end.
  rewrite E. simpl in P.
  destruct rest as [|p rest'].
  - simpl for_enumerate. unfold ret at 1. unfold lift at 1. rewrite Hc.
    unfold bind, get_self, ret. split; [exact P|reflexivity].
  - unfold page_ok in Hrest.
    destruct (extract_text p) as [x|e] eqn:Ex; [discriminate|].
    simpl for_enumerate. unfold bind at 1, read_page at 1.
    unfold bind at 1, lift at 1. rewrite Ex.
    unfold lift at 1. rewrite Hc. cbn [any_Exception].
    unfold ret. split; [exact P|reflexivity].
Qed.

End ReadPdfFacts.

(** X11: [read_pdf] always returns a message and never raises, whatever
    the file, pdfplumber and the display do; and it never writes to the
    stored summary: the summary of the document loaded before is still
    there after another document has been read. *)
Theorem read_pdf_returns_and_keeps_summary
    (pdfplumber_open : bytes -> Result pdf_document)
    (display : st_call -> Result unit)
    (pdf_file : uploaded_file) (w : world) :
  (exists message,
      fst (read_pdf pdfplumber_open display pdf_file w) = Ok message)
  /\ summary (self (snd (read_pdf pdfplumber_open display pdf_file w)))
     = summary (self w).
Proof.
  split; [|apply (read_pdf_same_summary pdfplumber_open display pdf_file w)].
  unfold read_pdf, try_except.
  match goal with |- context [let (_, _) := ?b w in _] =>
    destruct (b w) as [[message|e] w1]
  end.
  - exists message; reflexivity.
  - eexists; reflexivity.
Qed.

(** All pages read: the text and the message. *)
Lemma read_pdf_all_pages
    (pdfplumber_open : bytes -> Result pdf_document)
    (display : st_call -> Result unit)
    (pdf_file : uploaded_file) (content : bytes) (pdf : pdf_document)
    (w : world) :
  (forall c, display c = Ok tt) ->
  file_read pdf_file = Ok content ->
  file_seek pdf_file = Ok tt ->
  pdfplumber_open content = Ok pdf ->
  forallb page_ok (pages pdf) = true ->
  pdf_close pdf = Ok tt ->
  let '(result, w') := read_pdf pdfplumber_open display pdf_file w in
  pdf_text (self w') = List.concat (map page_line (pages pdf))
  /\ Z.of_nat (List.length (pages pdf)) <= len (pdf_text (self w'))
  /\ result
     = Ok (lit "PDF loaded successfully. Contains "
           ++ str_of_int (len (pdf_text (self w'))) ++ lit " characters and "
           ++ str_of_int (Z.of_nat (List.length (pages pdf))) ++ lit " pages.").
Proof.
  intros Hd Hr Hs Ho Hok Hc.
  pose proof (read_pdf_opened pdfplumber_open display Hd pdf_file content pdf
                (pages pdf) [] w Hr Hs Ho (eq_sym (app_nil_r _)) Hok I Hc) as H.
  destruct (read_pdf pdfplumber_open display pdf_file w) as [result w'].
  destruct H as [P R]. split; [exact P|]. split; [|exact R].
  rewrite P. clear -Hok. unfold len.
  induction (pages pdf) as [|p l IH]; [simpl; lia|].
  simpl in Hok. apply andb_true_iff in Hok; destruct Hok as [Hp Hok].
  simpl map. simpl List.concat. rewrite length_app.
  specialize (IH Hok). unfold page_line at 1. unfold page_ok in Hp.
  destruct (extract_text p); [|discriminate].
  rewrite length_app. simpl List.length in *. lia.
Qed.

(** X12: when the file is read, the document opens and closes and every
    page's extraction returns (display not raising), [read_pdf] replaces
    the document text by the texts of the pages in page order, each
    followed by a newline (a page without text gives an empty line), so
    the text has at least one character per page; and it returns the
    success message with the number of characters and of pages. *)
Theorem read_pdf_loads_pages
    (pdfplumber_open : bytes -> Result pdf_document)
    (display : st_call -> Result unit)
    (pdf_file : uploaded_file) (content : bytes) (pdf : pdf_document)
    (w : world) :
  (forall c, display c = Ok tt) ->
  file_read pdf_file = Ok content ->
  file_seek pdf_file = Ok tt ->
  pdfplumber_open content = Ok pdf ->
  forallb page_ok (pages pdf) = true ->
  pdf_close pdf = Ok tt ->
  let '(result, w') := read_pdf pdfplumber_open display pdf_file w in
  pdf_text (self w') = List.concat (map page_line (pages pdf))
  /\ Z.of_nat (List.length (pages pdf)) <= len (pdf_text (self w'))
  /\ result
     = Ok (lit "PDF loaded successfully. Contains "
           ++ str_of_int (len (pdf_text (self w'))) ++ lit " characters and "
           ++ str_of_int (Z.of_nat (List.length (pages pdf))) ++ lit " pages.").
Proof.
  apply read_pdf_all_pages.
Qed.

Lemma read_pdf_loads_pages_witness :
  pdf_text (self (snd (read_pdf (opens_as (mk_pdf [text_page (lit "Hello."); image_page] (Ok tt)))
                         quiet_display (file_of []) (world_of (lit "old")))))
  = lit "Hello." ++ [NL; NL].
Proof.
  pose proof (read_pdf_loads_pages
                (opens_as (mk_pdf [text_page (lit "Hello."); image_page] (Ok tt)))
                quiet_display (file_of []) []
                (mk_pdf [text_page (lit "Hello."); image_page] (Ok tt))
                (world_of (lit "old"))) as H.
  destruct (read_pdf (opens_as (mk_pdf [text_page (lit "Hello."); image_page] (Ok tt)))
              quiet_display (file_of []) (world_of (lit "old"))) as [result w'].
  destruct H as [P _]; try reflexivity.
  exact P.
Defined.

(** X13: a failed read is not rolled back. When [read()] itself raises,
    the document text is left as it was; once the file has been read the
    text is reset, so when pdfplumber cannot open the content the
    previous document is lost (the text is empty), and when the
    extraction of a page raises the text holds the pages before it. In
    each case the "Error reading PDF: ..." message is returned. *)
Theorem read_pdf_failure_is_not_rolled_back
    (pdfplumber_open : bytes -> Result pdf_document)
    (display : st_call -> Result unit)
    (pdf_file : uploaded_file) (w : world) :
  (forall e,
      file_read pdf_file = Raise e ->
      read_pdf pdfplumber_open display pdf_file w
      = (Ok (lit "Error reading PDF: " ++ str_of_exn e), w))
  /\ (forall content e,
         file_read pdf_file = Ok content ->
         file_seek pdf_file = Ok tt ->
         pdfplumber_open content = Raise e ->
         fst (read_pdf pdfplumber_open display pdf_file w)
         = Ok (lit "Error reading PDF: " ++ str_of_exn e)
         /\ pdf_text (self (snd (read_pdf pdfplumber_open display pdf_file w)))
            = [])
  /\ (forall content pdf good p rest e,
         (forall c, display c = Ok tt) ->
         file_read pdf_file = Ok content ->
         file_seek pdf_file = Ok tt ->
         pdfplumber_open content = Ok pdf ->
         pages pdf = good ++ p :: rest ->
         forallb page_ok good = true ->
         extract_text p = Raise e ->
         pdf_close pdf = Ok tt ->
         fst (read_pdf pdfplumber_open display pdf_file w)
         = Ok (lit "Error reading PDF: " ++ str_of_exn e)
         /\ pdf_text (self (snd (read_pdf pdfplumber_open display pdf_file w)))
            = List.concat (map page_line good)).
Proof.
  split; [|split].
  - intros e Hr. unfold read_pdf, try_except, bind, lift. rewrite Hr.
    reflexivity.
  - intros content e Hr Hs Ho.
    unfold read_pdf, try_except, bind, lift, set_pdf_text.
    rewrite Hr, Hs, Ho. split; reflexivity.
  - intros content pdf good p rest e Hd Hr Hs Ho Hp Hgood Hx Hc.
    assert (Hbad : page_ok p = false) by (unfold page_ok; rewrite Hx; reflexivity).
    pose proof (read_pdf_opened pdfplumber_open display Hd pdf_file content pdf
                  good (p :: rest) w Hr Hs Ho Hp Hgood Hbad Hc) as H.
    destruct (read_pdf pdfplumber_open display pdf_file w) as [result w'].
    destruct H as [P R]. rewrite Hx in R. split; [exact R|exact P].
Qed.

Lemma read_pdf_failure_is_not_rolled_back_witness :
  fst (read_pdf (opens_as (mk_pdf [text_page (lit "Hello."); broken_page] (Ok tt)))
         quiet_display (file_of []) (world_of (lit "old")))
  = Ok (lit "Error reading PDF: bad stream")
  /\ pdf_text (self (snd (read_pdf
                            (opens_as (mk_pdf [text_page (lit "Hello."); broken_page] (Ok tt)))
                            quiet_display (file_of []) (world_of (lit "old")))))
     = lit "Hello." ++ [NL].
Proof.
  refine (proj2 (proj2 (read_pdf_failure_is_not_rolled_back
            (opens_as (mk_pdf [text_page (lit "Hello."); broken_page] (Ok tt)))
            quiet_display (file_of []) (world_of (lit "old"))))
            [] (mk_pdf [text_page (lit "Hello."); broken_page] (Ok tt))
            [text_page (lit "Hello.")] broken_page []
            (OtherException (lit "bad stream")) _ _ _ _ _ _ _ _);
    reflexivity.
Defined.

(** ** From [read_pdf] to the aggregators *)

Section AfterReading.

Variable sent_tokenize : str -> Result (list str).
Variable _summarize_text : str -> run str.
Variable _answer_question_from_context : str -> str -> run (str * Q).
Variable display : st_call -> Result unit.

Lemma generate_summary_no_document (w : world) :
  pdf_text (self w) = [] ->
  generate_summary sent_tokenize _summarize_text display w
  = (Ok MSG_LOAD_FIRST, w).
Proof.
  intros H. unfold generate_summary, bind, get_self. rewrite H. reflexivity.
Qed.

Lemma generate_summary_blank_document (w : world) :
  isspace (pdf_text (self w)) = true ->
  generate_summary sent_tokenize _summarize_text display w
  = (Ok MSG_NO_TEXT_SUMMARY, w).
Proof.
  intros H. pose proof (isspace_truthy _ H) as Hdoc.
  unfold generate_summary. unfold bind at 1, get_self at 1.
  rewrite (truthy_true _ Hdoc). cbn [negb].
  unfold try_except, generate_summary_body. unfold bind at 1, get_self at 1.
  unfold bind at 1. rewrite split_text_blank by (right; exact H).
  reflexivity.
Qed.

Lemma answer_question_blank_document (question : str) (w : world) :
  isspace (pdf_text (self w)) = true -> strip question <> [] ->
  answer_question sent_tokenize _answer_question_from_context display question w
  = (Ok MSG_NO_TEXT_ANSWER, w).
Proof.
  intros H Hq. pose proof (isspace_truthy _ H) as Hdoc.
  unfold answer_question. unfold bind at 1, get_self at 1.
  rewrite (truthy_true _ Hdoc), (truthy_true _ Hq). cbn [negb].
  unfold try_except, answer_question_body. unfold bind at 1, get_self at 1.
  unfold bind at 1. rewrite split_text_blank by (right; exact H).
  reflexivity.
Qed.

End AfterReading.

Lemma concat_all_space (l : list str) :
  (forall s, In s l -> forallb isspace_char s = true) ->
  forallb isspace_char (List.concat l) = true.
Proof.
  induction l as [|s l IH]; intros H; [reflexivity|].
  simpl. rewrite forallb_app, (H s (or_introl eq_refl)). simpl.
  apply IH. intros s' Hs'; apply H; right; exact Hs'.
Qed.

(** X14: a document in which no page has text (scanned pages: the
    extraction returns nothing, or white space only) is read with the
    success message, and after that [generate_summary] and
    [answer_question] (non-blank question) return their "Unable to
    extract meaningful text" message without submitting a chunk: the
    text is one blank line per page. *)
Theorem pdf_without_text_is_loaded_but_blank
    (pdfplumber_open : bytes -> Result pdf_document)
    (sent_tokenize : str -> Result (list str))
    (_summarize_text : str -> run str)
    (_answer_question_from_context : str -> str -> run (str * Q))
    (display : st_call -> Result unit)
    (pdf_file : uploaded_file) (content : bytes) (pdf : pdf_document)
    (question : str) (w : world) :
  (forall c, display c = Ok tt) ->
  file_read pdf_file = Ok content ->
  file_seek pdf_file = Ok tt ->
  pdfplumber_open content = Ok pdf ->
  pdf_close pdf = Ok tt ->
  pages pdf <> [] ->
  (forall p, In p (pages pdf) ->
             exists extracted,
               extract_text p = Ok extracted
               /\ forallb isspace_char (or_empty extracted) = true) ->
  strip question <> [] ->
  let w' := snd (read_pdf pdfplumber_open display pdf_file w) in
  isspace (pdf_text (self w')) = true
  /\ generate_summary sent_tokenize _summarize_text display w'
     = (Ok (lit "Unable to extract meaningful text from the PDF."), w')
  /\ answer_question sent_tokenize _answer_question_from_context display
       question w'
     = (Ok (lit "Unable to extract meaningful text from the PDF to answer questions."),
        w').
Proof.
  intros Hd Hr Hs Ho Hc Hne Hblank Hq w'.
  assert (Hok : forallb page_ok (pages pdf) = true).
  { apply forallb_forall. intros p Hp.
    destruct (Hblank p Hp) as (x & Ex & _). unfold page_ok; rewrite Ex.
    reflexivity. }
  pose proof (read_pdf_all_pages pdfplumber_open display pdf_file content pdf
                w Hd Hr Hs Ho Hok Hc) as H.
  assert (B : isspace (pdf_text (self w')) = true).
  { unfold w'.
    destruct (read_pdf pdfplumber_open display pdf_file w) as [result w1].
    destruct H as (P & L & _). simpl snd. unfold isspace.
    apply andb_true_iff; split.
    - destruct (pdf_text (self w1)) as [|c r]; [|reflexivity].
      exfalso. change (len []) with 0 in L.
      destruct (pages pdf); [congruence|]. simpl List.length in L. lia.
    - rewrite P. apply concat_all_space. intros s Hin.
      apply in_map_iff in Hin; destruct Hin as (p & <- & Hp).
      destruct (Hblank p Hp) as (x & Ex & Hx). unfold page_line; rewrite Ex.
      rewrite forallb_app, Hx. reflexivity. }
  split; [exact B|]. split.
  - apply generate_summary_blank_document, B.
  - apply answer_question_blank_document; assumption.
Qed.

Lemma pdf_without_text_is_loaded_but_blank_witness :
  isspace (pdf_text (self (snd (read_pdf
             (opens_as (mk_pdf [image_page; text_page (lit "  ")] (Ok tt)))
             quiet_display (file_of []) (world_of (lit "old")))))) = true.
Proof.
  refine (proj1 (pdf_without_text_is_loaded_but_blank
            (opens_as (mk_pdf [image_page; text_page (lit "  ")] (Ok tt)))
            no_punkt constant_summarizer (constant_answerer 1) quiet_display
            (file_of []) [] (mk_pdf [image_page; text_page (lit "  ")] (Ok tt))
            (lit "what?") (world_of (lit "old")) _ _ _ _ _ _ _ _)).
  - intros c; reflexivity.
  - reflexivity.
  - reflexivity.
  - reflexivity.
  - reflexivity.
  - discriminate.
  - intros p [<-|[<-|[]]]; eexists; split; reflexivity.
  - discriminate.
Defined.

(** X15: a document without pages is read with the success message
    "Contains 0 characters and 0 pages.", and the text it leaves is
    empty: after it both aggregators still answer
    "Please load a PDF first.". *)
Theorem pdf_without_pages_is_not_loaded
    (pdfplumber_open : bytes -> Result pdf_document)
    (sent_tokenize : str -> Result (list str))
    (_summarize_text : str -> run str)
    (_answer_question_from_context : str -> str -> run (str * Q))
    (display : st_call -> Result unit)
    (pdf_file : uploaded_file) (content : bytes) (pdf : pdf_document)
    (question : str) (w : world) :
  (forall c, display c = Ok tt) ->
  file_read pdf_file = Ok content ->
  file_seek pdf_file = Ok tt ->
  pdfplumber_open content = Ok pdf ->
  pdf_close pdf = Ok tt ->
  pages pdf = [] ->
  let w' := snd (read_pdf pdfplumber_open display pdf_file w) in
  fst (read_pdf pdfplumber_open display pdf_file w)
  = Ok (lit "PDF loaded successfully. Contains 0 characters and 0 pages.")
  /\ generate_summary sent_tokenize _summarize_text display w'
     = (Ok (lit "Please load a PDF first."), w')
  /\ answer_question sent_tokenize _answer_question_from_context display
       question w'
     = (Ok (lit "Please load a PDF first."), w').
Proof.
  intros Hd Hr Hs Ho Hc Hp w'.
  assert (Hok : forallb page_ok (pages pdf) = true) by (rewrite Hp; reflexivity).
  pose proof (read_pdf_all_pages pdfplumber_open display pdf_file content pdf
                w Hd Hr Hs Ho Hok Hc) as H.
  unfold w'.
  destruct (read_pdf pdfplumber_open display pdf_file w) as [result w1].
  destruct H as (P & _ & R). rewrite Hp in P, R. simpl in P. simpl fst; simpl snd.
  rewrite P in R. split; [exact R|]. split.
  - apply generate_summary_no_document, P.
  - apply answer_question_no_document, P.
Qed.

Lemma pdf_without_pages_is_not_loaded_witness :
  fst (read_pdf (opens_as (mk_pdf [] (Ok tt))) quiet_display (file_of [])
         (world_of (lit "old")))
  = Ok (lit "PDF loaded successfully. Contains 0 characters and 0 pages.").
Proof.
  refine (proj1 (pdf_without_pages_is_not_loaded
            (opens_as (mk_pdf [] (Ok tt))) no_punkt constant_summarizer
            (constant_answerer 1) quiet_display (file_of []) []
            (mk_pdf [] (Ok tt)) (lit "what?") (world_of (lit "old"))
            _ _ _ _ _ _)); try reflexivity.
Defined.

(** ** [get_download_link] *)

Lemma list_ind3 {A} (P : list A -> Prop) :
  P [] -> (forall a, P [a]) -> (forall a b, P [a; b]) ->
  (forall a b c r, P r -> P (a :: b :: c :: r)) ->
  forall l, P l.
Proof.
  intros H0 H1 H2 H3.
  fix IH 1. intros [|a [|b [|c r]]]; [exact H0|apply H1|apply H2|].
  apply H3, IH.
Qed.

Lemma b64_char_alphabet (s : N) : In (b64_char s) b64_alphabet \/ b64_char s = PAD.
Proof.
  unfold b64_char.
  destruct (Nat.lt_ge_cases (N.to_nat s) (List.length b64_alphabet)) as [H|H].
  - left; apply nth_In, H.
  - right; apply nth_overflow, H.
Qed.

Lemma sextets :
  forallb (fun s => (b64_index (b64_char s) =? s)%N && negb (b64_char s =? PAD)%N)
    (map N.of_nat (seq 0 64)) = true.
Proof. vm_compute; reflexivity. Qed.

Lemma b64_index_char (s : N) :
  (s < 64)%N -> b64_index (b64_char s) = s /\ b64_char s <> PAD.
Proof.
  intros H. pose proof sextets as F. rewrite forallb_forall in F.
  specialize (F s). rewrite andb_true_iff, negb_true_iff in F.
  destruct F as [F1 F2].
  - apply in_map_iff. exists (N.to_nat s). split; [lia|].
    apply in_seq. lia.
  - split; [apply N.eqb_eq, F1|apply N.eqb_neq, F2].
Qed.

Ltac div_mod_lia := zify; Z.to_euclidean_division_equations; lia.

Lemma b64_round_trip (bs : bytes) :
  Forall (fun b => (b < 256)%N) bs -> b64decode (b64encode bs) = bs.
Proof.
  induction bs as [|a|a b|a b c r IH] using list_ind3; intros H.
  - reflexivity.
  - inversion_clear H as [|? ? Ha _].
    assert (S0 : (a / 4 < 64)%N) by div_mod_lia.
    assert (S1 : ((a mod 4) * 16 < 64)%N) by div_mod_lia.
    cbn [b64encode b64decode]. rewrite N.eqb_refl.
    rewrite (proj1 (b64_index_char _ S0)), (proj1 (b64_index_char _ S1)).
    f_equal. div_mod_lia.
  - inversion_clear H as [|? ? Ha H']. inversion_clear H' as [|? ? Hb _].
    assert (S0 : (a / 4 < 64)%N) by div_mod_lia.
    assert (S1 : ((a mod 4) * 16 + b / 16 < 64)%N) by div_mod_lia.
    assert (S2 : ((b mod 16) * 4 < 64)%N) by div_mod_lia.
    cbn [b64encode b64decode]. rewrite N.eqb_refl.
    rewrite (proj2 (N.eqb_neq _ _) (proj2 (b64_index_char _ S2))).
    rewrite (proj1 (b64_index_char _ S0)), (proj1 (b64_index_char _ S1)),
            (proj1 (b64_index_char _ S2)).
    f_equal; [div_mod_lia|]. f_equal. div_mod_lia.
  - inversion_clear H as [|? ? Ha H']. inversion_clear H' as [|? ? Hb H''].
    inversion_clear H'' as [|? ? Hc Hr].
    assert (S0 : (a / 4 < 64)%N) by div_mod_lia.
    assert (S1 : ((a mod 4) * 16 + b / 16 < 64)%N) by div_mod_lia.
    assert (S2 : ((b mod 16) * 4 + c / 64 < 64)%N) by div_mod_lia.
    assert (S3 : (c mod 64 < 64)%N) by div_mod_lia.
    change (b64encode (a :: b :: c :: r))
      with (b64_char (a / 4) :: b64_char ((a mod 4) * 16 + b / 16)
            :: b64_char ((b mod 16) * 4 + c / 64) :: b64_char (c mod 64)
            :: b64encode r)%N.
    cbn [b64decode].
    rewrite (proj2 (N.eqb_neq _ _) (proj2 (b64_index_char _ S2))).
    rewrite (proj2 (N.eqb_neq _ _) (proj2 (b64_index_char _ S3))).
    rewrite (proj1 (b64_index_char _ S0)), (proj1 (b64_index_char _ S1)),
            (proj1 (b64_index_char _ S2)), (proj1 (b64_index_char _ S3)).
    rewrite (IH Hr).
    f_equal; [div_mod_lia|]. f_equal; [div_mod_lia|]. f_equal. div_mod_lia.
Qed.

(** X16: decoding the base64 of a byte sequence gives the bytes back:
    [b64encode] loses nothing, also in the padded last group. *)
Theorem b64decode_b64encode (bs : bytes) :
  Forall (fun b => (b < 256)%N) bs -> b64decode (b64encode bs) = bs.
Proof. apply b64_round_trip. Qed.

Lemma b64decode_b64encode_witness :
  b64decode (b64encode (lit "Hi!")) = lit "Hi!".
Proof.
  apply b64decode_b64encode.
  repeat constructor.
Defined.

Lemma b64encode_alphabet (bs : bytes) :
  forall c, In c (b64encode bs) -> In c b64_alphabet \/ c = PAD.
Proof.
  induction bs as [|a|a b|a b c0 r IH] using list_ind3; intros c Hc.
  - contradiction.
  - cbn [b64encode] in Hc.
    destruct Hc as [<-|[<-|[<-|[<-|[]]]]];
      first [apply b64_char_alphabet | right; reflexivity].
  - cbn [b64encode] in Hc.
    destruct Hc as [<-|[<-|[<-|[<-|[]]]]];
      first [apply b64_char_alphabet | right; reflexivity].
  - change (b64encode (a :: b :: c0 :: r))
      with (b64_char (a / 4) :: b64_char ((a mod 4) * 16 + b / 16)
            :: b64_char ((b mod 16) * 4 + c0 / 64) :: b64_char (c0 mod 64)
            :: b64encode r)%N in Hc.
    destruct Hc as [<-|[<-|[<-|[<-|Hc]]]];
      first [apply b64_char_alphabet | apply IH, Hc].
Qed.

Lemma b64encode_no_quote (bs : bytes) : ~ In QUOTE (b64encode bs).
Proof.
  intros H. destruct (b64encode_alphabet bs QUOTE H) as [Hin|E];
    [|discriminate E].
  revert Hin. vm_compute. intuition discriminate.
Qed.

Lemma b64encode_length (bs : bytes) :
  List.length (b64encode bs) = (4 * ((List.length bs + 2) / 3))%nat.
Proof.
  induction bs as [|a|a b|a b c r IH] using list_ind3; try reflexivity.
  change (b64encode (a :: b :: c :: r))
    with (b64_char (a / 4) :: b64_char ((a mod 4) * 16 + b / 16)
          :: b64_char ((b mod 16) * 4 + c / 64) :: b64_char (c mod 64)
          :: b64encode r)%N.
  simpl List.length. rewrite IH.
  replace (S (S (S (List.length r))) + 2)%nat
    with ((List.length r + 2) + 1 * 3)%nat by lia.
  rewrite Nat.div_add by discriminate. lia.
Qed.

Lemma utf8_char_none (c : char) : utf8_char c = None <-> is_surrogate c = true.
Proof.
  unfold utf8_char, is_surrogate.
  destruct (N.ltb_spec c 128); [split; [discriminate|]|].
  { intros E; apply andb_true_iff in E; destruct E as [E _].
    apply N.leb_le in E; lia. }
  destruct (N.ltb_spec c 2048); [split; [discriminate|]|].
  { intros E; apply andb_true_iff in E; destruct E as [E _].
    apply N.leb_le in E; lia. }
  destruct ((55296 <=? c)%N && (c <=? 57343)%N); [split; reflexivity|].
  destruct (c <? 65536)%N; split; discriminate.
Qed.

Lemma some_eq {A} (a b : A) : Some a = Some b -> a = b.
Proof. intros H; injection H as H; exact H. Qed.

Lemma utf8_char_bytes (c : char) (bs : bytes) :
  (c < 1114112)%N -> utf8_char c = Some bs ->
  Forall (fun b => (b < 256)%N) bs
  /\ (1 <= List.length bs <= 4)%nat.
Proof.
  unfold utf8_char. intros Hc.
  destruct (N.ltb_spec c 128);
    [intros E; apply some_eq in E; subst bs;
     split; [repeat constructor; lia|simpl; lia]|].
  destruct (N.ltb_spec c 2048);
    [intros E; apply some_eq in E; subst bs;
     split; [repeat apply Forall_cons; try apply Forall_nil; div_mod_lia
            |simpl; lia]|].
  destruct ((55296 <=? c)%N && (c <=? 57343)%N); [discriminate|].
  destruct (N.ltb_spec c 65536);
    intros E; apply some_eq in E; subst bs;
    (split; [repeat apply Forall_cons; try apply Forall_nil; div_mod_lia
            |simpl; lia]).
Qed.

(** X17: [text.encode()] fails exactly when the text holds a surrogate
    code point; otherwise it gives bytes (values below 256), between one
    and four per character, and a text of ASCII characters is encoded by
    its own code points. *)
Theorem encode_utf8 (text : str) :
  (encode text = None <-> existsb is_surrogate text = true)
  /\ (forall bs,
         (forall c, In c text -> (c < 1114112)%N) ->
         encode text = Some bs ->
         Forall (fun b => (b < 256)%N) bs
         /\ (List.length text <= List.length bs <= 4 * List.length text)%nat)
  /\ ((forall c, In c text -> (c < 128)%N) -> encode text = Some text).
Proof.
  split; [|split].
  - induction text as [|c r IH]; [split; discriminate|].
    simpl encode. simpl existsb. rewrite orb_true_iff, <- IH, <- utf8_char_none.
    destruct (utf8_char c), (encode r); split; intros H;
      try discriminate; try tauto.
    destruct H; discriminate.
  - induction text as [|c r IH]; intros bs Hc.
    + intros [= <-]. split; [constructor|simpl; lia].
    + simpl encode.
      destruct (utf8_char c) as [b1|] eqn:E1; [|discriminate].
      destruct (encode r) as [b2|] eqn:E2; [|discriminate].
      intros [= <-].
      destruct (utf8_char_bytes c b1 (Hc c (or_introl eq_refl)) E1) as [F1 L1].
      destruct (IH b2 (fun x Hx => Hc x (or_intror Hx)) eq_refl) as [F2 L2].
      split; [apply Forall_app; split; assumption|].
      rewrite length_app. simpl List.length. lia.
  - induction text as [|c r IH]; intros Hc; [reflexivity|].
    simpl encode. rewrite (IH (fun x Hx => Hc x (or_intror Hx))).
    unfold utf8_char.
    destruct (N.ltb_spec c 128) as [_|H]; [reflexivity|].
    specialize (Hc c (or_introl eq_refl)); lia.
Qed.

Lemma encode_utf8_witness : encode (lit "Hi!") = Some (lit "Hi!").
Proof.
  apply (proj2 (proj2 (encode_utf8 (lit "Hi!")))).
  intros c [<-|[<-|[<-|[]]]]; reflexivity.
Defined.

(** X18: for a text without surrogates [get_download_link] returns the
    anchor whose [href] is the data URL with the base64 of the text's
    UTF-8 bytes: decoding the payload gives these bytes back, the payload
    has 4 characters for every 3 bytes (rounded up), and it holds no
    double quote, so whatever the text is it cannot end the [href]
    attribute. The file name and the link text are copied as they are.
    For a text with a surrogate the call raises. *)
Theorem download_link_carries_the_text (text filename link_text : str) :
  (forall c, In c text -> (c < 1114112)%N) ->
  (existsb is_surrogate text = true ->
   get_download_link text filename link_text = None)
  /\ (existsb is_surrogate text = false ->
      exists bs payload,
        encode text = Some bs
        /\ get_download_link text filename link_text
           = Some (lit "<a href=" ++ [QUOTE] ++ lit "data:file/txt;base64,"
                   ++ payload ++ [QUOTE] ++ lit " download=" ++ [QUOTE]
                   ++ filename ++ [QUOTE] ++ lit ">" ++ link_text ++ lit "</a>")
        /\ b64decode payload = bs
        /\ ~ In QUOTE payload
        /\ List.length payload = (4 * ((List.length bs + 2) / 3))%nat).
Proof.
  intros Hvalid.
  assert (None_iff : encode text = None <-> existsb is_surrogate text = true).
  { clear. induction text as [|c r IH]; [split; discriminate|].
    simpl encode. simpl existsb. rewrite orb_true_iff, <- IH, <- utf8_char_none.
    destruct (utf8_char c), (encode r); split; intros H;
      try discriminate; try tauto.
    destruct H; discriminate. }
  assert (Bytes : forall bs, encode text = Some bs ->
                             Forall (fun b => (b < 256)%N) bs).
  { revert Hvalid. clear. induction text as [|c r IH]; intros Hc bs.
    - intros [= <-]; constructor.
    - simpl encode.
      destruct (utf8_char c) as [b1|] eqn:E1; [|discriminate].
      destruct (encode r) as [b2|] eqn:E2; [|discriminate].
      intros [= <-]. apply Forall_app; split.
      + apply (utf8_char_bytes c b1 (Hc c (or_introl eq_refl)) E1).
      + apply (IH (fun x Hx => Hc x (or_intror Hx)) b2 eq_refl). }
  unfold get_download_link. split.
  - intros Hs. rewrite (proj2 None_iff Hs). reflexivity.
  - intros Hs. destruct (encode text) as [bs|] eqn:E.
    + exists bs, (b64encode bs). split; [reflexivity|]. split; [reflexivity|].
      split; [apply b64_round_trip, Bytes; reflexivity|].
      split; [apply b64encode_no_quote|apply b64encode_length].
    + rewrite (proj1 None_iff eq_refl) in Hs. discriminate.
Qed.

Lemma download_link_carries_the_text_witness :
  get_download_link (lit "Hi!") (lit "summary.txt") (lit "Download Summary")
  = Some (lit "<a href=" ++ [QUOTE] ++ lit "data:file/txt;base64,SGkh"
          ++ [QUOTE] ++ lit " download=" ++ [QUOTE] ++ lit "summary.txt"
          ++ [QUOTE] ++ lit ">Download Summary</a>").
Proof.
  destruct (download_link_carries_the_text (lit "Hi!") (lit "summary.txt")
              (lit "Download Summary")) as [_ H].
  - intros c [<-|[<-|[<-|[]]]]; reflexivity.
  - destruct (H eq_refl) as (bs & payload & _ & E & _). reflexivity.
Defined.

(** ** The models of the assistant *)

Section ModelFacts.

Variable from_pretrained : Models.auto_class -> str -> Result Models.handle.
Variable spinner : str -> Result unit.
Variable display : st_call -> Result unit.
Variable tokenizer_call : Models.handle -> str -> Result Models.tokens.
Variable generate : Models.handle -> Models.tokens -> Result (list Models.tokens).
Variable decode : Models.handle -> Models.tokens -> Result str.
Variable qa_tokenizer_call :
  Models.handle -> str -> str -> Result (list Models.tokens).
Variable qa_model_call :
  Models.handle -> list Models.tokens -> Result (list Q * list Q).
Variable ids_to_string : Models.handle -> Models.tokens -> Result str.
Variables float_add float_div : Q -> Q -> Q.

Local Abbreviation load := (Models._load_models from_pretrained spinner display).

Lemma load_models_loaded (ms : Models.t) (w : world) :
  Models.models_loaded ms = true -> load ms w = (Ok true, ms, w).
Proof.
  intros H.
  unfold Models._load_models, Models.bind_mm, Models.get_models, Models.ret_mm.
  cbv beta iota. rewrite H. reflexivity.
Qed.

Ltac load_done Hd H :=
  cbv beta iota; rewrite ?Hd; cbv beta iota;
  first [reflexivity | eexists; split; [reflexivity|exact H]].

Lemma load_models_run (ms : Models.t) (w : world) :
  (forall c, display c = Ok tt) ->
  Models.models_loaded ms = false ->
  match Models.load_outcome from_pretrained spinner with
  | Ok (h1, h2, h3, h4) =>
      load ms w
      = (Ok true, Models.mk (Some h1) (Some h2) (Some h3) (Some h4) true, w)
  | Raise e =>
      exists ms',
        load ms w
        = (Ok false, ms',
           log (Display (st_error (lit "Error loading models: " ++ str_of_exn e))) w)
        /\ Models.models_loaded ms' = false
  end.
Proof.
  intros Hd H.
  unfold Models._load_models, Models.load_outcome, Models.bind_mm,
    Models.try_except_mm, Models.lift_r, Models.lift_mm, Models.get_models,
    Models.ret_mm, Models.set_summarizer_tokenizer, Models.set_summarizer_model,
    Models.set_qa_tokenizer, Models.set_qa_model, Models.set_models_loaded,
    st, any_Exception, log.
  cbv beta iota. rewrite H. cbn [negb].
  destruct (spinner (lit "Loading AI models (first use)...")) as [u|e];
    [|load_done Hd H].
  destruct (from_pretrained Models.AutoTokenizer (lit "t5-small")) as [h1|e];
    [|load_done Hd H].
  destruct (from_pretrained Models.AutoModelForSeq2SeqLM (lit "t5-small"))
    as [h2|e]; [|load_done Hd H].
  destruct (from_pretrained Models.AutoTokenizer
              (lit "distilbert-base-cased-distilled-squad")) as [h3|e];
    [|load_done Hd H].
  destruct (from_pretrained Models.AutoModelForQuestionAnswering
              (lit "distilbert-base-cased-distilled-squad")) as [h4|e];
    load_done Hd H.
Qed.

End ModelFacts.

(** X19: once the models are loaded, [_load_models] returns [True]
    without calling [from_pretrained], the spinner or the display: the
    fields and the world are left as they are. *)
Theorem load_models_once
    (from_pretrained : Models.auto_class -> str -> Result Models.handle)
    (spinner : str -> Result unit) (display : st_call -> Result unit)
    (ms : Models.t) (w : world) :
  Models.models_loaded ms = true ->
  Models._load_models from_pretrained spinner display ms w = (Ok true, ms, w).
Proof. apply load_models_loaded. Qed.

Lemma load_models_once_witness :
  Models._load_models Models.offline (fun _ => Ok tt) quiet_display
    (Models.mk (Some 1%N) (Some 2%N) (Some 3%N) (Some 4%N) true) (world_of [])
  = (Ok true, Models.mk (Some 1%N) (Some 2%N) (Some 3%N) (Some 4%N) true,
     world_of []).
Proof. apply load_models_once. reflexivity. Defined.

(** X20: while the models are not loaded, [_load_models] (display not
    raising) never raises. When the spinner and the four calls of
    [from_pretrained] return, it stores the four handles, sets
    [models_loaded] and returns [True]; when one of them raises, it
    shows "Error loading models: ...", returns [False] and leaves
    [models_loaded] at [False], so that the next call tries again. *)
Theorem load_models_first_use
    (from_pretrained : Models.auto_class -> str -> Result Models.handle)
    (spinner : str -> Result unit) (display : st_call -> Result unit)
    (ms : Models.t) (w : world) :
  (forall c, display c = Ok tt) ->
  Models.models_loaded ms = false ->
  match Models.load_outcome from_pretrained spinner with
  | Ok (h1, h2, h3, h4) =>
      Models._load_models from_pretrained spinner display ms w
      = (Ok true, Models.mk (Some h1) (Some h2) (Some h3) (Some h4) true, w)
  | Raise e =>
      exists ms',
        Models._load_models from_pretrained spinner display ms w
        = (Ok false, ms',
           log (Display (st_error (lit "Error loading models: " ++ str_of_exn e))) w)
        /\ Models.models_loaded ms' = false
  end.
Proof. apply load_models_run. Qed.

Lemma load_models_first_use_witness :
  exists ms',
    Models._load_models Models.offline (fun _ => Ok tt) quiet_display
      Models.fresh (world_of [])
    = (Ok false, ms',
       log (Display (st_error (lit "Error loading models: Connection error")))
         (world_of []))
    /\ Models.models_loaded ms' = false.
Proof.
  apply (load_models_first_use Models.offline (fun _ => Ok tt) quiet_display
           Models.fresh (world_of [])).
  - intros c; reflexivity.
  - reflexivity.
Defined.

Lemma bind_lift_r {A B} (r : Result A) (k : A -> Models.MM B)
    (ms : Models.t) (w : world) :
  Models.bind_mm (Models.lift_r r) k ms w
  = match r with
    | Ok a => k a ms w
    | Raise e => (Raise e, ms, w)
    end.
Proof. unfold Models.bind_mm, Models.lift_r. destruct r; reflexivity. Qed.

Lemma clamp_range (x : Q) :
  (0 <= Models.py_min 1 (Models.py_max 0 x) <= 1)%Q.
Proof.
  unfold Models.py_min, Models.py_max.
  destruct (Qltb 0 x) eqn:P.
  - apply Qltb_true in P.
    destruct (Qltb x 1) eqn:L.
    + apply Qltb_true in L. split; apply Qlt_le_weak; assumption.
    + split; [discriminate|apply Qle_refl].
  - destruct (Qltb 0 1) eqn:L; [|discriminate L].
    split; [apply Qle_refl|discriminate].
Qed.

Ltac load_failed shown H :=
  cbv beta iota;
  match goal with |- context [shown ?c] => destruct (shown c) end;
  cbv beta iota;
  (split; [intros E; cbn in E; rewrite H in E; discriminate E
          |intros E; discriminate E]).

(** X21: [_load_models] keeps the fields consistent, whatever the
    collaborators do (the display may raise): if [models_loaded] implied
    that the four handles are present before the call, it does so after
    it; and when the call returns [True] the models are loaded and the
    four handles are present. *)
Theorem load_models_keeps_handles
    (from_pretrained : Models.auto_class -> str -> Result Models.handle)
    (spinner : str -> Result unit) (display : st_call -> Result unit)
    (ms : Models.t) (w : world) :
  (Models.models_loaded ms = true -> Models.all_present ms = true) ->
  let '(r, ms', w') := Models._load_models from_pretrained spinner display ms w in
  (Models.models_loaded ms' = true -> Models.all_present ms' = true)
  /\ (r = Ok true ->
      Models.models_loaded ms' = true /\ Models.all_present ms' = true).
Proof.
  intros Inv.
  destruct (Models.models_loaded ms) eqn:H.
  - rewrite (load_models_loaded from_pretrained spinner display ms w H).
    split; [intros _; apply Inv; reflexivity|].
    intros _; split; [exact H|apply Inv; reflexivity].
  - unfold Models._load_models, Models.bind_mm,
      Models.try_except_mm, Models.lift_r, Models.lift_mm, Models.get_models,
      Models.ret_mm, Models.set_summarizer_tokenizer, Models.set_summarizer_model,
      Models.set_qa_tokenizer, Models.set_qa_model, Models.set_models_loaded,
      st, any_Exception, log.
    cbv beta iota. rewrite H. cbn [negb].
    destruct (spinner (lit "Loading AI models (first use)...")) as [u|e];
      [|load_failed display H].
    destruct (from_pretrained Models.AutoTokenizer (lit "t5-small")) as [h1|e];
      [|load_failed display H].
    destruct (from_pretrained Models.AutoModelForSeq2SeqLM (lit "t5-small"))
      as [h2|e]; [|load_failed display H].
    destruct (from_pretrained Models.AutoTokenizer
                (lit "distilbert-base-cased-distilled-squad")) as [h3|e];
      [|load_failed display H].
    destruct (from_pretrained Models.AutoModelForQuestionAnswering
                (lit "distilbert-base-cased-distilled-squad")) as [h4|e];
      [|load_failed display H].
    cbv beta iota. split; [reflexivity|intros _; split; reflexivity].
Qed.

Lemma load_models_keeps_handles_witness :
  let '(r, ms', w') :=
    Models._load_models (fun _ _ => Ok 7%N) (fun _ => Ok tt) quiet_display
      Models.fresh (world_of []) in
  (Models.models_loaded ms' = true -> Models.all_present ms' = true)
  /\ (r = Ok true ->
      Models.models_loaded ms' = true /\ Models.all_present ms' = true).
Proof.
  apply (load_models_keeps_handles (fun _ _ => Ok 7%N) (fun _ => Ok tt)
           quiet_display Models.fresh (world_of [])).
  discriminate.
Defined.

(** X22: when the models cannot be loaded (display not raising),
    [_summarize_text] returns the text "Failed to load AI models." as if
    it were a summary, and [_answer_question_from_context] returns it as
    an answer with confidence 0; neither raises, and the models stay
    unloaded. With its confidence of 0 such an answer never replaces the
    running best of [answer_question]. *)
Theorem failed_load_is_returned_as_text
    (from_pretrained : Models.auto_class -> str -> Result Models.handle)
    (spinner : str -> Result unit) (display : st_call -> Result unit)
    (tokenizer_call : Models.handle -> str -> Result Models.tokens)
    (generate : Models.handle -> Models.tokens -> Result (list Models.tokens))
    (decode : Models.handle -> Models.tokens -> Result str)
    (qa_tokenizer_call : Models.handle -> str -> str -> Result (list Models.tokens))
    (qa_model_call : Models.handle -> list Models.tokens -> Result (list Q * list Q))
    (ids_to_string : Models.handle -> Models.tokens -> Result str)
    (float_add float_div : Q -> Q -> Q)
    (ms : Models.t) (w : world) (e : exn) (text question : str) :
  (forall c, display c = Ok tt) ->
  Models.models_loaded ms = false ->
  Models.load_outcome from_pretrained spinner = Raise e ->
  (exists ms' w',
      Models._summarize_text from_pretrained spinner display tokenizer_call
        generate decode text ms w
      = (Ok (lit "Failed to load AI models."), ms', w')
      /\ Models.models_loaded ms' = false)
  /\ (exists ms' w',
         Models._answer_question_from_context from_pretrained spinner display
           qa_tokenizer_call qa_model_call ids_to_string float_add float_div
           question text ms w
         = (Ok (lit "Failed to load AI models.", 0%Q), ms', w')
         /\ Models.models_loaded ms' = false)
  /\ (forall best, (0 <= snd best)%Q ->
                   better best (lit "Failed to load AI models.", 0%Q) = best).
Proof.
  intros Hd H He.
  pose proof (load_models_run from_pretrained spinner display ms w Hd H) as L.
  rewrite He in L. destruct L as (ms' & L & Hl).
  split; [|split].
  - exists ms'; eexists; split; [|exact Hl].
    unfold Models._summarize_text. unfold Models.bind_mm at 1. rewrite L.
    reflexivity.
  - exists ms'; eexists; split; [|exact Hl].
    unfold Models._answer_question_from_context.
    unfold Models.bind_mm at 1. rewrite L. reflexivity.
  - intros best Hb. destruct (better_cases best (lit "Failed to load AI models.") 0)
      as [(_ & Hlt & _)|[E _]]; [|exact E].
    exfalso. exact (Qlt_not_le _ _ Hlt Hb).
Qed.

Lemma failed_load_is_returned_as_text_witness :
  exists ms' w',
    Models._summarize_text Models.offline (fun _ => Ok tt) quiet_display
      (fun _ _ => Ok []) (fun _ _ => Ok []) (fun _ _ => Ok [])
      (lit "Some text.") Models.fresh (world_of [])
    = (Ok (lit "Failed to load AI models."), ms', w')
    /\ Models.models_loaded ms' = false.
Proof.
  refine (proj1 (failed_load_is_returned_as_text Models.offline (fun _ => Ok tt)
            quiet_display (fun _ _ => Ok []) (fun _ _ => Ok []) (fun _ _ => Ok [])
            (fun _ _ _ => Ok []) (fun _ _ => Ok ([], [])) (fun _ _ => Ok [])
            Qplus Qdiv Models.fresh (world_of [])
            (OtherException (lit "Connection error")) (lit "Some text.")
            (lit "what?") _ _ _)).
  - intros c; reflexivity.
  - reflexivity.
  - reflexivity.
Defined.

(** X23: whatever the collaborators return and however the
    floating-point operations round, a confidence returned by
    [_answer_question_from_context] lies between 0 and 1. *)
Theorem confidence_is_between_0_and_1
    (from_pretrained : Models.auto_class -> str -> Result Models.handle)
    (spinner : str -> Result unit) (display : st_call -> Result unit)
    (qa_tokenizer_call : Models.handle -> str -> str -> Result (list Models.tokens))
    (qa_model_call : Models.handle -> list Models.tokens -> Result (list Q * list Q))
    (ids_to_string : Models.handle -> Models.tokens -> Result str)
    (float_add float_div : Q -> Q -> Q)
    (question context : str) (ms : Models.t) (w : world)
    (answer : str) (score : Q) :
  fst (fst (Models._answer_question_from_context from_pretrained spinner display
              qa_tokenizer_call qa_model_call ids_to_string float_add float_div
              question context ms w))
  = Ok (answer, score) ->
  (0 <= score <= 1)%Q.
Proof.
  unfold Models._answer_question_from_context.
  unfold Models.bind_mm at 1.
  destruct (Models._load_models from_pretrained spinner display ms w)
    as [[[loaded|e] ms1] w1]; [|discriminate].
  destruct loaded; cbn [negb].
  2:{ unfold Models.ret_mm. intros [= _ <-]. split; [apply Qle_refl|discriminate]. }
  unfold Models.bind_mm at 1, Models.get_models at 1.
  rewrite bind_lift_r.
  destruct (Models.the (Models.qa_tokenizer ms1) _) as [input_ids|e];
    [|discriminate].
  rewrite bind_lift_r.
  destruct (Models.the (Models.qa_model ms1) _) as [[start_logits end_logits]|e];
    [|discriminate].
  rewrite bind_lift_r.
  destruct (Models.torch_argmax start_logits) as [answer_start|e]; [|discriminate].
  rewrite bind_lift_r.
  destruct (Models.torch_argmax end_logits) as [end_index|e]; [|discriminate].
  rewrite bind_lift_r.
  destruct input_ids as [|row rest]; [discriminate|].
  rewrite bind_lift_r.
  destruct (Models.the_attribute (Models.qa_tokenizer ms1) _ _) as [a|e];
    [|discriminate].
  rewrite bind_lift_r.
  destruct (Models.torch_max start_logits) as [max_start|e]; [|discriminate].
  rewrite bind_lift_r.
  destruct (Models.torch_max end_logits) as [max_end|e]; [|discriminate].
  unfold Models.ret_mm. cbn [fst]. intros E.
  apply (f_equal (fun r => match r with Ok (_, s) => s | Raise _ => 0%Q end)) in E.
  rewrite <- E. apply clamp_range.
Qed.

Lemma confidence_is_between_0_and_1_witness : (0 <= 17 # 20 <= 1)%Q.
Proof.
  apply (confidence_is_between_0_and_1 Models.offline (fun _ => Ok tt)
           quiet_display (fun _ _ _ => Ok [[1; 2; 3]%N])
           (fun _ _ => Ok ([1; 8; 2], [0; 3; 9])%Q)
           (fun _ ids => Ok ids) Qplus Qdiv (lit "what?") (lit "Some text.")
           (Models.mk (Some 1%N) (Some 2%N) (Some 3%N) (Some 4%N) true)
           (world_of []) [2; 3]%N (17 # 20)).
  vm_compute. reflexivity.
Defined.

(** X24: [__init__] (spinner not raising) leaves an assistant without
    models, without document text and without summary, whatever was
    there before; on it [generate_summary] and [answer_question] return
    "Please load a PDF first.". *)
Theorem fresh_assistant_has_no_document
    (spinner : str -> Result unit) (display : st_call -> Result unit)
    (sent_tokenize : str -> Result (list str))
    (_summarize_text : str -> run str)
    (_answer_question_from_context : str -> str -> run (str * Q))
    (ms : Models.t) (w : world) (question : str) :
  spinner (lit "Loading AI models...") = Ok tt ->
  let '(r, ms', w') := Models.__init__ spinner display ms w in
  r = Ok tt /\ ms' = Models.fresh
  /\ self w' = mk_assistant [] [] /\ events w' = events w
  /\ generate_summary sent_tokenize _summarize_text display w'
     = (Ok (lit "Please load a PDF first."), w')
  /\ answer_question sent_tokenize _answer_question_from_context display
       question w'
     = (Ok (lit "Please load a PDF first."), w').
Proof.
  intros Hs.
  unfold Models.__init__, Models.bind_mm, Models.try_except_mm, Models.lift_r,
    Models.lift_mm, Models.set_summarizer_tokenizer, Models.set_summarizer_model,
    Models.set_qa_tokenizer, Models.set_qa_model, Models.set_models_loaded,
    set_pdf_text, set_summary.
  cbv beta iota. rewrite Hs. cbv beta iota.
  split; [reflexivity|]. split; [reflexivity|]. split; [reflexivity|].
  split; [reflexivity|]. split.
  - apply generate_summary_no_document. reflexivity.
  - apply answer_question_no_document. reflexivity.
Qed.

Lemma fresh_assistant_has_no_document_witness :
  let '(r, ms', w') :=
    Models.__init__ (fun _ => Ok tt) quiet_display
      (Models.mk (Some 1%N) None None None true) (world_of (lit "old")) in
  r = Ok tt /\ ms' = Models.fresh.
Proof.
  pose proof (fresh_assistant_has_no_document (fun _ => Ok tt) quiet_display
                no_punkt constant_summarizer (constant_answerer 1)
                (Models.mk (Some 1%N) None None None true)
                (world_of (lit "old")) (lit "what?") eq_refl) as H.
  destruct (Models.__init__ (fun _ => Ok tt) quiet_display
              (Models.mk (Some 1%N) None None None true) (world_of (lit "old")))
    as [[r ms'] w'].
  destruct H as (H1 & H2 & _). split; assumption.
Defined.

(** ** The document and the summary under [answer_question] *)

Ltac load_step shown :=
  cbv beta iota;
  match goal with |- context [shown ?c] => destruct (shown c) end;
  reflexivity.

Lemma load_models_keeps_self
    (from_pretrained : Models.auto_class -> str -> Result Models.handle)
    (spinner : str -> Result unit) (display : st_call -> Result unit)
    (ms : Models.t) (w : world) :
  self (snd (Models._load_models from_pretrained spinner display ms w)) = self w.
Proof.
  destruct (Models.models_loaded ms) eqn:H.
  - rewrite (load_models_loaded from_pretrained spinner display ms w H).
    reflexivity.
  - unfold Models._load_models, Models.bind_mm,
      Models.try_except_mm, Models.lift_r, Models.lift_mm, Models.get_models,
      Models.ret_mm, Models.set_summarizer_tokenizer, Models.set_summarizer_model,
      Models.set_qa_tokenizer, Models.set_qa_model, Models.set_models_loaded,
      st, any_Exception, log.
    cbv beta iota. rewrite H. cbn [negb].
    destruct (spinner (lit "Loading AI models (first use)...")) as [u|e];
      [|load_step display].
    destruct (from_pretrained Models.AutoTokenizer (lit "t5-small")) as [h1|e];
      [|load_step display].
    destruct (from_pretrained Models.AutoModelForSeq2SeqLM (lit "t5-small"))
      as [h2|e]; [|load_step display].
    destruct (from_pretrained Models.AutoTokenizer
                (lit "distilbert-base-cased-distilled-squad")) as [h3|e];
      [|load_step display].
    destruct (from_pretrained Models.AutoModelForQuestionAnswering
                (lit "distilbert-base-cased-distilled-squad")) as [h4|e];
      [|load_step display].
    reflexivity.
Qed.

Lemma answer_from_context_keeps_self
    (from_pretrained : Models.auto_class -> str -> Result Models.handle)
    (spinner : str -> Result unit) (display : st_call -> Result unit)
    (qa_tokenizer_call : Models.handle -> str -> str -> Result (list Models.tokens))
    (qa_model_call : Models.handle -> list Models.tokens -> Result (list Q * list Q))
    (ids_to_string : Models.handle -> Models.tokens -> Result str)
    (float_add float_div : Q -> Q -> Q)
    (question context : str) (ms : Models.t) (w : world) :
  self (snd (Models._answer_question_from_context from_pretrained spinner display
               qa_tokenizer_call qa_model_call ids_to_string float_add float_div
               question context ms w)) = self w.
Proof.
  unfold Models._answer_question_from_context.
  unfold Models.bind_mm at 1.
  pose proof (load_models_keeps_self from_pretrained spinner display ms w) as K.
  destruct (Models._load_models from_pretrained spinner display ms w)
    as [[[loaded|e] ms1] w1]; cbn [snd] in K; [|exact K].
  destruct loaded; cbn [negb]; [|exact K].
  unfold Models.bind_mm at 1, Models.get_models at 1.
  rewrite bind_lift_r.
  destruct (Models.the (Models.qa_tokenizer ms1) _) as [input_ids|e]; [|exact K].
  rewrite bind_lift_r.
  destruct (Models.the (Models.qa_model ms1) _) as [[start_logits end_logits]|e];
    [|exact K].
  rewrite bind_lift_r.
  destruct (Models.torch_argmax start_logits) as [answer_start|e]; [|exact K].
  rewrite bind_lift_r.
  destruct (Models.torch_argmax end_logits) as [end_index|e]; [|exact K].
  rewrite bind_lift_r.
  destruct input_ids as [|row rest]; [exact K|].
  rewrite bind_lift_r.
  destruct (Models.the_attribute (Models.qa_tokenizer ms1) _ _) as [a|e]; [|exact K].
  rewrite bind_lift_r.
  destruct (Models.torch_max start_logits) as [max_start|e]; [|exact K].
  rewrite bind_lift_r.
  destruct (Models.torch_max end_logits) as [max_end|e]; [|exact K].
  exact K.
Qed.

(** X7: [answer_question] leaves the document text and the stored
    summary as they are. Its own statements never assign them, whatever
    the question, the display and the outcomes of the inference, and
    however the call ends; and the method it calls for the inference,
    [_answer_question_from_context] with [_load_models], assigns the
    model fields only: after it, too, the text and the summary are the
    same, whatever the collaborators do. *)
Theorem answer_question_keeps_text_and_summary
    (sent_tokenize : str -> Result (list str))
    (outcomes : str -> str -> run (str * Q))
    (display : st_call -> Result unit) (question : str) (w : world)
    (from_pretrained : Models.auto_class -> str -> Result Models.handle)
    (spinner : str -> Result unit)
    (qa_tokenizer_call : Models.handle -> str -> str -> Result (list Models.tokens))
    (qa_model_call : Models.handle -> list Models.tokens -> Result (list Q * list Q))
    (ids_to_string : Models.handle -> Models.tokens -> Result str)
    (float_add float_div : Q -> Q -> Q)
    (context : str) (ms : Models.t) :
  (pdf_text (self (snd (answer_question sent_tokenize outcomes display question w)))
   = pdf_text (self w)
   /\ summary (self (snd (answer_question sent_tokenize outcomes display question w)))
      = summary (self w))
  /\ (pdf_text (self (snd (Models._answer_question_from_context from_pretrained
                             spinner display qa_tokenizer_call qa_model_call
                             ids_to_string float_add float_div question context
                             ms w)))
      = pdf_text (self w)
      /\ summary (self (snd (Models._answer_question_from_context from_pretrained
                               spinner display qa_tokenizer_call qa_model_call
                               ids_to_string float_add float_div question context
                               ms w)))
         = summary (self w)).
Proof.
  split.
  - rewrite (proj1 (answer_question_extends sent_tokenize outcomes display
                      question w)).
    split; reflexivity.
  - rewrite answer_from_context_keeps_self. split; reflexivity.
Qed.

(** ** [main]: the conversation *)

Lemma str_eqb_eq (a b : str) : str_eqb a b = true <-> a = b.
Proof.
  revert b. induction a as [|x a IH]; intros [|y b]; simpl;
    try (split; [discriminate|discriminate]); [split; reflexivity|].
  rewrite andb_true_iff, N.eqb_eq, IH. split.
  - intros [-> ->]; reflexivity.
  - intros [= -> ->]; split; reflexivity.
Qed.

Lemma no_repeat_snoc (history : list (str * str)) (q a : str) :
  no_repeat history ->
  history = [] \/ fst (last history ([], [])) <> q ->
  no_repeat (history ++ [(q, a)]).
Proof.
  induction history as [|x rest IH]; intros Hn Hl; [exact I|].
  destruct rest as [|y rest'].
  - simpl. split; [|exact I].
    destruct Hl as [Hl|Hl]; [discriminate|exact Hl].
  - destruct Hn as [Hxy Hn]. split; [exact Hxy|].
    apply IH; [exact Hn|]. right.
    destruct Hl as [Hl|Hl]; [discriminate|exact Hl].
Qed.

Section QuestionTabFacts.

Variable sent_tokenize : str -> Result (list str).
Variable _answer_question_from_context : str -> str -> run (str * Q).
Variable display : st_call -> Result unit.
Variable spinner : str -> Result unit.
Variable show_exchange : str -> str -> Result unit.

Lemma main_ask_conversation ask_button question ss w :
  conversation (snd (fst (main_ask sent_tokenize _answer_question_from_context
                            display spinner ask_button question ss w)))
  = conversation ss.
Proof.
  unfold main_ask. destruct (ask_button && truthy question); [|reflexivity].
  destruct (spinner _); [|reflexivity].
  destruct (answer_question _ _ _ _ _) as [[answer|e] w']; reflexivity.
Qed.

Lemma main_record_no_repeat ss w :
  no_repeat (history_of ss) ->
  no_repeat (history_of (snd (fst (main_record show_exchange ss w)))).
Proof.
  intros Hn. unfold main_record.
  destruct (last_answer ss) as [answer|]; [|exact Hn].
  destruct (last_question ss) as [question|]; [|exact Hn].
  destruct (show_exchange question answer); [|exact Hn].
  unfold history_of in *. cbn [snd fst conversation].
  destruct (conversation ss) as [[|x c]|]; try exact I.
  cbn [orb].
  destruct (str_eqb (fst (last (x :: c) ([], []))) question) eqn:E; cbn [negb].
  - exact Hn.
  - apply no_repeat_snoc; [exact Hn|]. right. intros Heq.
    apply str_eqb_eq in Heq. congruence.
Qed.

End QuestionTabFacts.

(** X25: the conversation never holds the same question twice in a row:
    if it does not before the question tab of [main] runs, it does not
    afterwards, whatever is asked, whatever the collaborators do and
    however the run ends. *)
Theorem conversation_never_repeats_a_question
    (sent_tokenize : str -> Result (list str))
    (_answer_question_from_context : str -> str -> run (str * Q))
    (display : st_call -> Result unit)
    (spinner : str -> Result unit)
    (show_exchange : str -> str -> Result unit)
    (ask_button : bool) (question : str) (ss : session) (w : world) :
  no_repeat (history_of ss) ->
  no_repeat (history_of (snd (fst (main_question_tab sent_tokenize
                                     _answer_question_from_context display
                                     spinner show_exchange ask_button question
                                     ss w)))).
Proof.
  intros Hn. unfold main_question_tab.
  pose proof (main_ask_conversation sent_tokenize _answer_question_from_context
                display spinner ask_button question ss w) as Hc.
  destruct (main_ask sent_tokenize _answer_question_from_context display spinner
              ask_button question ss w) as [[[u|e] ss1] w1]; cbn [snd fst] in Hc.
  - apply main_record_no_repeat. unfold history_of in *. rewrite Hc. exact Hn.
  - cbn [snd fst]. unfold history_of in *. rewrite Hc. exact Hn.
Qed.

Lemma conversation_never_repeats_a_question_witness :
  no_repeat (history_of (snd (fst (main_question_tab no_punkt
     (constant_answerer (9 # 10)) quiet_display (fun _ => Ok tt)
     (fun _ _ => Ok tt) true (lit "what?")
     (mk_session (Some (lit "a")) (Some (lit "what?"))
        (Some [(lit "what?", lit "a")]))
     (world_of (lit "Hello world. Bye.")))))).
Proof.
  apply conversation_never_repeats_a_question. exact I.
Defined.

(** X26: asking again the question the conversation ends with replaces
    [last_answer] by the new answer but leaves the conversation as it
    is: the entry recorded for that question keeps the earlier answer,
    also when the new answer is a different one. *)
Theorem repeated_question_keeps_the_old_answer
    (sent_tokenize : str -> Result (list str))
    (_answer_question_from_context : str -> str -> run (str * Q))
    (display : st_call -> Result unit)
    (spinner : str -> Result unit)
    (show_exchange : str -> str -> Result unit)
    (question answer : str) (history : list (str * str))
    (ss : session) (w w' : world) :
  question <> [] ->
  conversation ss = Some history ->
  history <> [] ->
  fst (last history ([], [])) = question ->
  spinner (lit "Searching for an answer...") = Ok tt ->
  answer_question sent_tokenize _answer_question_from_context display question w
  = (Ok answer, w') ->
  show_exchange question answer = Ok tt ->
  main_question_tab sent_tokenize _answer_question_from_context display spinner
    show_exchange true question ss w
  = (Ok tt, mk_session (Some answer) (Some question) (Some history), w').
Proof.
  intros Hq Hc Hne Hlast Hs Ha Hshow.
  unfold main_question_tab, main_ask.
  rewrite (truthy_true _ Hq). cbn [andb]. rewrite Hs, Ha.
  unfold main_record. cbn [last_answer last_question conversation].
  rewrite Hshow, Hc.
  destruct history as [|x c]; [congruence|]. cbn [orb].
  rewrite (proj2 (str_eqb_eq _ _) Hlast). reflexivity.
Qed.

Lemma repeated_question_keeps_the_old_answer_witness :
  main_question_tab no_punkt (constant_answerer (9 # 10)) quiet_display
    (fun _ => Ok tt) (fun _ _ => Ok tt) true (lit "what?")
    (mk_session (Some (lit "old answer")) (Some (lit "what?"))
       (Some [(lit "what?", lit "old answer")]))
    (world_of [])
  = (Ok tt,
     mk_session (Some (lit "Please load a PDF first.")) (Some (lit "what?"))
       (Some [(lit "what?", lit "old answer")]),
     world_of []).
Proof.
  apply (repeated_question_keeps_the_old_answer no_punkt
           (constant_answerer (9 # 10)) quiet_display (fun _ => Ok tt)
           (fun _ _ => Ok tt) (lit "what?") (lit "Please load a PDF first.")
           [(lit "what?", lit "old answer")]);
    try reflexivity; discriminate.
Defined.
